(** * protobuf-array-stream: the RepeatedFieldStream decoder

    A shallow embedding of [src/index.ts] (class [RepeatedFieldStream]) and of
    [src/constants.ts], with the properties of the incremental
    tag / length / payload framing state machine.

    Conventions of the embedding:
    - a [Buffer] is a [list byte]; [buffer.subarray(0, n)] is [firstn n] and
      [buffer.subarray(n)] is [skipn n];
    - a JavaScript number that only ever holds an integer is a [Z]; the
      bitwise operators go through [ToInt32] as ECMAScript prescribes;
    - the object's mutable fields are a record [State] threaded explicitly;
      [this.push(entry)] appends to the field [pushed];
    - a [throw] is the constructor [Throw] of [result], and carries the state
      at the moment of the throw (mutations made before it persist);
    - [while] loops over the buffer are structural recursions on the bytes
      still to be scanned; the outer [while] of [_transform], which has no
      such bound, takes fuel. *)

From Stdlib.Strings Require Import Ascii String Byte.
From Stdlib Require Import ZArith List Bool Lia Arith.
Import ListNotations.

Local Open Scope Z_scope.

(** ** JavaScript integer arithmetic *)

Module JS.

(** ECMAScript [ToInt32]: wrap into the signed 32-bit range. *)
Definition ToInt32 (z : Z) : Z := (z + 2 ^ 31) mod 2 ^ 32 - 2 ^ 31.

(** [a & b] *)
Definition and (a b : Z) : Z := Z.land (ToInt32 a) (ToInt32 b).

(** [a | b] *)
Definition or (a b : Z) : Z := Z.lor (ToInt32 a) (ToInt32 b).

(** [a << b]: the shift count is taken modulo 32 and the result wraps. *)
Definition shl (a b : Z) : Z :=
  ToInt32 (Z.shiftl (ToInt32 a) (Z.land b 31)).

(** [a >> b] (sign-propagating) *)
Definition sar (a b : Z) : Z := Z.shiftr (ToInt32 a) (Z.land b 31).

End JS.

(** The numeric value of a buffer element, in [0, 255]. *)
Definition byteZ (b : byte) : Z := Z.of_N (Byte.to_N b).

(** ** constants.ts *)

Module DATA_TYPES.
Definition INT_32 := "int32"%string.
Definition INT_64 := "int64"%string.
Definition UINT_32 := "uint32"%string.
Definition UINT_64 := "uint64"%string.
Definition SINT_32 := "sint32"%string.
Definition SINT_64 := "sint64"%string.
Definition BOOL := "bool"%string.
Definition ENUM := "enum"%string.
Definition FIXED_64 := "fixed64"%string.
Definition SFIXED_64 := "sfixed64"%string.
Definition DOUBLE := "double"%string.
Definition STRING := "string"%string.
Definition BYTES := "bytes"%string.
Definition FIXED_32 := "fixed32"%string.
Definition SFIXED_32 := "sfixed32"%string.
Definition FLOAT := "float"%string.

(** [Object.values(DATA_TYPES)] *)
Definition values : list string :=
  [INT_32; INT_64; UINT_32; UINT_64; SINT_32; SINT_64; BOOL; ENUM;
   FIXED_64; SFIXED_64; DOUBLE; STRING; BYTES; FIXED_32; SFIXED_32; FLOAT].
End DATA_TYPES.

Module WIRE_TYPES.
Definition VARINT : Z := 0.
Definition I64 : Z := 1.
Definition LEN : Z := 2.
Definition I32 : Z := 5.
End WIRE_TYPES.

Module MASKS.
Definition MSB : Z := 127.
Definition WIRE_TYPE : Z := 7.
End MASKS.

(** [TOKENS = { TAG: 0, LENGTH: 1, PAYLOAD: 3 }]; [nextToken] is only ever
    assigned one of the three. *)
Inductive Token : Type := TAG | LENGTH | PAYLOAD.

Definition Token_eqb (a b : Token) : bool :=
  match a, b with
  | TAG, TAG | LENGTH, LENGTH | PAYLOAD, PAYLOAD => true
  | _, _ => false
  end.

(** ** The varint primitive *)

(** The [for] loop of [decodeVarint]: [bytePosition] counts up while the
    remaining bytes are consumed. *)
Fixpoint decodeVarint_loop (varint : list byte) (bytePosition : Z) (number : Z)
  : Z :=
  match varint with
  | [] => number
  | currentByte :: rest =>
      let sevenBits := JS.and (byteZ currentByte) MASKS.MSB in
      let shift := bytePosition * 7 in
      decodeVarint_loop rest (bytePosition + 1)
        (JS.or number (JS.shl sevenBits shift))
  end.

Definition decodeVarint (varint : list byte) : Z :=
  decodeVarint_loop varint 0 0.

(** The value the claim speaks of, in its own words: the sum over the byte
    index [i] of [(byte_i AND 0x7f) * 128^i] (here from index [i] on). *)
Fixpoint base128_sum_from (i : nat) (varint : list byte) : Z :=
  match varint with
  | [] => 0
  | b :: rest =>
      Z.land (byteZ b) 127 * 128 ^ Z.of_nat i + base128_sum_from (S i) rest
  end.

Definition base128_sum (varint : list byte) : Z := base128_sum_from 0 varint.

(** ** Errors and results *)

(** The message templates of [ERRORS] in constants.ts; a
    [RepeatedFieldStreamError] is built from exactly one of them. *)
Inductive ErrorMessage : Type :=
| NOT_EXISTS (messageName : string)
| EMPTY_FIELD (messageName : string)
| MORE_FIELDS (messageName : string) (fieldCount : nat)
| NOT_REPEATED (messageName fieldName : string)
| TAG_ERROR (expected actual : Z)
| PAYLOAD_ERROR (cause : string).

(** What the code can throw: its own [RepeatedFieldStreamError], or an error
    of the schema library that it lets through unchanged. *)
Inductive Exception : Type :=
| RepeatedFieldStreamError (message : ErrorMessage)
| LibraryError (what : string).

(** A computation that returns or throws. *)
Inductive result (A : Type) : Type :=
| Ok (a : A)
| Throw (e : Exception).
Arguments Ok {A} a.
Arguments Throw {A} e.

Definition bind {A B : Type} (r : result A) (k : A -> result B) : result B :=
  match r with
  | Ok a => k a
  | Throw e => Throw e
  end.

Notation "x <- r ;; k" := (bind r (fun x => k))
  (at level 61, r at next level, right associativity).

(** [xs.includes(x)] on strings. *)
Definition includes (xs : list string) (x : string) : bool :=
  existsb (String.eqb x) xs.

(** ** The schema provider and the value codec (protobufjs)

    The decoder reads a schema through [root.lookupType],
    [root.lookupTypeOrEnum] and the [fieldsArray] of a message type, and
    decodes framed payloads with a [protobuf.Reader], with
    [Buffer.toString] and with [Type.decode] / [Type.toObject].  These
    belong to the libraries, not to this repository: they are the
    parameters of the development. *)

Set Implicit Arguments.

Section Decoder.

(** The JavaScript values the library readers produce (numbers, [Long]s,
    booleans, plain objects). *)
Variable J : Type.

(** What the stream emits: a library value, a string, or the payload
    [Buffer] itself. *)
Inductive Value : Type :=
| Ext (j : J)
| Str (s : string)
| Buf (payload : list byte).

(** A library call that returns or throws [cause]. *)
Definition reading : Type := list byte -> J + string.

(** [protobuf.Reader.create(payload)] followed by one read, per scalar
    type, [payload.toString("utf8")], and the empty object literal. *)
Record Codec : Type := {
  reader_int32 : reading;
  reader_int64 : reading;
  reader_uint32 : reading;
  reader_uint64 : reading;
  reader_sint32 : reading;
  reader_sint64 : reading;
  reader_bool : reading;
  reader_fixed64 : reading;
  reader_sfixed64 : reading;
  reader_double : reading;
  reader_fixed32 : reading;
  reader_sfixed32 : reading;
  reader_float : reading;
  toString_utf8 : list byte -> string;
  empty_object : J
}.

Variable codec : Codec.

(** A [protobuf.Field]. *)
Record Field : Type := {
  field_name : string;
  field_type : string;
  repeated : bool;
  packed : bool
}.

(** A [protobuf.Type]; [decode_toObject] is [Type.decode] followed by
    [Type.toObject]. *)
Record MessageType : Type := {
  fieldsArray : list Field;
  decode_toObject : reading
}.

Inductive TypeOrEnum : Type :=
| IsType (t : MessageType)
| IsEnum.

(** A [protobuf.Root]; [None] stands for the lookup throwing. *)
Record Root : Type := {
  lookupType : string -> option MessageType;
  lookupTypeOrEnum : string -> option TypeOrEnum
}.

(** ** validateMessage *)

Definition validateMessage (root : Root) (messageName : string)
  : result unit :=
  match lookupType root messageName with
  | None => Throw (RepeatedFieldStreamError (NOT_EXISTS messageName))
  | Some MessageType =>
      let fieldCount := length (fieldsArray MessageType) in
      match nth_error (fieldsArray MessageType) 0 with
      | None => Throw (RepeatedFieldStreamError (EMPTY_FIELD messageName))
      | Some repeatedField =>
          if (1 <? fieldCount)%nat then
            Throw (RepeatedFieldStreamError
                     (MORE_FIELDS messageName fieldCount))
          else if negb (repeated repeatedField) then
            Throw (RepeatedFieldStreamError
                     (NOT_REPEATED messageName (field_name repeatedField)))
          else Ok tt
      end
  end.

(** ** getRepeatedFieldDetails *)

(** The object [getRepeatedFieldDetails] returns; its member [decode]
    is [decodeValue] here, [decode] being the method of the stream. *)
Record RepeatedField : Type := {
  name : string;
  wireType : Z;
  isPacked : bool;
  decodeValue : list byte -> Value + string
}.

Definition getWriteType (type : string) : Z :=
  if includes [DATA_TYPES.INT_32; DATA_TYPES.INT_64; DATA_TYPES.UINT_32;
               DATA_TYPES.UINT_64; DATA_TYPES.SINT_32; DATA_TYPES.SINT_64;
               DATA_TYPES.BOOL; DATA_TYPES.ENUM] type
  then WIRE_TYPES.VARINT
  else if includes [DATA_TYPES.FIXED_64; DATA_TYPES.SFIXED_64;
                    DATA_TYPES.DOUBLE] type
  then WIRE_TYPES.I64
  else if includes [DATA_TYPES.FIXED_32; DATA_TYPES.SFIXED_32;
                    DATA_TYPES.FLOAT] type
  then WIRE_TYPES.I32
  else WIRE_TYPES.LEN.

Definition getResolvedType (type : string) (root : Root) : result string :=
  if negb (includes DATA_TYPES.values type) then
    match lookupTypeOrEnum root type with
    | None => Throw (LibraryError type)
    | Some IsEnum => Ok DATA_TYPES.INT_32
    | Some (IsType _) => Ok type
    end
  else Ok type.

Definition ext (r : J + string) : Value + string :=
  match r with
  | inl j => inl (Ext j)
  | inr cause => inr cause
  end.

(** The [switch (resolvedType)] of the closure [getDecoder] returns. *)
Definition scalarDecoder (resolvedType : string) (payload : list byte)
  : Value + string :=
  if String.eqb resolvedType DATA_TYPES.INT_32
  then ext (reader_int32 codec payload)
  else if String.eqb resolvedType DATA_TYPES.INT_64
  then ext (reader_int64 codec payload)
  else if String.eqb resolvedType DATA_TYPES.UINT_32
  then ext (reader_uint32 codec payload)
  else if String.eqb resolvedType DATA_TYPES.UINT_64
  then ext (reader_uint64 codec payload)
  else if String.eqb resolvedType DATA_TYPES.SINT_32
  then ext (reader_sint32 codec payload)
  else if String.eqb resolvedType DATA_TYPES.SINT_64
  then ext (reader_sint64 codec payload)
  else if String.eqb resolvedType DATA_TYPES.BOOL
  then ext (reader_bool codec payload)
  else if String.eqb resolvedType DATA_TYPES.FIXED_64
  then ext (reader_fixed64 codec payload)
  else if String.eqb resolvedType DATA_TYPES.SFIXED_64
  then ext (reader_sfixed64 codec payload)
  else if String.eqb resolvedType DATA_TYPES.DOUBLE
  then ext (reader_double codec payload)
  else if String.eqb resolvedType DATA_TYPES.FIXED_32
  then ext (reader_fixed32 codec payload)
  else if String.eqb resolvedType DATA_TYPES.SFIXED_32
  then ext (reader_sfixed32 codec payload)
  else if String.eqb resolvedType DATA_TYPES.FLOAT
  then ext (reader_float codec payload)
  else if String.eqb resolvedType DATA_TYPES.STRING
  then inl (Str (toString_utf8 codec payload))
  else inl (Buf payload).

(** [getDecoder] is only called with [type = resolvedType]. *)
Definition getDecoder (type : string) (root : Root)
  : result (list byte -> Value + string) :=
  if negb (includes DATA_TYPES.values type) then
    match lookupType root type with
    | None => Throw (LibraryError type)
    | Some EmbeddedMessageType =>
        Ok (fun payload => ext (decode_toObject EmbeddedMessageType payload))
    end
  else Ok (scalarDecoder type).

Definition getRepeatedFieldDetails (root : Root) (messageName : string)
  : result RepeatedField :=
  match lookupType root messageName with
  | None => Throw (LibraryError messageName)
  | Some MessageType =>
      match nth_error (fieldsArray MessageType) 0 with
      | None => Throw (LibraryError "TypeError")
      | Some repeatedField =>
          resolvedType <- getResolvedType (field_type repeatedField) root ;;
          let wireType := getWriteType resolvedType in
          let isNumeric :=
            existsb (Z.eqb wireType)
              [WIRE_TYPES.VARINT; WIRE_TYPES.I64; WIRE_TYPES.I32] in
          let isPacked := isNumeric && packed repeatedField in
          decode <- getDecoder resolvedType root ;;
          Ok {| name := field_name repeatedField;
                wireType := wireType;
                isPacked := isPacked;
                decodeValue := decode |}
      end
  end.

Definition getPayloadSizeInBytes (wireType : Z) : Z :=
  if wireType =? WIRE_TYPES.I32 then 4
  else if wireType =? WIRE_TYPES.I64 then 8
  else 0.

(** ** The decoder state *)

(** The fields of a [RepeatedFieldStream] instance; [pushed] is what
    [this.push] has handed to the readable side so far, oldest first. *)
Record State : Type := {
  repeatedField : RepeatedField;
  currentPayloadSize : Z;
  buffer : list byte;
  tag : option Z;
  readOffset : nat;
  nextToken : Token;
  pushed : list Value
}.

Definition set_repeatedField (x : RepeatedField) (s : State) : State :=
  {| repeatedField := x; currentPayloadSize := currentPayloadSize s;
     buffer := buffer s; tag := tag s; readOffset := readOffset s;
     nextToken := nextToken s; pushed := pushed s |}.

Definition set_currentPayloadSize (x : Z) (s : State) : State :=
  {| repeatedField := repeatedField s; currentPayloadSize := x;
     buffer := buffer s; tag := tag s; readOffset := readOffset s;
     nextToken := nextToken s; pushed := pushed s |}.

Definition set_buffer (x : list byte) (s : State) : State :=
  {| repeatedField := repeatedField s;
     currentPayloadSize := currentPayloadSize s;
     buffer := x; tag := tag s; readOffset := readOffset s;
     nextToken := nextToken s; pushed := pushed s |}.

Definition set_tag (x : option Z) (s : State) : State :=
  {| repeatedField := repeatedField s;
     currentPayloadSize := currentPayloadSize s;
     buffer := buffer s; tag := x; readOffset := readOffset s;
     nextToken := nextToken s; pushed := pushed s |}.

Definition set_readOffset (x : nat) (s : State) : State :=
  {| repeatedField := repeatedField s;
     currentPayloadSize := currentPayloadSize s;
     buffer := buffer s; tag := tag s; readOffset := x;
     nextToken := nextToken s; pushed := pushed s |}.

Definition set_nextToken (x : Token) (s : State) : State :=
  {| repeatedField := repeatedField s;
     currentPayloadSize := currentPayloadSize s;
     buffer := buffer s; tag := tag s; readOffset := readOffset s;
     nextToken := x; pushed := pushed s |}.

(** [this.push(entry)] *)
Definition push (entry : Value) (s : State) : State :=
  {| repeatedField := repeatedField s;
     currentPayloadSize := currentPayloadSize s;
     buffer := buffer s; tag := tag s; readOffset := readOffset s;
     nextToken := nextToken s; pushed := pushed s ++ [entry] |}.

(** A method of the instance either returns, leaving the instance in a
    new state, or throws, the instance keeping what was assigned before. *)
Inductive step : Type :=
| Next (s : State)
| Thrown (e : Exception) (s : State).

Definition andThen (r : step) (k : State -> step) : step :=
  match r with
  | Next s => k s
  | Thrown e s => Thrown e s
  end.

(** ** The constructor *)

(** The fields as the constructor assigns them, once the details of the
    repeated field are known. *)
Definition fresh (repeatedField : RepeatedField) : State :=
  {| repeatedField := repeatedField;
     currentPayloadSize := getPayloadSizeInBytes (wireType repeatedField);
     buffer := [];
     tag := None;
     readOffset := 0%nat;
     nextToken := TAG;
     pushed := [] |}.

Definition new_RepeatedFieldStream (root : Root) (messageName : string)
  : result State :=
  _ <- validateMessage root messageName ;;
  repeatedField <- getRepeatedFieldDetails root messageName ;;
  Ok (fresh repeatedField).

(** ** decodePayload, cleanup *)

Definition decodePayload (s : State) (payload : list byte)
  : Value + Exception :=
  match decodeValue (repeatedField s) payload with
  | inl entry => inl entry
  | inr cause => inr (RepeatedFieldStreamError (PAYLOAD_ERROR cause))
  end.

Definition cleanup (s : State) : State :=
  set_buffer []
    (set_repeatedField
       {| name := EmptyString; wireType := 0; isPacked := false;
          decodeValue := fun _ => inl (Ext (empty_object codec)) |} s).

(** ** detectVarint, detectPayload *)

(** The [while] loop of [detectVarint], on the bytes from [readOffset]
    on: it stops after the first byte whose continuation bit is clear,
    or at the end of the buffer.  Returns [!bytesReamining] and the new
    [readOffset]. *)
Fixpoint detectVarint_loop (rest : list byte) (readOffset : nat)
  : bool * nat :=
  match rest with
  | [] => (false, readOffset)
  | byte :: rest =>
      let readOffset := S readOffset in
      let continuationBit := JS.sar (byteZ byte) 7 in
      if continuationBit =? 0 then (true, readOffset)
      else detectVarint_loop rest readOffset
  end.

Definition detectVarint (s : State) : bool * State :=
  let (found, readOffset') :=
    detectVarint_loop (skipn (readOffset s) (buffer s)) (readOffset s) in
  (found, set_readOffset readOffset' s).

(** The [while] loop of [detectPayload], on the bytes from [readOffset]
    on. *)
Fixpoint detectPayload_loop (rest : list byte) (currentPayloadSize : Z)
  (readOffset : nat) : nat :=
  match rest with
  | [] => readOffset
  | _ :: rest =>
      if Z.of_nat readOffset <? currentPayloadSize
      then detectPayload_loop rest currentPayloadSize (S readOffset)
      else readOffset
  end.

Definition detectPayload (s : State) : bool * State :=
  let readOffset' :=
    detectPayload_loop (skipn (readOffset s) (buffer s))
      (currentPayloadSize s) (readOffset s) in
  (Z.of_nat readOffset' =? currentPayloadSize s,
   set_readOffset readOffset' s).

(** ** decode *)

(** [!this.tag]: [null] and [0] are both falsy. *)
Definition tag_is_falsy (t : option Z) : bool :=
  match t with
  | None => true
  | Some z => z =? 0
  end.

(** [tag !== this.tag] *)
Definition tag_differs (t : Z) (stored : option Z) : bool :=
  match stored with
  | None => true
  | Some z => negb (t =? z)
  end.

(** [ERRORS.TAG(this.tag, tag)]; [this.tag] is a number there. *)
Definition tag_error (stored : option Z) (t : Z) : Exception :=
  RepeatedFieldStreamError
    (TAG_ERROR (match stored with Some z => z | None => 0 end) t).

(** The body of [if (this.detectVarint()) { ... }] in the TAG block:
    [readOffset] is just past the tag. *)
Definition complete_TAG (s : State) : step :=
  let varint := firstn (readOffset s) (buffer s) in
  let t := decodeVarint varint in
  andThen
    (if tag_is_falsy (tag s) then Next (set_tag (Some t) s)
     else if tag_differs t (tag s) then Thrown (tag_error (tag s) t) s
     else Next s)
    (fun s =>
       let s := set_buffer (skipn (readOffset s) (buffer s)) s in
       let s := set_readOffset 0%nat s in
       Next (set_nextToken
               (if (wireType (repeatedField s) =? WIRE_TYPES.LEN)
                   || isPacked (repeatedField s)
                then LENGTH else PAYLOAD) s)).

(** The block [if (this.nextToken === TOKENS.TAG) { ... }]. *)
Definition decode_TAG (s : State) : step :=
  if Token_eqb (nextToken s) TAG then
    let (found, s) := detectVarint s in
    if found then complete_TAG s else Next s
  else Next s.

(** The body of [if (this.detectVarint()) { ... }] in the LENGTH block. *)
Definition complete_LENGTH (s : State) : step :=
  let varint := firstn (readOffset s) (buffer s) in
  let s :=
    if negb (isPacked (repeatedField s))
    then set_currentPayloadSize (decodeVarint varint) s
    else s in
  let s := set_buffer (skipn (readOffset s) (buffer s)) s in
  let s := set_readOffset 0%nat s in
  Next (set_nextToken PAYLOAD s).

(** The block [if (this.nextToken === TOKENS.LENGTH) { ... }]. *)
Definition decode_LENGTH (s : State) : step :=
  if Token_eqb (nextToken s) LENGTH then
    let (found, s) := detectVarint s in
    if found then complete_LENGTH s else Next s
  else Next s.

(** The body of the inner [if] of the PAYLOAD block: [readOffset] is
    just past the payload. *)
Definition complete_PAYLOAD (s : State) : step :=
  let payload := firstn (readOffset s) (buffer s) in
  match decodePayload s payload with
  | inr e => Thrown e s
  | inl entry =>
      let s := push entry s in
      let s := set_buffer (skipn (readOffset s) (buffer s)) s in
      let s := set_readOffset 0%nat s in
      if negb (isPacked (repeatedField s)) then
        Next (set_nextToken TAG (set_currentPayloadSize 0 s))
      else Next (set_nextToken PAYLOAD s)
  end.

(** The block [if (this.nextToken === TOKENS.PAYLOAD) { ... }]. *)
Definition decode_PAYLOAD (s : State) : step :=
  if Token_eqb (nextToken s) PAYLOAD then
    let (found, s) :=
      if wireType (repeatedField s) =? WIRE_TYPES.VARINT
      then detectVarint s
      else detectPayload s in
    if found then complete_PAYLOAD s else Next s
  else Next s.

(** One call of [this.decode()]: the three blocks in sequence. *)
Definition decode (s : State) : step :=
  andThen (andThen (decode_TAG s) decode_LENGTH) decode_PAYLOAD.

(** ** _transform, _final, _flush *)

(** How a stream method ends: its callback is called without error, or
    with one (the stream is then destroyed, what was pushed before
    stays pushed), or the loop is still running when the fuel is spent. *)
Inductive Outcome : Type :=
| Done (s : State)
| Failed (e : Exception) (emitted : list Value)
| OutOfFuel (emitted : list Value).

(** [while (this.readOffset < this.buffer.length) { this.decode(); }]
    inside [try { ... } catch (error) { callback(error) }]. *)
Fixpoint decode_loop (fuel : nat) (s : State) : Outcome :=
  if (readOffset s <? length (buffer s))%nat then
    match fuel with
    | O => OutOfFuel (pushed s)
    | S fuel =>
        match decode s with
        | Next s => decode_loop fuel s
        | Thrown e s => Failed e (pushed s)
        end
    end
  else Done s.

Definition _transform (fuel : nat) (s : State) (chunk : list byte)
  : Outcome :=
  decode_loop fuel (set_buffer (buffer s ++ chunk) s).

Definition _final (s : State) : State := cleanup s.

Definition _flush (fuel : nat) (s : State) : Outcome :=
  decode_loop fuel s.

(** ** A whole stream

    [stream.write(chunk)] for each chunk in turn, then [stream.end()]:
    the writable side calls [_final], then the transform calls
    [_flush].  Nothing runs any more once a callback got an error. *)
Fixpoint write_all (fuel : nat) (s : State) (chunks : list (list byte))
  : Outcome :=
  match chunks with
  | [] => Done s
  | chunk :: chunks =>
      match _transform fuel s chunk with
      | Done s => write_all fuel s chunks
      | o => o
      end
  end.

Definition end_of_input (fuel : nat) (s : State) : Outcome :=
  _flush fuel (_final s).

Definition run_stream (fuel : nat) (s : State) (chunks : list (list byte))
  : Outcome :=
  match write_all fuel s chunks with
  | Done s => end_of_input fuel s
  | o => o
  end.

(** What a consumer has received when the stream is over. *)
Definition emitted_by (o : Outcome) : list Value :=
  match o with
  | Done s => pushed s
  | Failed _ emitted => emitted
  | OutOfFuel emitted => emitted
  end.

(** ** Vocabulary of the properties *)

(** The continuation flag of a varint byte: its high bit. *)
Definition continuation (b : byte) : bool := Z.testbit (byteZ b) 7.

(** [Buffer.concat([this.buffer, chunk])] stored back, as [_transform]
    does before it loops. *)
Definition extend (chunk : list byte) (s : State) : State :=
  set_buffer (buffer s ++ chunk) s.

Definition map_step (f : State -> State) (r : step) : step :=
  match r with
  | Next s => Next (f s)
  | Thrown e s => Thrown e (f s)
  end.

(** The bytes of the buffer not yet scanned. *)
Definition unscanned (s : State) : nat :=
  (length (buffer s) - readOffset s)%nat.

(** The loop of [_transform] has nothing to do. *)
Definition resting (s : State) : Prop :=
  readOffset s = length (buffer s).

(** The token being scanned ends at the first byte without continuation
    flag. *)
Definition varint_scanned (s : State) : Prop :=
  nextToken s = TAG \/ nextToken s = LENGTH \/
  (nextToken s = PAYLOAD /\ wireType (repeatedField s) = WIRE_TYPES.VARINT).

(** What holds of the state between two calls of [decode], from the
    constructor on: the cursor is inside the buffer; a packed
    fixed-width field keeps its positive payload size; and a
    fixed-size payload being accumulated is still short of its size
    (or the size is negative, after a LENGTH varint that overflowed). *)
Record consistent (s : State) : Prop := {
  offset_in_buffer : (readOffset s <= length (buffer s))%nat;
  packed_size :
    isPacked (repeatedField s) = true ->
    wireType (repeatedField s) <> WIRE_TYPES.VARINT ->
    0 < currentPayloadSize s;
  payload_short :
    nextToken s = PAYLOAD ->
    wireType (repeatedField s) <> WIRE_TYPES.VARINT ->
    Z.of_nat (readOffset s) < currentPayloadSize s
    \/ currentPayloadSize s < 0
}.

(** The spans [spans] were framed as payloads and decoded to [values]. *)
Definition framed_as (field : RepeatedField) (spans : list (list byte))
  (values : list Value) : Prop :=
  Forall2 (fun span value => decodeValue field span = inl value)
    spans values.

(** How a scan of a buffer relates to the scan of the buffer with
    [c] appended: see [detectVarint_extend] and [detectPayload_extend]. *)
Definition scan_extends (detect : State -> bool * State)
  (s : State) (c : list byte) : Prop :=
  (exists found s1,
      detect s = (found, s1)
      /\ detect (extend c s) = (found, extend c s1)
      /\ (readOffset s1 <= length (buffer s1))%nat
      /\ (readOffset s <= readOffset s1)%nat
      /\ s1 = set_readOffset (readOffset s1) s)
  \/ (detect s = (false, set_readOffset (length (buffer s)) s)
      /\ detect (extend c s)
         = detect (extend c (set_readOffset (length (buffer s)) s))).

(** What holds between two blocks of one call of [decode]: as
    [consistent], but a payload just announced may have size zero. *)
Record between_blocks (s : State) : Prop := {
  bb_offset_in_buffer : (readOffset s <= length (buffer s))%nat;
  bb_packed_size :
    isPacked (repeatedField s) = true ->
    wireType (repeatedField s) <> WIRE_TYPES.VARINT ->
    0 < currentPayloadSize s;
  bb_payload_short :
    nextToken s = PAYLOAD ->
    wireType (repeatedField s) <> WIRE_TYPES.VARINT ->
    Z.of_nat (readOffset s) <= currentPayloadSize s
    \/ currentPayloadSize s < 0
}.

(** How a block of [decode] on a buffer relates to the same block on
    the buffer with [c] appended: in lock step, or the block stopped at
    the end of the buffer in the middle of its token. *)
Definition block_extends (block : State -> step) (token : Token)
  (s : State) (c : list byte) : Prop :=
  block (extend c s) = map_step (extend c) (block s)
  \/ (nextToken s = token
      /\ block s = Next (set_readOffset (length (buffer s)) s)
      /\ block (extend c s)
         = block (extend c (set_readOffset (length (buffer s)) s))).

(** What links a packed state in PAYLOAD to a later one, [incoming]
    being the bytes written in between: still in PAYLOAD with the same
    field and tag, and the bytes that left the buffer were framed as
    payloads, decoded and pushed. *)
Definition payloads_only (incoming : list byte) (s s' : State) : Prop :=
  nextToken s' = PAYLOAD
  /\ repeatedField s' = repeatedField s
  /\ tag s' = tag s
  /\ exists spans values,
      framed_as (repeatedField s) spans values
      /\ pushed s' = pushed s ++ values
      /\ concat spans ++ buffer s' = buffer s ++ incoming.

(** The type of the sole field is one the decoder can resolve: a
    built-in scalar type, an enum of the schema, or a message type of
    the schema. *)
Definition type_resolves (root : Root) (type : string) : bool :=
  includes DATA_TYPES.values type
  || match lookupTypeOrEnum root type with
     | Some IsEnum => true
     | Some (IsType _) =>
         match lookupType root type with
         | Some _ => true
         | None => false
         end
     | None => false
     end.

(** The tag a stream has stored when its method returned. *)
Definition stored_tag (o : Outcome) : option Z :=
  match o with
  | Done s => tag s
  | _ => None
  end.

(** ** The standard encoding of a repeated field

    An element is given by the bytes of its value on the wire, its
    [span]; [tagb] is the tag of the field as a varint. *)

(** [span] is one complete varint: the scan started at its first byte
    ends at its last. *)
Definition is_varint (span : list byte) : Prop :=
  detectVarint_loop span 0 = (true, length span).

(** [span] has the shape the wire type of [field] gives a value. *)
Definition well_framed (field : RepeatedField) (span : list byte) : Prop :=
  if wireType field =? WIRE_TYPES.VARINT then is_varint span
  else if wireType field =? WIRE_TYPES.I32 then length span = 4%nat
  else if wireType field =? WIRE_TYPES.I64 then length span = 8%nat
  else True.

(** [lenb] is the length of [span] as a varint. *)
Definition is_length_of (span lenb : list byte) : Prop :=
  is_varint lenb /\ decodeVarint lenb = Z.of_nat (length span).

(** One entry of the unpacked encoding: tag, length when the field is
    length-delimited, value. *)
Definition unpacked_entry (field : RepeatedField) (tagb : list byte)
  (element : list byte * list byte) : list byte :=
  let (lenb, span) := element in
  tagb
  ++ (if wireType field =? WIRE_TYPES.LEN then lenb else [])
  ++ span.

(** The unpacked encoding: one entry per element, in order. *)
Definition encode_unpacked (field : RepeatedField) (tagb : list byte)
  (elements : list (list byte * list byte)) : list byte :=
  concat (map (unpacked_entry field tagb) elements).

(** The packed encoding: nothing for no element, else one tag, the
    length of the run, and the values one after the other. *)
Definition encode_packed (tagb runlen : list byte)
  (spans : list (list byte)) : list byte :=
  match spans with
  | [] => []
  | _ :: _ => tagb ++ runlen ++ concat spans
  end.

(** [span] is the encoding of [value]: it has the shape of the wire
    type and the value decoder of the field returns [value] on it. *)
Definition encodes (field : RepeatedField) (span : list byte)
  (value : Value) : Prop :=
  well_framed field span /\ decodeValue field span = inl value.

(** The same for an element of the unpacked encoding, which carries its
    length prefix when the field is length-delimited. *)
Definition encodes_entry (field : RepeatedField)
  (element : list byte * list byte) (value : Value) : Prop :=
  encodes field (snd element) value
  /\ (wireType field = WIRE_TYPES.LEN ->
      is_length_of (snd element) (fst element)).

(** The state between two entries of a non-packed field. *)
Definition between_entries (field : RepeatedField) (t : option Z)
  (emitted : list Value) : State :=
  {| repeatedField := field; currentPayloadSize := 0; buffer := [];
     tag := t; readOffset := 0%nat; nextToken := TAG;
     pushed := emitted |}.

(** The state between two values of a packed run. *)
Definition between_values (field : RepeatedField) (t : Z)
  (emitted : list Value) : State :=
  {| repeatedField := field;
     currentPayloadSize := getPayloadSizeInBytes (wireType field);
     buffer := []; tag := Some t; readOffset := 0%nat;
     nextToken := PAYLOAD; pushed := emitted |}.

(** ** Vocabulary of the further properties *)

(** The payload size of [s] does not come from a LENGTH token and never
    will: it is not negative, and a field that is not packed is not
    length-delimited and is not at a LENGTH token. *)
Definition size_is_fixed (s : State) : Prop :=
  0 <= currentPayloadSize s
  /\ (isPacked (repeatedField s) = false ->
      wireType (repeatedField s) <> WIRE_TYPES.LEN
      /\ nextToken s <> LENGTH).

(** 1 when the PAYLOAD block is about to complete a payload of no byte
    (a length of zero was announced, or the size of a fixed-width value
    was reset), 0 otherwise. *)
Definition empty_payload_pending (s : State) : nat :=
  match nextToken s with
  | PAYLOAD =>
      if wireType (repeatedField s) =? WIRE_TYPES.VARINT then 0%nat
      else if currentPayloadSize s =? 0 then 1%nat else 0%nat
  | _ => 0%nat
  end.

(** The elements emitted so far and the bytes still held, counted
    together. *)
Definition emitted_and_held (s : State) : nat :=
  (length (pushed s) + length (buffer s) + empty_payload_pending s)%nat.

(** What was scanned of the token under way does not end it: the bytes
    scanned of a varint all carry the continuation flag, and nothing is
    scanned of a payload whose size is negative. *)
Definition scanned_is_partial (s : State) : Prop :=
  (varint_scanned s ->
   Forall (fun b => continuation b = true)
     (firstn (readOffset s) (buffer s)))
  /\ (~ varint_scanned s ->
      currentPayloadSize s < 0 -> readOffset s = 0%nat).

(** The spans [spans], each of [size] bytes, were cut off the front of
    [bytes] one after the other and decoded to [values]; [held] is what
    is left, less than one span. *)
Definition cut_into (field : RepeatedField) (size : Z) (bytes : list byte)
  (spans : list (list byte)) (values : list Value) (held : list byte)
  : Prop :=
  Forall (fun span => Z.of_nat (length span) = size) spans
  /\ framed_as field spans values
  /\ concat spans ++ held = bytes
  /\ Z.of_nat (length held) < size.

(** The errors of the decoding itself: a TAG token that differs from the
    stored tag, which is then not 0, or a payload span the value decoder
    of [field] threw [cause] on. *)
Definition decoding_error (field : RepeatedField) (e : Exception) : Prop :=
  (exists expected actual,
      e = RepeatedFieldStreamError (TAG_ERROR expected actual)
      /\ expected <> 0 /\ actual <> expected)
  \/ (exists cause span,
      e = RepeatedFieldStreamError (PAYLOAD_ERROR cause)
      /\ decodeValue field span = inr cause).

(** ** Payloads by the wire format *)

(** [span] is exactly one varint: every byte but the last carries the
    continuation flag. *)
Definition one_varint (span : list byte) : Prop :=
  exists front last,
    span = front ++ [last]
    /\ Forall (fun b => continuation b = true) front
    /\ continuation last = false.

(** [span] is exactly one payload of a field with wire type [wireType]
    and payload size [size]: one varint, or [size] bytes. *)
Definition whole_payload (wireType size : Z) (span : list byte) : Prop :=
  if wireType =? WIRE_TYPES.VARINT then one_varint span
  else Z.of_nat (length span) = size.

(** [held] is the beginning of a payload and not a whole one: bytes
    that all carry the continuation flag, or fewer than [size] bytes. *)
Definition partial_payload (wireType size : Z) (held : list byte) : Prop :=
  if wireType =? WIRE_TYPES.VARINT
  then Forall (fun b => continuation b = true) held
  else Z.of_nat (length held) < size.

(** [bytes] starts with the whole payloads [spans] of the field of [s],
    one after the other, which its value decoder turns into [values];
    [rest] is what follows them. *)
Definition starts_with_payloads (s : State) (bytes : list byte)
  (spans : list (list byte)) (values : list Value) (rest : list byte)
  : Prop :=
  Forall (whole_payload (wireType (repeatedField s)) (currentPayloadSize s))
    spans
  /\ framed_as (repeatedField s) spans values
  /\ concat spans ++ rest = bytes.

(** The outcome [o] of writing [incoming] to the state [s] treats every
    byte as payload.  Either the writes returned: the stream is in
    PAYLOAD with the same field, size and tag, the bytes held before
    and the bytes written start with whole payloads that were decoded
    and pushed in order, and what follows them is held, scanned to its
    end, as the beginning of one more payload.  Or the value decoder
    threw on one of the whole payloads, the ones before it having been
    pushed.  The loop of [_transform] does not run out of fuel. *)
Definition all_payloads (incoming : list byte) (s : State) (o : Outcome)
  : Prop :=
  match o with
  | Done s' =>
      nextToken s' = PAYLOAD
      /\ repeatedField s' = repeatedField s
      /\ currentPayloadSize s' = currentPayloadSize s
      /\ tag s' = tag s
      /\ readOffset s' = length (buffer s')
      /\ partial_payload (wireType (repeatedField s)) (currentPayloadSize s)
           (buffer s')
      /\ exists spans values,
          starts_with_payloads s (buffer s ++ incoming) spans values
            (buffer s')
          /\ pushed s' = pushed s ++ values
  | Failed e emitted =>
      exists spans values span cause rest,
        starts_with_payloads s (buffer s ++ incoming) spans values
          (span ++ rest)
        /\ whole_payload (wireType (repeatedField s)) (currentPayloadSize s)
             span
        /\ decodeValue (repeatedField s) span = inr cause
        /\ e = RepeatedFieldStreamError (PAYLOAD_ERROR cause)
        /\ emitted = pushed s ++ values
  | OutOfFuel _ => False
  end.

End Decoder.

Unset Implicit Arguments.

Arguments Str {J} s.
Arguments Buf {J} payload.
Arguments IsEnum {J}.

(** ** A reference codec and sample schemas

    One concrete value codec and a few schemas, for the closed examples
    below.  The codec follows the protobuf wire format: varints are
    base-128 little-endian, fixed-width values little-endian, [sint]
    values zig-zag; a read past the end of the payload throws.  Floating
    point values are kept as their bit patterns, and [toString] maps each
    byte to the character of the same code. *)

Module Reference.

Inductive JsValue : Type :=
| JNumber (n : Z)
| JLong (n : Z)
| JBoolean (b : bool)
| JFloatBits (width : Z) (bits : Z)
| JObject (members : list (string * Z)).

(** The digits of the first varint of [payload], if it is complete. *)
Fixpoint first_varint (payload : list byte) : option Z :=
  match payload with
  | [] => None
  | b :: rest =>
      if byteZ b <? 128 then Some (byteZ b)
      else option_map (fun v => byteZ b - 128 + 128 * v) (first_varint rest)
  end.

Fixpoint little_endian (bytes : list byte) : Z :=
  match bytes with
  | [] => 0
  | b :: rest => byteZ b + 256 * little_endian rest
  end.

Definition signed (width : Z) (n : Z) : Z :=
  (n + 2 ^ (width - 1)) mod 2 ^ width - 2 ^ (width - 1).

Definition unzigzag (n : Z) : Z :=
  if Z.even n then n / 2 else - ((n + 1) / 2).

Definition out_of_range : string := "index out of range".

Definition varint_reader (f : Z -> JsValue) : reading JsValue :=
  fun payload =>
    match first_varint payload with
    | Some v => inl (f v)
    | None => inr out_of_range
    end.

Definition fixed_reader (size : nat) (f : Z -> JsValue) : reading JsValue :=
  fun payload =>
    if (length payload <? size)%nat then inr out_of_range
    else inl (f (little_endian (firstn size payload))).

Definition codec : Codec JsValue := {|
  reader_int32 := varint_reader (fun v => JNumber (JS.ToInt32 v));
  reader_int64 := varint_reader (fun v => JLong (signed 64 v));
  reader_uint32 := varint_reader (fun v => JNumber (v mod 2 ^ 32));
  reader_uint64 := varint_reader (fun v => JLong (v mod 2 ^ 64));
  reader_sint32 := varint_reader (fun v => JNumber (unzigzag (v mod 2 ^ 32)));
  reader_sint64 := varint_reader (fun v => JLong (unzigzag (v mod 2 ^ 64)));
  reader_bool := varint_reader (fun v => JBoolean (negb (v mod 2 ^ 32 =? 0)));
  reader_fixed64 := fixed_reader 8 JLong;
  reader_sfixed64 := fixed_reader 8 (fun v => JLong (signed 64 v));
  reader_double := fixed_reader 8 (JFloatBits 64);
  reader_fixed32 := fixed_reader 4 JNumber;
  reader_sfixed32 := fixed_reader 4 (fun v => JNumber (signed 32 v));
  reader_float := fixed_reader 4 (JFloatBits 32);
  toString_utf8 := string_of_list_byte;
  empty_object := JObject []
|}.

(** A message type with the given fields; its own decoding is not used. *)
Definition message (fields : list Field) : MessageType JsValue :=
  {| fieldsArray := fields;
     decode_toObject := fun _ => inl (JObject []) |}.

Definition repeated_field (type : string) (packed : bool) : Field :=
  {| field_name := "items"; field_type := type;
     repeated := true; packed := packed |}.

(** The schema
<<
    message Packed<T>   { repeated <T> items = 1; }
    message Unpacked<T> { repeated <T> items = 1 [packed = false]; }
    message Empty {}
    message Two   { repeated int32 items = 1; string name = 2; }
    message Single { int32 number = 1; }
    message Dangling { repeated Missing items = 1; }
>>
    for the scalar types used below. *)
Definition types : list (string * MessageType JsValue) :=
  [ ("PackedInt32", message [repeated_field "int32" true]);
    ("UnpackedInt32", message [repeated_field "int32" false]);
    ("PackedFixed32", message [repeated_field "fixed32" true]);
    ("UnpackedFixed32", message [repeated_field "fixed32" false]);
    ("Strings", message [repeated_field "string" true]);
    ("Blobs", message [repeated_field "bytes" true]);
    ("Empty", message []);
    ("Two", message [repeated_field "int32" true;
                     {| field_name := "name"; field_type := "string";
                        repeated := false; packed := true |}]);
    ("Single", message [{| field_name := "number"; field_type := "int32";
                           repeated := false; packed := true |}]);
    ("Dangling", message [repeated_field "Missing" true]) ]%string.

Fixpoint find_type (path : string) (l : list (string * MessageType JsValue))
  : option (MessageType JsValue) :=
  match l with
  | [] => None
  | (n, t) :: l => if String.eqb path n then Some t else find_type path l
  end.

Definition root : Root JsValue :=
  {| lookupType := fun path => find_type path types;
     lookupTypeOrEnum :=
       fun path => option_map (@IsType _) (find_type path types) |}.

(** The details [getRepeatedFieldDetails] computes for [PackedInt32],
    [Strings], [UnpackedInt32] and [UnpackedFixed32]. *)
Definition int32_field : RepeatedField JsValue :=
  {| name := "items"; wireType := WIRE_TYPES.VARINT; isPacked := true;
     decodeValue := scalarDecoder codec "int32" |}.

Definition string_field : RepeatedField JsValue :=
  {| name := "items"; wireType := WIRE_TYPES.LEN; isPacked := false;
     decodeValue := scalarDecoder codec "string" |}.

Definition unpacked_int32_field : RepeatedField JsValue :=
  {| name := "items"; wireType := WIRE_TYPES.VARINT; isPacked := false;
     decodeValue := scalarDecoder codec "int32" |}.

Definition unpacked_fixed32_field : RepeatedField JsValue :=
  {| name := "items"; wireType := WIRE_TYPES.I32; isPacked := false;
     decodeValue := scalarDecoder codec "fixed32" |}.

Definition fixed32_field : RepeatedField JsValue :=
  {| name := "items"; wireType := WIRE_TYPES.I32; isPacked := true;
     decodeValue := scalarDecoder codec "fixed32" |}.

(** The schema
<<
    enum Color { RED = 0; GREEN = 1; }
    message Colors { repeated Color items = 1; }
    message Point { int32 x = 1; }
    message Points { repeated Point items = 1; }
>>
    [Point] decodes its payload to the object holding the first varint
    after the tag as [x]. *)
Definition Point : MessageType JsValue :=
  {| fieldsArray := [{| field_name := "x"; field_type := "int32";
                        repeated := false; packed := true |}];
     decode_toObject :=
       fun payload =>
         match first_varint (skipn 1 payload) with
         | Some v => inl (JObject [("x"%string, JS.ToInt32 v)])
         | None => inr out_of_range
         end |}.

Definition nested_types : list (string * MessageType JsValue) :=
  [ ("Colors", message [repeated_field "Color" true]);
    ("Point", Point);
    ("Points", message [repeated_field "Point" true]) ]%string.

Definition nested_root : Root JsValue :=
  {| lookupType := fun path => find_type path nested_types;
     lookupTypeOrEnum :=
       fun path =>
         if String.eqb path "Color" then Some IsEnum
         else option_map (@IsType _) (find_type path nested_types) |}.

End Reference.

(** ** The texts of the errors (constants.ts, errors.ts) *)

Module ERRORS.

(** The character of the digit [d]. *)
Definition digit (d : Z) : ascii := ascii_of_nat (48 + Z.to_nat d).

(** The decimal digits of [n], at most [fuel] of them, as a template
    literal writes a number that holds a natural number. *)
Fixpoint digits (fuel : nat) (n : Z) : string :=
  match fuel with
  | O => EmptyString
  | S fuel =>
      ((if (n <? 10)%Z then EmptyString else digits fuel (n / 10)%Z)
       ++ String (digit (n mod 10)%Z) EmptyString)%string
  end.

(** A number in decimal has no more digits than in binary. *)
Definition decimal (n : Z) : string :=
  digits (S (Z.to_nat (Z.log2 n))) n.

(** [`${z}`] for a number that holds an integer. *)
Definition number (z : Z) : string :=
  if z <? 0 then ("-" ++ decimal (- z))%string else decimal z.

Module MESSAGE.

Definition NOT_EXISTS (messageName : string) : string :=
  ("Invalid message: '" ++ messageName
   ++ "' does not exist in the proto file.")%string.

Definition EMPTY_FIELD (messageName : string) : string :=
  ("Invalid message: '" ++ messageName
   ++ "' does not have any fields.")%string.

Definition MORE_FIELDS (messageName : string) (fieldCount : nat) : string :=
  ("Invalid message: '" ++ messageName
   ++ "' should only have one field, but has "
   ++ number (Z.of_nat fieldCount) ++ " fields.")%string.

Definition NOT_REPEATED (messageName fieldName : string) : string :=
  ("Invalid message: The field '" ++ fieldName ++ "' in '" ++ messageName
   ++ "' must be 'repeated'.")%string.

End MESSAGE.

Definition TAG (expected actual : Z) : string :=
  ("Expected array-like structure: Tag should repeat as " ++ number expected
   ++ ", but encountered a different tag: " ++ number actual ++ ".")%string.

(** [cause] is [error.message] or [String(error)]. *)
Definition PAYLOAD (cause : string) : string :=
  ("Failed to decode protobuf payload: " ++ cause)%string.

End ERRORS.

(** The [message] of the [RepeatedFieldStreamError] built from a
    template; its [name] is the same for all. *)
Definition message_text (m : ErrorMessage) : string :=
  match m with
  | NOT_EXISTS messageName => ERRORS.MESSAGE.NOT_EXISTS messageName
  | EMPTY_FIELD messageName => ERRORS.MESSAGE.EMPTY_FIELD messageName
  | MORE_FIELDS messageName fieldCount =>
      ERRORS.MESSAGE.MORE_FIELDS messageName fieldCount
  | NOT_REPEATED messageName fieldName =>
      ERRORS.MESSAGE.NOT_REPEATED messageName fieldName
  | TAG_ERROR expected actual => ERRORS.TAG expected actual
  | PAYLOAD_ERROR cause => ERRORS.PAYLOAD cause
  end.

Definition error_name : string := "RepeatedFieldStreamError".




(** * Properties *)

(** ** The varint primitive *)

(** *** Arithmetic of the bitwise operators *)

Lemma byteZ_range (b : byte) : 0 <= byteZ b < 256.
Proof.
  unfold byteZ. pose proof (Byte.to_N_bounded b) as H.
  lia.
Qed.

Lemma ToInt32_small (z : Z) : - 2 ^ 31 <= z < 2 ^ 31 -> JS.ToInt32 z = z.
Proof.
  intros H. unfold JS.ToInt32.
  rewrite Z.mod_small by lia. lia.
Qed.

Lemma land_127_range (z : Z) : 0 <= Z.land z 127 < 128.
Proof.
  change 127 with (Z.ones 7). rewrite Z.land_ones by lia.
  change (2 ^ 7) with 128. apply Z.mod_pos_bound. lia.
Qed.

Lemma sevenBits_eq (b : byte) :
  JS.and (byteZ b) MASKS.MSB = Z.land (byteZ b) 127.
Proof.
  unfold JS.and, MASKS.MSB. pose proof (byteZ_range b).
  rewrite !ToInt32_small; [reflexivity | lia | lia].
Qed.

Lemma lor_disjoint_add (a b k : Z) :
  0 <= k -> 0 <= a < 2 ^ k -> Z.lor a (b * 2 ^ k) = a + b * 2 ^ k.
Proof.
  intros Hk Ha.
  assert (Hland : Z.land a (b * 2 ^ k) = 0).
  { apply Z.bits_inj'. intros n Hn.
    rewrite Z.land_spec, Z.bits_0.
    destruct (Z.lt_ge_cases n k) as [Hlt | Hge].
    - rewrite Z.mul_pow2_bits_low by lia. apply andb_false_r.
    - rewrite <- (Z.mod_small a (2 ^ k)) by lia.
      rewrite Z.mod_pow2_bits_high by lia. reflexivity. }
  rewrite (Z.add_nocarry_lxor _ _ Hland).
  symmetry. apply Z.lxor_lor. exact Hland.
Qed.

(** [sevenBits << shift] is the plain product as long as the product fits. *)
Lemma shl_product (x pos : Z) :
  0 <= pos -> 0 <= x -> x * 128 ^ pos < 2 ^ 31 ->
  JS.shl x (pos * 7) = x * 128 ^ pos.
Proof.
  intros Hpos Hx Hfit.
  assert (Hpow : 128 ^ pos = 2 ^ (pos * 7)).
  { change 128 with (2 ^ 7). rewrite <- Z.pow_mul_r by lia. f_equal. lia. }
  assert (Hp0 : 0 < 2 ^ (pos * 7)) by (apply Z.pow_pos_nonneg; lia).
  unfold JS.shl.
  destruct (Z.eq_dec x 0) as [-> | Hnz].
  - rewrite (ToInt32_small 0) by lia. rewrite Z.shiftl_0_l. reflexivity.
  - assert (Hsmall : pos * 7 < 31).
    { destruct (Z.lt_ge_cases (pos * 7) 31) as [H | H]; [exact H|].
      exfalso.
      assert (2 ^ 31 <= 2 ^ (pos * 7)) by (apply Z.pow_le_mono_r; lia).
      nia. }
    assert (Hx31 : x < 2 ^ 31) by nia.
    rewrite (ToInt32_small x) by lia.
    change 31 with (Z.ones 5) at 1. rewrite Z.land_ones by lia.
    rewrite Z.mod_small by (change (2 ^ 5) with 32; lia).
    rewrite Z.shiftl_mul_pow2 by lia.
    rewrite ToInt32_small by (rewrite <- Hpow; nia).
    rewrite Hpow. reflexivity.
Qed.

Lemma base128_sum_from_nonneg (rest : list byte) :
  forall i, 0 <= base128_sum_from i rest.
Proof.
  induction rest as [| b rest IH]; intros i; simpl; [lia|].
  pose proof (land_127_range (byteZ b)).
  pose proof (IH (S i)).
  assert (0 <= 128 ^ Z.of_nat i) by (apply Z.pow_nonneg; lia).
  nia.
Qed.

(** The loop invariant of [decodeVarint]: [number] holds the digits seen so
    far, below [128 ^ bytePosition]. *)
Lemma decodeVarint_loop_sum (rest : list byte) :
  forall (i : nat) (number : Z),
    0 <= number < 128 ^ Z.of_nat i ->
    number + base128_sum_from i rest < 2 ^ 31 ->
    decodeVarint_loop rest (Z.of_nat i) number
    = number + base128_sum_from i rest.
Proof.
  induction rest as [| b rest IH]; intros i number Hnum Hfit; simpl.
  - lia.
  - pose proof (land_127_range (byteZ b)) as Hb.
    pose proof (base128_sum_from_nonneg rest (S i)) as Hrest.
    simpl in Hfit.
    assert (Hpow : 0 < 128 ^ Z.of_nat i) by (apply Z.pow_pos_nonneg; lia).
    rewrite sevenBits_eq.
    rewrite shl_product by nia.
    unfold JS.or.
    rewrite (ToInt32_small number) by lia.
    rewrite ToInt32_small by nia.
    assert (Hpow2 : 128 ^ Z.of_nat i = 2 ^ (Z.of_nat i * 7)).
    { change 128 with (2 ^ 7). rewrite <- Z.pow_mul_r by lia. f_equal. lia. }
    rewrite Hpow2 at 1.
    rewrite lor_disjoint_add by (rewrite <- ?Hpow2; lia).
    rewrite <- Hpow2.
    replace (Z.of_nat i + 1) with (Z.of_nat (S i)) by lia.
    rewrite IH.
    + lia.
    + rewrite Nat2Z.inj_succ, Z.pow_succ_r by lia. nia.
    + lia.
Qed.

Lemma base128_sum_from_bound (rest : list byte) :
  forall i,
    base128_sum_from i rest + 128 ^ Z.of_nat i
    <= 128 ^ Z.of_nat i * 128 ^ Z.of_nat (length rest).
Proof.
  induction rest as [| b rest IH]; intros i; simpl length.
  - simpl. assert (0 < 128 ^ Z.of_nat i) by (apply Z.pow_pos_nonneg; lia). lia.
  - simpl base128_sum_from.
    pose proof (land_127_range (byteZ b)) as Hb.
    specialize (IH (S i)).
    rewrite !Nat2Z.inj_succ, !Z.pow_succ_r in * by lia.
    assert (0 < 128 ^ Z.of_nat i) by (apply Z.pow_pos_nonneg; lia).
    assert (0 < 128 ^ Z.of_nat (length rest)) by (apply Z.pow_pos_nonneg; lia).
    nia.
Qed.

(** C7. For every byte span whose base-128 value fits the signed 32-bit
    width of JavaScript's bitwise operators -- in particular every span of at
    most 4 bytes -- [decodeVarint] returns the little-endian base-128 value,
    the sum over the byte index [i] of [(byte_i AND 0x7f) * 128^i]. *)
Theorem decodeVarint_base128 (varint : list byte) :
  (length varint <= 4)%nat \/ base128_sum varint < 2 ^ 31 ->
  decodeVarint varint = base128_sum varint.
Proof.
  intros H.
  assert (Hfit : base128_sum varint < 2 ^ 31).
  { destruct H as [Hlen | Hfit]; [| exact Hfit].
    pose proof (base128_sum_from_bound varint 0) as Hb.
    change (128 ^ Z.of_nat 0) with 1 in Hb.
    assert (128 ^ Z.of_nat (length varint) <= 128 ^ 4)
      by (apply Z.pow_le_mono_r; lia).
    unfold base128_sum. change (128 ^ 4) with 268435456 in *.
    change (2 ^ 31) with 2147483648. lia. }
  unfold decodeVarint, base128_sum in *.
  change 0 with (Z.of_nat 0) at 1.
  rewrite (decodeVarint_loop_sum varint 0 0); simpl; lia.
Qed.

(** 300 = 0xAC 0x02. *)
Lemma decodeVarint_base128_witness :
  decodeVarint [xac; x02] = 300.
Proof.
  rewrite (decodeVarint_base128 [xac; x02]).
  - reflexivity.
  - left. simpl. lia.
Defined.

(** ** The two scanning loops *)

Lemma continuationBit_spec (b : byte) :
  (JS.sar (byteZ b) 7 =? 0) = negb (continuation b).
Proof. destruct b; reflexivity. Qed.

Section Scanning.

Context {J : Type}.
Implicit Types (s : State J) (c rest : list byte).

Lemma detectVarint_loop_bounds rest :
  forall ro found ro',
    detectVarint_loop rest ro = (found, ro') ->
    (ro <= ro' <= ro + length rest)%nat
    /\ (rest <> [] -> (ro < ro')%nat)
    /\ (found = false -> ro' = (ro + length rest)%nat).
Proof.
  induction rest as [| b rest IH]; intros ro found ro' H; simpl in H.
  - injection H as <- <-. simpl.
    repeat split; intros; try lia; congruence.
  - destruct (JS.sar (byteZ b) 7 =? 0).
    + injection H as <- <-. simpl.
      repeat split; intros; try lia; discriminate.
    + apply IH in H. simpl. destruct H as (H1 & _ & H3).
      repeat split; intros; try lia.
      match goal with Hf : found = false |- _ => specialize (H3 Hf) end.
      lia.
Qed.

(** A varint that ends inside [rest] ends at the same place whatever
    follows. *)
Lemma detectVarint_loop_found rest c :
  forall ro ro',
    detectVarint_loop rest ro = (true, ro') ->
    detectVarint_loop (rest ++ c) ro = (true, ro').
Proof.
  induction rest as [| b rest IH]; intros ro ro' H; simpl in *.
  - discriminate.
  - destruct (JS.sar (byteZ b) 7 =? 0); [exact H | apply IH, H].
Qed.

(** A varint that does not end inside [rest] is scanned on in what
    follows. *)
Lemma detectVarint_loop_resume rest c :
  forall ro ro',
    detectVarint_loop rest ro = (false, ro') ->
    detectVarint_loop (rest ++ c) ro = detectVarint_loop c ro'.
Proof.
  induction rest as [| b rest IH]; intros ro ro' H; simpl in *.
  - injection H as <-. reflexivity.
  - destruct (JS.sar (byteZ b) 7 =? 0); [discriminate | apply IH, H].
Qed.

Lemma detectVarint_loop_all_continue rest :
  forall ro,
    Forall (fun b => continuation b = true) rest ->
    detectVarint_loop rest ro = (false, (ro + length rest)%nat).
Proof.
  induction rest as [| b rest IH]; intros ro H; simpl.
  - f_equal. lia.
  - inversion H as [| ? ? Hb Hrest]; subst.
    rewrite continuationBit_spec, Hb. simpl.
    rewrite IH by assumption. f_equal. lia.
Qed.

(** The loop of [detectPayload] in closed form. *)
Lemma detectPayload_loop_eq rest :
  forall cps ro,
    detectPayload_loop rest cps ro
    = if Z.of_nat ro <? cps
      then Nat.min (ro + length rest) (Z.to_nat cps)
      else ro.
Proof.
  induction rest as [| b rest IH]; intros cps ro; simpl.
  - destruct (Z.ltb_spec (Z.of_nat ro) cps); lia.
  - destruct (Z.ltb_spec (Z.of_nat ro) cps) as [Hlt | Hge]; [| reflexivity].
    rewrite IH.
    destruct (Z.ltb_spec (Z.of_nat (S ro)) cps); lia.
Qed.

Lemma length_skipn_offset s :
  (readOffset s <= length (buffer s))%nat ->
  (readOffset s + length (skipn (readOffset s) (buffer s))
   = length (buffer s))%nat.
Proof. intros H. rewrite length_skipn. lia. Qed.

Lemma skipn_extend s c :
  (readOffset s <= length (buffer s))%nat ->
  skipn (readOffset s) (buffer s ++ c) = skipn (readOffset s) (buffer s) ++ c.
Proof.
  intros H. rewrite skipn_app.
  replace (readOffset s - length (buffer s))%nat with 0%nat by lia.
  reflexivity.
Qed.

Lemma firstn_extend (n : nat) (l c : list byte) :
  (n <= length l)%nat -> firstn n (l ++ c) = firstn n l.
Proof.
  intros H. rewrite firstn_app.
  replace (n - length l)%nat with 0%nat by lia.
  simpl. apply app_nil_r.
Qed.

Lemma skipn_extend' (n : nat) (l c : list byte) :
  (n <= length l)%nat -> skipn n (l ++ c) = skipn n l ++ c.
Proof.
  intros H. rewrite skipn_app.
  replace (n - length l)%nat with 0%nat by lia.
  reflexivity.
Qed.

(** *** [detectVarint] and [detectPayload] on a longer buffer

    Either the token ends inside the bytes already there, and the scan
    finds the same end whatever is appended; or the scan stops at the
    end of the buffer, and resumes from there when bytes are appended. *)

Lemma detectVarint_extend s c :
  (readOffset s <= length (buffer s))%nat ->
  scan_extends (@detectVarint J) s c.
Proof.
  intros Hro. unfold scan_extends, detectVarint.
  destruct (detectVarint_loop (skipn (readOffset s) (buffer s))
              (readOffset s)) as [found ro'] eqn:Hscan.
  pose proof (detectVarint_loop_bounds _ _ _ _ Hscan) as (Hb & _ & Hnot).
  pose proof (length_skipn_offset s Hro) as Hlen.
  destruct found.
  - left. exists true, (set_readOffset ro' s).
    simpl. rewrite skipn_extend by assumption.
    rewrite (detectVarint_loop_found _ c _ _ Hscan).
    repeat split; try lia. 
  - right. specialize (Hnot eq_refl). subst ro'. rewrite Hlen.
    split; [reflexivity|].
    simpl. rewrite skipn_extend by assumption.
    rewrite (detectVarint_loop_resume _ c _ _ Hscan), Hlen.
    rewrite skipn_app, skipn_all, Nat.sub_diag. reflexivity.
Qed.

Lemma detectPayload_eq s :
  (readOffset s <= length (buffer s))%nat ->
  detectPayload s
  = let ro' := if Z.of_nat (readOffset s) <? currentPayloadSize s
               then Nat.min (length (buffer s))
                      (Z.to_nat (currentPayloadSize s))
               else readOffset s in
    (Z.of_nat ro' =? currentPayloadSize s, set_readOffset ro' s).
Proof.
  intros Hro. unfold detectPayload.
  rewrite detectPayload_loop_eq, length_skipn_offset by assumption.
  reflexivity.
Qed.

Lemma detectPayload_extend s c :
  (readOffset s <= length (buffer s))%nat ->
  scan_extends (@detectPayload J) s c.
Proof.
  intros Hro. unfold scan_extends.
  rewrite (detectPayload_eq s Hro).
  rewrite (detectPayload_eq (extend c s))
    by (simpl; rewrite length_app; lia).
  rewrite (detectPayload_eq (extend c (set_readOffset _ s)))
    by (simpl; rewrite length_app; lia).
  simpl. rewrite length_app.
  destruct (Z.ltb_spec (Z.of_nat (readOffset s)) (currentPayloadSize s))
    as [Hlt | Hge].
  - destruct (Z.le_gt_cases (currentPayloadSize s)
                (Z.of_nat (length (buffer s)))) as [Hin | Hout].
    + left. eexists _, _. split; [reflexivity|].
      replace (Nat.min (length (buffer s) + length c)
                 (Z.to_nat (currentPayloadSize s)))
        with (Nat.min (length (buffer s)) (Z.to_nat (currentPayloadSize s)))
        by lia.
      simpl. repeat split; try lia.
    + right.
      replace (Nat.min (length (buffer s)) (Z.to_nat (currentPayloadSize s)))
        with (length (buffer s)) by lia.
      destruct (Z.ltb_spec (Z.of_nat (length (buffer s)))
                  (currentPayloadSize s)); [| lia].
      replace (Z.of_nat (length (buffer s)) =? currentPayloadSize s)
        with false by (symmetry; apply Z.eqb_neq; lia).
      split; reflexivity.
  - left. eexists _, _. split; [reflexivity|].
    simpl. repeat split; lia.
Qed.

End Scanning.

(** ** The three blocks of [decode] *)

Section Blocks.

Context {J : Type}.
Implicit Types (s x y z : State J) (c : list byte).

Lemma detectVarint_spec s :
  (readOffset s <= length (buffer s))%nat ->
  exists found k,
    detectVarint s = (found, set_readOffset k s)
    /\ (readOffset s <= k <= length (buffer s))%nat
    /\ ((readOffset s < length (buffer s))%nat -> (readOffset s < k)%nat)
    /\ (found = false -> k = length (buffer s)).
Proof.
  intros Hro. unfold detectVarint.
  destruct (detectVarint_loop (skipn (readOffset s) (buffer s))
              (readOffset s)) as [found k] eqn:Hscan.
  pose proof (detectVarint_loop_bounds _ _ _ _ Hscan) as (Hb & Hne & Hnot).
  pose proof (length_skipn_offset s Hro) as Hlen.
  exists found, k. repeat split; try lia.
  - intros Hlt. apply Hne. intros Hnil.
    rewrite Hnil in Hlen. simpl in Hlen. lia.
  - intros Hf. specialize (Hnot Hf). lia.
Qed.

Lemma detectPayload_spec s :
  (readOffset s <= length (buffer s))%nat ->
  exists found k,
    detectPayload s = (found, set_readOffset k s)
    /\ (readOffset s <= k <= length (buffer s))%nat
    /\ (found = true -> Z.of_nat k = currentPayloadSize s)
    /\ (found = false -> Z.of_nat k <> currentPayloadSize s)
    /\ (Z.of_nat (readOffset s) < currentPayloadSize s ->
        ((readOffset s < length (buffer s))%nat -> (readOffset s < k)%nat)
        /\ Z.of_nat k <= currentPayloadSize s
        /\ (found = false -> k = length (buffer s)))
    /\ (currentPayloadSize s <= Z.of_nat (readOffset s) ->
        k = readOffset s).
Proof.
  intros Hro. rewrite (detectPayload_eq s Hro). simpl.
  eexists _, _. split; [reflexivity|].
  destruct (Z.ltb_spec (Z.of_nat (readOffset s)) (currentPayloadSize s));
    repeat split; intros;
    repeat match goal with
      | H : (_ =? _) = true |- _ => apply Z.eqb_eq in H
      | H : (_ =? _) = false |- _ => apply Z.eqb_neq in H
      end; lia.
Qed.

Lemma Token_eqb_eq (a b : Token) : Token_eqb a b = true <-> a = b.
Proof. destruct a, b; simpl; split; congruence. Qed.

Lemma Token_eqb_neq (a b : Token) : Token_eqb a b = false <-> a <> b.
Proof. destruct a, b; simpl; split; congruence. Qed.

Lemma consistent_between_blocks s : consistent s -> between_blocks s.
Proof.
  intros [H1 H2 H3]. split; try assumption.
  intros Ht Hw. destruct (H3 Ht Hw); [left | right]; lia.
Qed.

Lemma set_readOffset_same s : set_readOffset (readOffset s) s = s.
Proof. destruct s; reflexivity. Qed.

(** *** The invariant and the measure through the blocks *)

Lemma decode_TAG_between s :
  between_blocks s ->
  match decode_TAG s with
  | Thrown _ _ => True
  | Next x =>
      between_blocks x
      /\ (unscanned x <= unscanned s)%nat
      /\ (nextToken s = TAG ->
          (readOffset s < length (buffer s))%nat ->
          (unscanned x < unscanned s)%nat)
      /\ (nextToken s <> TAG -> x = s)
  end.
Proof.
  intros [Hoff Hpk Hps]. unfold decode_TAG.
  destruct (Token_eqb (nextToken s) TAG) eqn:Ht.
  - apply Token_eqb_eq in Ht.
    destruct (detectVarint_spec s Hoff) as (found & k & -> & Hk & Hadv & Hnf).
    destruct found.
    + unfold complete_TAG. simpl.
      destruct (tag_is_falsy (tag s)); [| destruct (tag_differs _ _)];
        simpl; try exact I;
        (split; [split; simpl; intros; try lia; auto |];
         unfold unscanned; simpl; rewrite length_skipn;
         repeat split; intros; try lia; congruence).
    + specialize (Hnf eq_refl). subst k.
      split; [split; simpl; intros; try lia; auto; congruence |].
      unfold unscanned; simpl. repeat split; intros; try lia; congruence.
  - apply Token_eqb_neq in Ht.
    split; [split; assumption |].
    repeat split; intros; try lia; congruence.
Qed.

Lemma decode_LENGTH_between s :
  between_blocks s ->
  match decode_LENGTH s with
  | Thrown _ _ => True
  | Next x =>
      between_blocks x
      /\ (unscanned x <= unscanned s)%nat
      /\ (nextToken s = LENGTH ->
          (readOffset s < length (buffer s))%nat ->
          (unscanned x < unscanned s)%nat)
      /\ (nextToken s <> LENGTH -> x = s)
  end.
Proof.
  intros [Hoff Hpk Hps]. unfold decode_LENGTH.
  destruct (Token_eqb (nextToken s) LENGTH) eqn:Ht.
  - apply Token_eqb_eq in Ht.
    destruct (detectVarint_spec s Hoff) as (found & k & -> & Hk & Hadv & Hnf).
    destruct found.
    + unfold complete_LENGTH. simpl.
      destruct (isPacked (repeatedField s)) eqn:Hp; simpl;
        (split; [split; simpl; intros; try lia; auto; try congruence |];
         unfold unscanned; simpl; rewrite length_skipn;
         repeat split; intros; try lia; congruence).
    + specialize (Hnf eq_refl). subst k.
      split; [split; simpl; intros; try lia; auto; congruence |].
      unfold unscanned; simpl. repeat split; intros; try lia; congruence.
  - apply Token_eqb_neq in Ht.
    split; [split; assumption |].
    repeat split; intros; try lia; congruence.
Qed.

Lemma decode_PAYLOAD_consistent s :
  between_blocks s ->
  match decode_PAYLOAD s with
  | Thrown _ _ => True
  | Next z =>
      consistent z
      /\ (unscanned z <= unscanned s)%nat
      /\ (nextToken s = PAYLOAD -> consistent s ->
          (readOffset s < length (buffer s))%nat ->
          z = s \/ (unscanned z < unscanned s)%nat)
      /\ (nextToken s <> PAYLOAD -> z = s)
  end.
Proof.
  intros [Hoff Hpk Hps]. unfold decode_PAYLOAD.
  destruct (Token_eqb (nextToken s) PAYLOAD) eqn:Ht.
  - apply Token_eqb_eq in Ht.
    destruct (Z.eqb_spec (wireType (repeatedField s)) WIRE_TYPES.VARINT)
      as [Hw | Hw].
    + destruct (detectVarint_spec s Hoff)
        as (found & k & -> & Hk & Hadv & Hnf).
      destruct found.
      * unfold complete_PAYLOAD, decodePayload. simpl.
        destruct (decodeValue (repeatedField s) _); [| exact I].
        destruct (isPacked (repeatedField s)) eqn:Hp; simpl;
          (split; [split; simpl; intros; try lia; try congruence |];
           unfold unscanned; simpl; rewrite length_skipn;
           repeat split; intros; try lia; try congruence).
      * specialize (Hnf eq_refl). subst k.
        split; [split; simpl; intros; try lia; auto; congruence |].
        unfold unscanned; simpl. repeat split; intros; try lia; congruence.
    + destruct (detectPayload_spec s Hoff)
        as (found & k & -> & Hk & Hyes & Hno & Hlt & Hge).
      specialize (Hps Ht Hw).
      destruct found.
      * specialize (Hyes eq_refl).
        unfold complete_PAYLOAD, decodePayload. simpl.
        destruct (decodeValue (repeatedField s) _); [| exact I].
        destruct (isPacked (repeatedField s)) eqn:Hp; simpl.
        -- specialize (Hpk eq_refl Hw).
           split; [split; simpl; intros; try lia; auto |].
           unfold unscanned; simpl; rewrite length_skipn.
           repeat split; intros; try lia; try congruence.
           right. match goal with H : consistent s |- _ =>
             destruct (payload_short H Ht Hw) end; lia.
        -- split; [split; simpl; intros; try lia; congruence |].
           unfold unscanned; simpl; rewrite length_skipn.
           repeat split; intros; try lia; try congruence.
           right. match goal with H : consistent s |- _ =>
             destruct (payload_short H Ht Hw) end; lia.
      * specialize (Hno eq_refl).
        split; [split; simpl; intros; try lia; auto |].
        unfold unscanned; simpl.
        repeat split; intros; try lia; try congruence.
        match goal with H : consistent s |- _ =>
          destruct (payload_short H Ht Hw) as [Hshort | Hneg] end.
        -- right. destruct (Hlt Hshort) as (_ & _ & Hend).
           rewrite (Hend eq_refl). lia.
        -- left. rewrite Hge by lia. apply set_readOffset_same.
  - apply Token_eqb_neq in Ht.
    split; [split; try assumption; intros; congruence |].
    repeat split; intros; try lia; congruence.
Qed.

(** One call of [decode] on a consistent state with unscanned bytes
    throws, or leaves a consistent state and either scans at least one
    more byte or changes nothing at all. *)
Lemma decode_progress s :
  consistent s ->
  (readOffset s < length (buffer s))%nat ->
  match decode s with
  | Thrown _ _ => True
  | Next z => consistent z /\ (z = s \/ (unscanned z < unscanned s)%nat)
  end.
Proof.
  intros Hs Hlt. unfold decode.
  pose proof (decode_TAG_between s (consistent_between_blocks s Hs)) as HT.
  destruct (decode_TAG s) as [x |]; simpl; [| exact I].
  destruct HT as (Hx & HxU & HxT & HxN).
  pose proof (decode_LENGTH_between x Hx) as HL.
  destruct (decode_LENGTH x) as [y |]; simpl; [| exact I].
  destruct HL as (Hy & HyU & HyT & HyN).
  pose proof (decode_PAYLOAD_consistent y Hy) as HP.
  destruct (decode_PAYLOAD y) as [z |]; simpl; [| exact I].
  destruct HP as (Hz & HzU & HzT & HzN).
  split; [exact Hz |].
  destruct (nextToken s) eqn:Ht.
  - right. specialize (HxT eq_refl Hlt). lia.
  - assert (x = s) by (apply HxN; congruence). subst x.
    right. specialize (HyT Ht Hlt). lia.
  - assert (x = s) by (apply HxN; congruence). subst x.
    assert (y = s) by (apply HyN; congruence). subst y.
    apply HzT; assumption.
Qed.

Lemma extend_consistent s c : consistent s -> consistent (extend c s).
Proof.
  intros [H1 H2 H3]. split; simpl; try assumption.
  rewrite length_app. lia.
Qed.

Lemma unscanned_extend s c :
  (readOffset s <= length (buffer s))%nat ->
  unscanned (extend c s) = (unscanned s + length c)%nat.
Proof. intros H. unfold unscanned. simpl. rewrite length_app. lia. Qed.

(** *** The loop of [_transform] *)

(** A call of [decode] that changes nothing is repeated for ever. *)
Lemma decode_loop_spin s :
  (readOffset s < length (buffer s))%nat ->
  decode s = Next s ->
  forall fuel, decode_loop fuel s = OutOfFuel (pushed s).
Proof.
  intros Hlt Hspin fuel.
  induction fuel as [| fuel IH]; simpl;
    (destruct (Nat.ltb_spec (readOffset s) (length (buffer s))); [| lia]).
  - reflexivity.
  - rewrite Hspin. exact IH.
Qed.

(** Fuel beyond the number of unscanned bytes changes nothing: with
    that much, the loop ends, or it never does. *)
Lemma decode_loop_fuel s :
  forall fuel1 fuel2,
    consistent s ->
    (unscanned s <= fuel1)%nat -> (unscanned s <= fuel2)%nat ->
    decode_loop fuel1 s = decode_loop fuel2 s.
Proof.
  intros fuel1. revert s.
  induction fuel1 as [| fuel1 IH]; intros s fuel2 Hs H1 H2.
  - unfold unscanned in *. destruct fuel2; simpl;
      destruct (Nat.ltb_spec (readOffset s) (length (buffer s)));
      try lia; reflexivity.
  - simpl.
    destruct (Nat.ltb_spec (readOffset s) (length (buffer s))) as [Hlt | Hge].
    + destruct fuel2 as [| fuel2]; [unfold unscanned in *; lia |].
      simpl.
      destruct (Nat.ltb_spec (readOffset s) (length (buffer s))); [| lia].
      pose proof (decode_progress s Hs Hlt) as Hp.
      destruct (decode s) as [z | e z] eqn:Hd; [| reflexivity].
      destruct Hp as (Hz & [-> | Hless]).
      * rewrite !(decode_loop_spin s Hlt Hd). reflexivity.
      * apply IH; [assumption | lia | lia].
    + destruct fuel2; simpl;
        destruct (Nat.ltb_spec (readOffset s) (length (buffer s)));
        try lia; reflexivity.
Qed.

(** When the loop ends without error, the state is consistent and at
    rest. *)
Lemma decode_loop_done fuel :
  forall s s',
    consistent s ->
    decode_loop fuel s = Done s' ->
    consistent s' /\ resting s'.
Proof.
  induction fuel as [| fuel IH]; intros s s' Hs H; simpl in H;
    destruct (Nat.ltb_spec (readOffset s) (length (buffer s))) as [Hlt | Hge];
    try discriminate.
  - injection H as <-. split; [assumption |].
    unfold resting. pose proof (offset_in_buffer Hs). lia.
  - pose proof (decode_progress s Hs Hlt) as Hp.
    destruct (decode s) as [z | e z]; [| discriminate].
    apply (IH z s'); [apply Hp | exact H].
  - injection H as <-. split; [assumption |].
    unfold resting. pose proof (offset_in_buffer Hs). lia.
Qed.

End Blocks.

(** ** Appending bytes to the buffer *)

Section Lockstep.

Context {J : Type}.
Implicit Types (s x y z : State J) (c : list byte).

Lemma extend_nil s : extend [] s = s.
Proof. unfold extend. rewrite app_nil_r. destruct s; reflexivity. Qed.

Lemma extend_extend s c1 c2 :
  extend c2 (extend c1 s) = extend (c1 ++ c2) s.
Proof. unfold extend. simpl. rewrite app_assoc. reflexivity. Qed.

Lemma complete_TAG_extend s c :
  (readOffset s <= length (buffer s))%nat ->
  complete_TAG (extend c s) = map_step (extend c) (complete_TAG s).
Proof.
  intros H. unfold complete_TAG, extend. simpl.
  rewrite firstn_extend by assumption.
  destruct (tag_is_falsy (tag s)); [| destruct (tag_differs _ (tag s))];
    simpl; rewrite ?skipn_extend' by assumption; reflexivity.
Qed.

Lemma complete_LENGTH_extend s c :
  (readOffset s <= length (buffer s))%nat ->
  complete_LENGTH (extend c s) = map_step (extend c) (complete_LENGTH s).
Proof.
  intros H. unfold complete_LENGTH, extend. simpl.
  rewrite firstn_extend by assumption.
  destruct (isPacked (repeatedField s)); simpl;
    rewrite skipn_extend' by assumption; reflexivity.
Qed.

Lemma complete_PAYLOAD_extend s c :
  (readOffset s <= length (buffer s))%nat ->
  complete_PAYLOAD (extend c s) = map_step (extend c) (complete_PAYLOAD s).
Proof.
  intros H. unfold complete_PAYLOAD, decodePayload, extend. simpl.
  rewrite firstn_extend by assumption.
  destruct (decodeValue (repeatedField s) _); [| reflexivity].
  simpl. rewrite skipn_extend' by assumption.
  destruct (isPacked (repeatedField s)); reflexivity.
Qed.

Lemma decode_TAG_extends s c :
  (readOffset s <= length (buffer s))%nat ->
  block_extends (@decode_TAG J) TAG s c.
Proof.
  intros Hro. unfold block_extends, decode_TAG. simpl.
  destruct (Token_eqb (nextToken s) TAG) eqn:Ht; [| left; reflexivity].
  apply Token_eqb_eq in Ht.
  destruct (detectVarint_extend s c Hro)
    as [(found & s1 & Hd & Hde & Hro1 & _) | (Hd & Hde)].
  - left. rewrite Hd, Hde.
    destruct found; [apply complete_TAG_extend, Hro1 | reflexivity].
  - right. rewrite Hd, Hde. repeat split; assumption.
Qed.

Lemma decode_LENGTH_extends s c :
  (readOffset s <= length (buffer s))%nat ->
  block_extends (@decode_LENGTH J) LENGTH s c.
Proof.
  intros Hro. unfold block_extends, decode_LENGTH. simpl.
  destruct (Token_eqb (nextToken s) LENGTH) eqn:Ht; [| left; reflexivity].
  apply Token_eqb_eq in Ht.
  destruct (detectVarint_extend s c Hro)
    as [(found & s1 & Hd & Hde & Hro1 & _) | (Hd & Hde)].
  - left. rewrite Hd, Hde.
    destruct found; [apply complete_LENGTH_extend, Hro1 | reflexivity].
  - right. rewrite Hd, Hde. repeat split; assumption.
Qed.

Lemma decode_PAYLOAD_extends s c :
  (readOffset s <= length (buffer s))%nat ->
  block_extends (@decode_PAYLOAD J) PAYLOAD s c.
Proof.
  intros Hro. unfold block_extends, decode_PAYLOAD. simpl.
  destruct (Token_eqb (nextToken s) PAYLOAD) eqn:Ht; [| left; reflexivity].
  apply Token_eqb_eq in Ht.
  destruct (wireType (repeatedField s) =? WIRE_TYPES.VARINT).
  - destruct (detectVarint_extend s c Hro)
      as [(found & s1 & Hd & Hde & Hro1 & _) | (Hd & Hde)].
    + left. rewrite Hd, Hde.
      destruct found; [apply complete_PAYLOAD_extend, Hro1 | reflexivity].
    + right. rewrite Hd, Hde. repeat split; assumption.
  - destruct (detectPayload_extend s c Hro)
      as [(found & s1 & Hd & Hde & Hro1 & _) | (Hd & Hde)].
    + left. rewrite Hd, Hde.
      destruct found; [apply complete_PAYLOAD_extend, Hro1 | reflexivity].
    + right. rewrite Hd, Hde. repeat split; assumption.
Qed.

Lemma decode_at_LENGTH s :
  nextToken s = LENGTH ->
  decode s = andThen (decode_LENGTH s) (@decode_PAYLOAD J).
Proof.
  intros Ht. unfold decode, decode_TAG. rewrite Ht. reflexivity.
Qed.

Lemma decode_at_PAYLOAD s :
  nextToken s = PAYLOAD -> decode s = decode_PAYLOAD s.
Proof.
  intros Ht. unfold decode, decode_TAG. rewrite Ht. simpl.
  unfold decode_LENGTH. rewrite Ht. reflexivity.
Qed.

(** One call of [decode] on a longer buffer: in lock step with the call
    on the shorter one, or the shorter one stopped at the end of its
    buffer and the longer one does what a call resumed from there
    does. *)
Lemma decode_extends s c :
  consistent s ->
  decode (extend c s) = map_step (extend c) (decode s)
  \/ exists s',
      decode s = Next s' /\ resting s'
      /\ decode (extend c s) = decode (extend c s').
Proof.
  intros Hs. unfold decode at 1 2 3 4.
  pose proof (consistent_between_blocks s Hs) as Hbs.
  pose proof (decode_TAG_between s Hbs) as HT.
  destruct (decode_TAG_extends s c (bb_offset_in_buffer Hbs))
    as [-> | (Ht & Hstop & Hresume)].
  - destruct (decode_TAG s) as [x | e x]; cbn [andThen map_step];
      [| left; reflexivity].
    destruct HT as (Hx & _).
    pose proof (decode_LENGTH_between x Hx) as HL.
    destruct (decode_LENGTH_extends x c (bb_offset_in_buffer Hx))
      as [-> | (Ht & Hstop & Hresume)].
    + destruct (decode_LENGTH x) as [y | e y]; cbn [andThen map_step];
        [| left; reflexivity].
      destruct HL as (Hy & _).
      destruct (decode_PAYLOAD_extends y c (bb_offset_in_buffer Hy))
        as [-> | (Ht & Hstop & Hresume)].
      * left. reflexivity.
      * right. exists (set_readOffset (length (buffer y)) y).
        rewrite Hstop, Hresume. repeat split.
        symmetry. apply decode_at_PAYLOAD. exact Ht.
    + right. exists (set_readOffset (length (buffer x)) x).
      rewrite Hstop, Hresume. cbn [andThen].
      split.
      { unfold decode_PAYLOAD. cbn [nextToken set_readOffset].
        rewrite Ht. reflexivity. }
      split; [reflexivity |].
      symmetry. apply decode_at_LENGTH. exact Ht.
  - right. exists (set_readOffset (length (buffer s)) s).
    rewrite Hstop, Hresume. cbn [andThen].
    split.
    { unfold decode_LENGTH, decode_PAYLOAD. cbn [nextToken set_readOffset].
      rewrite Ht. cbn. rewrite Ht. reflexivity. }
    split; reflexivity.
Qed.

Lemma decode_loop_resting fuel s :
  (length (buffer s) <= readOffset s)%nat -> decode_loop fuel s = Done s.
Proof.
  intros H. destruct fuel; simpl;
    destruct (Nat.ltb_spec (readOffset s) (length (buffer s)));
    try lia; reflexivity.
Qed.

Lemma decode_loop_step fuel s :
  (readOffset s < length (buffer s))%nat ->
  decode_loop (S fuel) s
  = match decode s with
    | Next z => decode_loop fuel z
    | Thrown e z => Failed e (pushed z)
    end.
Proof.
  intros H. simpl.
  destruct (Nat.ltb_spec (readOffset s) (length (buffer s))); [| lia].
  reflexivity.
Qed.

(** The loop on a buffer with [c] appended does what the loop on the
    buffer does, and then goes on with [c]: a chunk boundary inside the
    buffer is not observable. *)
Lemma decode_loop_extend c :
  forall n s fuel fuel',
    (unscanned s <= n)%nat ->
    consistent s ->
    (unscanned s <= fuel)%nat ->
    (unscanned s + length c <= fuel')%nat ->
    decode_loop fuel' (extend c s)
    = match decode_loop fuel s with
      | Done s' => decode_loop fuel' (extend c s')
      | Failed e emitted => Failed e emitted
      | OutOfFuel emitted => OutOfFuel emitted
      end.
Proof.
  induction n as [| n IH]; intros s fuel fuel' Hn Hs Hf Hf'.
  - rewrite (decode_loop_resting fuel s) by (unfold unscanned in Hn; lia).
    reflexivity.
  - destruct (Nat.le_gt_cases (length (buffer s)) (readOffset s))
      as [Hrest | Hlt].
    { rewrite (decode_loop_resting fuel s) by assumption. reflexivity. }
    pose proof (offset_in_buffer Hs) as Hoff.
    assert (HU : unscanned s = (length (buffer s) - readOffset s)%nat)
      by reflexivity.
    destruct fuel as [| fuel]; [lia |].
    destruct fuel' as [| fuel']; [lia |].
    rewrite (decode_loop_step fuel s Hlt).
    pose proof (decode_progress s Hs Hlt) as Hp.
    destruct (decode_extends s c Hs) as [Hlock | (s' & Hd & Hrest & Hres)].
    + rewrite decode_loop_step by (simpl; rewrite length_app; lia).
      rewrite Hlock.
      destruct (decode s) as [z | e z] eqn:Hd; cbn [map_step];
        [| reflexivity].
      destruct Hp as (Hz & [-> | Hless]).
      * rewrite (decode_loop_spin s Hlt Hd).
        change (pushed s) with (pushed (extend c s)).
        apply decode_loop_spin.
        -- simpl. rewrite length_app. lia.
        -- exact Hlock.
      * rewrite (IH z fuel fuel') by (assumption || lia).
        destruct (decode_loop fuel z) as [s' | |] eqn:Hloop;
          try reflexivity.
        destruct (decode_loop_done fuel z s' Hz Hloop) as (Hs' & Hr').
        apply decode_loop_fuel.
        -- apply extend_consistent, Hs'.
        -- rewrite unscanned_extend by (apply offset_in_buffer, Hs').
           unfold unscanned. rewrite Hr'. lia.
        -- rewrite unscanned_extend by (apply offset_in_buffer, Hs').
           unfold unscanned. rewrite Hr'. lia.
    + rewrite Hd. rewrite (decode_loop_resting fuel s')
        by (rewrite Hrest; lia).
      destruct c as [| b c].
      * rewrite !extend_nil.
        rewrite (decode_loop_step fuel' s Hlt), Hd.
        rewrite !decode_loop_resting by (rewrite Hrest; lia).
        reflexivity.
      * unfold resting in Hrest.
        rewrite (decode_loop_step fuel' (extend (b :: c) s))
          by (simpl; rewrite length_app; simpl; lia).
        rewrite (decode_loop_step fuel' (extend (b :: c) s'))
          by (simpl; rewrite length_app; simpl; lia).
        rewrite Hres. reflexivity.
Qed.

Lemma _transform_done fuel s chunk s' :
  consistent s ->
  _transform fuel s chunk = Done s' ->
  consistent s' /\ resting s'.
Proof.
  intros Hs H. unfold _transform in H.
  apply (decode_loop_done fuel (extend chunk s) s');
    [apply extend_consistent, Hs | exact H].
Qed.

(** Writing the chunks one at a time is writing their concatenation at
    once. *)
Lemma write_all_concat :
  forall chunks s fuel,
    consistent s -> resting s ->
    (length (concat chunks) <= fuel)%nat ->
    write_all fuel s chunks = _transform fuel s (concat chunks).
Proof.
  induction chunks as [| c chunks IH]; intros s fuel Hs Hr Hfuel.
  - simpl. unfold _transform. fold (extend [] s). rewrite extend_nil.
    rewrite decode_loop_resting by (rewrite Hr; lia). reflexivity.
  - simpl in *. rewrite length_app in Hfuel.
    unfold _transform at 2. fold (extend (c ++ concat chunks) s).
    rewrite <- extend_extend.
    assert (HU : unscanned (extend c s) = length c).
    { rewrite unscanned_extend by (apply offset_in_buffer, Hs).
      unfold unscanned. rewrite Hr. lia. }
    rewrite (decode_loop_extend (concat chunks) (unscanned (extend c s))
               (extend c s) fuel fuel)
      by (try apply extend_consistent; try assumption; lia).
    unfold _transform at 1. fold (extend c s).
    destruct (decode_loop fuel (extend c s)) as [s' | |] eqn:Hloop;
      try reflexivity.
    destruct (decode_loop_done fuel (extend c s) s'
                (extend_consistent s c Hs) Hloop) as (Hs' & Hr').
    rewrite IH by (assumption || lia). reflexivity.
Qed.

End Lockstep.

(** ** A fresh stream *)

Section Fresh.

Context {J : Type} (codec : Codec J).

Lemma getRepeatedFieldDetails_packed root messageName field :
  getRepeatedFieldDetails codec root messageName = Ok field ->
  isPacked field = true ->
  wireType field = WIRE_TYPES.VARINT
  \/ wireType field = WIRE_TYPES.I64
  \/ wireType field = WIRE_TYPES.I32.
Proof.
  unfold getRepeatedFieldDetails.
  destruct (lookupType root messageName) as [T |]; [| discriminate].
  destruct (nth_error (fieldsArray T) 0) as [f |]; [| discriminate].
  destruct (getResolvedType (field_type f) root) as [resolved |];
    [| discriminate].
  simpl.
  destruct (getDecoder codec resolved root) as [d |]; [| discriminate].
  simpl. intros H. injection H as <-. simpl.
  intros Hp. apply andb_prop in Hp. destruct Hp as (Hn & _).
  rewrite !orb_true_iff in Hn.
  destruct Hn as [Hn | [Hn | [Hn | Hn]]]; try discriminate;
    apply Z.eqb_eq in Hn; auto.
Qed.

(** The state the constructor leaves is consistent and at rest. *)
Lemma new_RepeatedFieldStream_consistent root messageName s0 :
  new_RepeatedFieldStream codec root messageName = Ok s0 ->
  consistent s0 /\ resting s0.
Proof.
  unfold new_RepeatedFieldStream.
  destruct (validateMessage root messageName); [| discriminate].
  simpl.
  destruct (getRepeatedFieldDetails codec root messageName)
    as [field |] eqn:Hfield; [| discriminate].
  simpl. intros H. injection H as <-.
  split; [split; simpl | reflexivity].
  - lia.
  - intros Hp Hw.
    destruct (getRepeatedFieldDetails_packed _ _ _ Hfield Hp)
      as [H | [H | H]]; [contradiction | |]; rewrite H; reflexivity.
  - discriminate.
Qed.

(** C2. For every byte sequence and every partition of it into an
    ordered list of chunks (1-byte chunks included), a fresh stream to
    which the chunks are written one at a time ends as the stream to
    which the whole sequence is written as a single chunk: the same
    elements emitted in the same order and the same error, if any.
    The fuel only has to cover the length of the input; an outcome
    [OutOfFuel] then stands for the loop of [_transform] not
    terminating (see [decode_loop_fuel]), on one side as on the
    other. *)
Theorem chunk_boundary_independence root messageName s0
  (bytes : list byte) (chunks : list (list byte)) (fuel : nat) :
  new_RepeatedFieldStream codec root messageName = Ok s0 ->
  concat chunks = bytes ->
  (length bytes <= fuel)%nat ->
  run_stream codec fuel s0 chunks = run_stream codec fuel s0 [bytes].
Proof.
  intros Hnew <- Hfuel.
  destruct (new_RepeatedFieldStream_consistent _ _ _ Hnew) as (Hs & Hr).
  unfold run_stream.
  rewrite (write_all_concat chunks s0 fuel Hs Hr Hfuel).
  rewrite (write_all_concat [concat chunks] s0 fuel Hs Hr)
    by (simpl; rewrite app_nil_r; exact Hfuel).
  simpl. rewrite app_nil_r. reflexivity.
Qed.

End Fresh.

(** The packed encoding of [1, -2, 3], byte by byte and in one piece. *)
Lemma chunk_boundary_independence_witness :
  run_stream Reference.codec 14 (fresh Reference.int32_field)
    [[x0a]; [x0c]; [x01]; [xfe]; [xff]; [xff]; [xff]; [xff]; [xff];
     [xff]; [xff]; [xff]; [x01]; [x03]]
  = run_stream Reference.codec 14 (fresh Reference.int32_field)
      [[x0a; x0c; x01; xfe; xff; xff; xff; xff; xff; xff; xff; xff;
        x01; x03]].
Proof.
  apply (chunk_boundary_independence Reference.codec Reference.root
           "PackedInt32" (fresh Reference.int32_field)).
  - reflexivity.
  - reflexivity.
  - simpl. lia.
Defined.

(** ** Tokens that are not complete yet *)

Section Tokens.

Context {J : Type} (codec : Codec J).
Implicit Types (s : State J).

Lemma detectVarint_all_continue s :
  (readOffset s <= length (buffer s))%nat ->
  Forall (fun b => continuation b = true)
    (skipn (readOffset s) (buffer s)) ->
  detectVarint s = (false, set_readOffset (length (buffer s)) s).
Proof.
  intros Hro Hall. unfold detectVarint.
  rewrite detectVarint_loop_all_continue by assumption.
  rewrite length_skipn_offset by assumption. reflexivity.
Qed.

(** C6. In a state whose token is scanned as a varint (TAG, LENGTH, or
    the PAYLOAD of a VARINT field) and whose unscanned bytes all carry
    the continuation flag, one call of [decode] returns without
    throwing and changes [readOffset] only, which it moves to the end
    of the buffer: the buffer, the tag, the token, the payload size and
    what was pushed are as before. *)
Theorem incomplete_varint_awaits_more s :
  (readOffset s <= length (buffer s))%nat ->
  varint_scanned s ->
  Forall (fun b => continuation b = true)
    (skipn (readOffset s) (buffer s)) ->
  decode s = Next (set_readOffset (length (buffer s)) s).
Proof.
  intros Hro Hscan Hall.
  pose proof (detectVarint_all_continue s Hro Hall) as Hd.
  unfold decode, decode_TAG, decode_LENGTH, decode_PAYLOAD.
  destruct Hscan as [Ht | [Ht | (Ht & Hw)]]; rewrite Ht; cbn.
  - rewrite Hd. cbn. rewrite Ht. cbn. rewrite Ht. reflexivity.
  - rewrite Ht. cbn. rewrite Hd. cbn. rewrite Ht. reflexivity.
  - rewrite Ht. cbn. rewrite Ht. cbn. rewrite Hw. cbn. rewrite Hd.
    reflexivity.
Qed.

Lemma detectVarint_shape s found s1 :
  detectVarint s = (found, s1) -> s1 = set_readOffset (readOffset s1) s.
Proof.
  unfold detectVarint.
  destruct (detectVarint_loop _ _) as [f k].
  intros H. injection H as _ <-. reflexivity.
Qed.

(** C10. For a LENGTH_DELIMITED field, when the LENGTH token completes
    and decodes to 0, the same call of [decode] completes the payload:
    it pushes the element decoded from the empty span, consumes the
    bytes of the length and no more, and is back at TAG.  The decoders
    built for [bytes] and [string] give the empty buffer, and the empty
    string whenever [toString] of the empty buffer is the empty
    string. *)
Theorem zero_length_completes_payload s s1 entry :
  wireType (repeatedField s) = WIRE_TYPES.LEN ->
  isPacked (repeatedField s) = false ->
  nextToken s = LENGTH ->
  detectVarint s = (true, s1) ->
  decodeVarint (firstn (readOffset s1) (buffer s)) = 0 ->
  decodeValue (repeatedField s) [] = inl entry ->
  decode s
  = Next {| repeatedField := repeatedField s;
            currentPayloadSize := 0;
            buffer := skipn (readOffset s1) (buffer s);
            tag := tag s;
            readOffset := 0%nat;
            nextToken := TAG;
            pushed := pushed s ++ [entry] |}
  /\ scalarDecoder codec DATA_TYPES.BYTES [] = inl (Buf [])
  /\ (toString_utf8 codec [] = EmptyString ->
      scalarDecoder codec DATA_TYPES.STRING [] = inl (Str EmptyString)).
Proof.
  intros Hw Hp Ht Hd Hzero Hentry.
  split; [| split; [reflexivity | intros Hs; cbn; rewrite Hs; reflexivity]].
  pose proof (detectVarint_shape s true s1 Hd) as Hs1.
  rewrite decode_at_LENGTH by assumption.
  unfold decode_LENGTH. rewrite Ht. cbn [Token_eqb]. rewrite Hd.
  rewrite Hs1. unfold complete_LENGTH.
  cbn [repeatedField set_readOffset isPacked readOffset buffer].
  rewrite Hp. cbn [negb]. rewrite Hzero. cbn [andThen].
  unfold decode_PAYLOAD. cbn. rewrite Hw. cbn.
  unfold detectPayload. cbn.
  rewrite detectPayload_loop_eq. cbn.
  unfold complete_PAYLOAD, decodePayload. cbn.
  rewrite Hentry. cbn. rewrite Hp. reflexivity.
Qed.

End Tokens.

(** ** A packed field *)

Section Packed.

Context {J : Type}.
Implicit Types (s : State J).

Lemma payloads_only_refl s :
  nextToken s = PAYLOAD -> payloads_only [] s s.
Proof.
  intros Ht. unfold payloads_only, framed_as.
  repeat split; try assumption.
  exists [], []. simpl. rewrite !app_nil_r.
  repeat split. constructor.
Qed.

Lemma payloads_only_trans c1 c2 s1 s2 s3 :
  payloads_only c1 s1 s2 ->
  payloads_only c2 s2 s3 ->
  payloads_only (c1 ++ c2) s1 s3.
Proof.
  intros (Ht & Hf & Hg & spans & values & Hfr & Hpush & Hbytes)
         (Ht' & Hf' & Hg' & spans' & values' & Hfr' & Hpush' & Hbytes').
  unfold payloads_only, framed_as in *.
  repeat split; try congruence.
  exists (spans ++ spans'), (values ++ values'). repeat split.
  - apply Forall2_app; [assumption |]. rewrite <- Hf. assumption.
  - rewrite Hpush', Hpush. symmetry. apply app_assoc.
  - rewrite concat_app, <- app_assoc, Hbytes', app_assoc, Hbytes.
    symmetry. apply app_assoc.
Qed.

Lemma payloads_only_step c s s' s'' :
  payloads_only c s s' ->
  payloads_only [] s' s'' ->
  payloads_only c s s''.
Proof.
  intros H1 H2. rewrite <- (app_nil_r c).
  apply (payloads_only_trans c [] s s' s''); assumption.
Qed.

Lemma payloads_only_extend c s s' :
  payloads_only [] (extend c s) s' -> payloads_only c s s'.
Proof.
  intros (Ht & Hf & Hg & spans & values & Hfr & Hpush & Hbytes).
  simpl in *. rewrite app_nil_r in Hbytes.
  repeat split; try assumption.
  exists spans, values. repeat split; assumption.
Qed.

(** One call of [decode] on a packed field in PAYLOAD frames at most
    one more payload and stays in PAYLOAD; it can only throw the error
    of the value codec. *)
Lemma decode_packed_payload s :
  isPacked (repeatedField s) = true ->
  nextToken s = PAYLOAD ->
  match decode s with
  | Next s' => payloads_only [] s s'
  | Thrown e _ =>
      exists cause, e = RepeatedFieldStreamError (PAYLOAD_ERROR cause)
  end.
Proof.
  intros Hp Ht. rewrite decode_at_PAYLOAD by assumption.
  unfold decode_PAYLOAD. rewrite Ht. cbn [Token_eqb].
  assert (Hdetect :
    exists found k,
      (if wireType (repeatedField s) =? WIRE_TYPES.VARINT
       then detectVarint s else detectPayload s)
      = (found, set_readOffset k s)).
  { destruct (wireType (repeatedField s) =? WIRE_TYPES.VARINT).
    - unfold detectVarint. destruct (detectVarint_loop _ _) as [f k].
      exists f, k. reflexivity.
    - unfold detectPayload. eexists _, _. reflexivity. }
  destruct Hdetect as (found & k & ->).
  destruct found.
  - unfold complete_PAYLOAD, decodePayload. cbn.
    destruct (decodeValue (repeatedField s) (firstn k (buffer s)))
      as [entry | cause] eqn:Hentry.
    + cbn. rewrite Hp. cbn.
      repeat split; try assumption.
      exists [firstn k (buffer s)], [entry]. repeat split.
      * constructor; [exact Hentry | constructor].
      * cbn. rewrite !app_nil_r. apply firstn_skipn.
    + exists cause. reflexivity.
  - unfold payloads_only, framed_as.
    repeat split; try assumption.
    exists [], []. simpl. rewrite !app_nil_r.
    repeat split. constructor.
Qed.

Lemma decode_loop_packed_payload fuel :
  forall s,
    isPacked (repeatedField s) = true ->
    nextToken s = PAYLOAD ->
    match decode_loop fuel s with
    | Done s' => payloads_only [] s s'
    | Failed e _ =>
        exists cause, e = RepeatedFieldStreamError (PAYLOAD_ERROR cause)
    | OutOfFuel _ => True
    end.
Proof.
  induction fuel as [| fuel IH]; intros s Hp Ht; simpl;
    destruct (readOffset s <? length (buffer s))%nat;
    try exact I; try (apply payloads_only_refl; assumption).
  pose proof (decode_packed_payload s Hp Ht) as Hstep.
  destruct (decode s) as [s' | e s']; [| exact Hstep].
  pose proof Hstep as (Ht' & Hf' & _).
  specialize (IH s' ltac:(rewrite Hf'; exact Hp) Ht').
  destruct (decode_loop fuel s') as [s'' | |]; try assumption.
  apply (payloads_only_step [] s s' s''); assumption.
Qed.

(** Once a packed field is in PAYLOAD, whatever its state: no call of
    [decode] leaves PAYLOAD or throws a tag error, and whatever chunks
    are written, every byte that leaves the buffer was handed to the
    value decoder as part of a payload. *)
Lemma packed_payloads_only s :
  isPacked (repeatedField s) = true ->
  nextToken s = PAYLOAD ->
  (forall s', decode s = Next s' -> nextToken s' = PAYLOAD)
  /\ (forall expected actual s',
        decode s
        <> Thrown (RepeatedFieldStreamError (TAG_ERROR expected actual)) s')
  /\ forall fuel chunks,
      match write_all fuel s chunks with
      | Done s' => payloads_only (concat chunks) s s'
      | Failed e _ =>
          exists cause, e = RepeatedFieldStreamError (PAYLOAD_ERROR cause)
      | OutOfFuel _ => True
      end.
Proof.
  intros Hp Ht.
  pose proof (decode_packed_payload s Hp Ht) as Hstep.
  split; [| split].
  - intros s' Hd. rewrite Hd in Hstep. apply Hstep.
  - intros expected actual s' Hd. rewrite Hd in Hstep.
    destruct Hstep as (cause & Hc). discriminate.
  - clear Hstep. intros fuel chunks. revert s Hp Ht.
    induction chunks as [| c chunks IH]; intros s Hp Ht; simpl.
    + apply payloads_only_refl. assumption.
    + unfold _transform. fold (extend c s).
      pose proof (decode_loop_packed_payload fuel (extend c s) Hp Ht)
        as Hloop.
      destruct (decode_loop fuel (extend c s)) as [s' | |];
        try assumption.
      pose proof Hloop as (Ht' & Hf' & _).
      specialize (IH s' ltac:(rewrite Hf'; exact Hp) Ht').
      destruct (write_all fuel s' chunks) as [s'' | |]; try assumption.
      apply (payloads_only_trans c (concat chunks) s s' s'');
        [apply payloads_only_extend |]; assumption.
Qed.

End Packed.

(** ** The end of the input *)

Section EndOfInput.

Context {J : Type} (codec : Codec J).
Implicit Types (s : State J).

Lemma decode_loop_exit fuel :
  forall s s',
    decode_loop fuel s = Done s' ->
    (length (buffer s') <= readOffset s')%nat.
Proof.
  induction fuel as [| fuel IH]; intros s s' H; simpl in H;
    destruct (Nat.ltb_spec (readOffset s) (length (buffer s)));
    try discriminate; try (injection H as <-; assumption).
  destruct (decode s) as [z | e z]; [| discriminate].
  apply (IH z s' H).
Qed.

(** C8. Whatever the last chunk left in the buffer -- a truncated
    varint, a payload short of its size -- the end of the input emits
    nothing and raises nothing: [_flush] finds nothing it could scan,
    after [_final] as well as without it, and [_final] has dropped the
    leftover bytes. *)
Theorem end_of_input_discards_partial_token fuel s chunk s' :
  _transform fuel s chunk = Done s' ->
  (forall fuel', _flush fuel' s' = Done s')
  /\ (forall fuel', end_of_input codec fuel' s' = Done (cleanup codec s'))
  /\ pushed (cleanup codec s') = pushed s'
  /\ buffer (cleanup codec s') = [].
Proof.
  intros H. unfold _transform in H. apply decode_loop_exit in H.
  repeat split.
  - intros fuel'. apply decode_loop_resting. exact H.
  - intros fuel'. apply decode_loop_resting. simpl. lia.
Qed.

End EndOfInput.

(** ** The stored tag *)

Section StoredTag.

Context {J : Type}.
Implicit Types (s : State J).

(** A stored tag other than 0 is never assigned again, and a TAG token
    that decodes to another value throws before anything of that entry
    is pushed. *)
Lemma nonzero_tag_is_kept s t :
  tag s = Some t -> t <> 0 ->
  match decode s with
  | Next s' => tag s' = Some t
  | Thrown e s' =>
      tag s' = Some t /\ pushed s' = pushed s
      \/ exists cause, e = RepeatedFieldStreamError (PAYLOAD_ERROR cause)
  end.
Proof.
  intros Htag Hnz. unfold decode.
  assert (HT : match decode_TAG s with
               | Next x => tag x = Some t
               | Thrown _ x => tag x = Some t /\ pushed x = pushed s
               end).
  { unfold decode_TAG. destruct (Token_eqb (nextToken s) TAG); [| exact Htag].
    unfold detectVarint. destruct (detectVarint_loop _ _) as [found k].
    destruct found; [| exact Htag].
    unfold complete_TAG. cbn. rewrite Htag. cbn.
    destruct (Z.eqb_spec t 0); [contradiction |].
    destruct (negb _); cbn; auto. }
  destruct (decode_TAG s) as [x | e x]; cbn; [| left; exact HT].
  assert (HL : match decode_LENGTH x with
               | Next y => tag y = Some t
               | Thrown _ _ => False
               end).
  { unfold decode_LENGTH. destruct (Token_eqb (nextToken x) LENGTH);
      [| exact HT].
    unfold detectVarint. destruct (detectVarint_loop _ _) as [found k].
    destruct found; [| exact HT].
    unfold complete_LENGTH. cbn.
    destruct (isPacked (repeatedField x)); exact HT. }
  destruct (decode_LENGTH x) as [y | e y]; cbn; [| contradiction].
  unfold decode_PAYLOAD. destruct (Token_eqb (nextToken y) PAYLOAD);
    [| exact HL].
  assert (Hdetect :
    exists found k,
      (if wireType (repeatedField y) =? WIRE_TYPES.VARINT
       then detectVarint y else detectPayload y)
      = (found, set_readOffset k y)).
  { destruct (wireType (repeatedField y) =? WIRE_TYPES.VARINT).
    - unfold detectVarint. destruct (detectVarint_loop _ _) as [f k].
      exists f, k. reflexivity.
    - unfold detectPayload. eexists _, _. reflexivity. }
  destruct Hdetect as (found & k & ->).
  destruct found; [| exact HL].
  unfold complete_PAYLOAD, decodePayload. cbn.
  destruct (decodeValue _ _) as [entry | cause].
  - destruct (isPacked (repeatedField y)); exact HL.
  - right. exists cause. reflexivity.
Qed.

(** X4. With a tag other than 0 stored, a TAG token that decodes to
    another value makes [decode] throw the TAG error, naming the stored
    tag and the tag met; nothing is emitted and the buffer is kept. *)
Lemma nonzero_tag_mismatch s s1 t :
  nextToken s = TAG ->
  tag s = Some t -> t <> 0 ->
  detectVarint s = (true, s1) ->
  decodeVarint (firstn (readOffset s1) (buffer s1)) <> t ->
  decode s
  = Thrown (RepeatedFieldStreamError
              (TAG_ERROR t (decodeVarint (firstn (readOffset s1)
                                            (buffer s1))))) s1.
Proof.
  intros Ht Htag Hnz Hd Hne.
  pose proof (detectVarint_shape s true s1 Hd) as Hs1.
  assert (Htag1 : tag s1 = Some t) by (rewrite Hs1; exact Htag).
  unfold decode, decode_TAG. rewrite Ht. cbn [Token_eqb]. rewrite Hd.
  unfold complete_TAG. rewrite Htag1. cbn.
  destruct (Z.eqb_spec t 0); [contradiction |].
  destruct (Z.eqb_spec (decodeVarint (firstn (readOffset s1) (buffer s1))) t);
    [contradiction |].
  reflexivity.
Qed.

End StoredTag.

(** ** Construction *)

Section Construction.

Context {J : Type} (codec : Codec J).

Lemma getRepeatedFieldDetails_resolves root messageName T f :
  lookupType root messageName = Some T ->
  nth_error (fieldsArray T) 0 = Some f ->
  if type_resolves root (field_type f)
  then exists field,
      getRepeatedFieldDetails codec root messageName = Ok field
  else exists what,
      getRepeatedFieldDetails codec root messageName
      = Throw (LibraryError what).
Proof.
  intros HT Hf. unfold getRepeatedFieldDetails, type_resolves.
  rewrite HT, Hf. unfold getResolvedType.
  destruct (includes DATA_TYPES.values (field_type f)) eqn:Hin; cbn.
  - unfold getDecoder. rewrite Hin. cbn. eexists. reflexivity.
  - destruct (lookupTypeOrEnum root (field_type f)) as [[T' |] |]; cbn.
    + unfold getDecoder. rewrite Hin. cbn.
      destruct (lookupType root (field_type f)); cbn;
        eexists; reflexivity.
    + eexists. reflexivity.
    + eexists. reflexivity.
Qed.

(** C5, as the code has it.  The constructor throws a
    [RepeatedFieldStreamError] in exactly four cases, each with its own
    message: the message type is not in the root; it has no field; it
    has more than one field; its sole field is not repeated.  In every
    other case the constructor returns, provided the type of the sole
    field is a built-in scalar type or resolves in the root; when it
    does not resolve, the error of the schema library's lookup comes
    out of the constructor, which is not a [RepeatedFieldStreamError]. *)
Theorem construction_outcomes root messageName :
  match lookupType root messageName with
  | None =>
      new_RepeatedFieldStream codec root messageName
      = Throw (RepeatedFieldStreamError (NOT_EXISTS messageName))
  | Some T =>
      match fieldsArray T with
      | [] =>
          new_RepeatedFieldStream codec root messageName
          = Throw (RepeatedFieldStreamError (EMPTY_FIELD messageName))
      | [f] =>
          if repeated f then
            if type_resolves root (field_type f)
            then exists field,
                getRepeatedFieldDetails codec root messageName = Ok field
                /\ new_RepeatedFieldStream codec root messageName
                   = Ok (fresh field)
            else exists what,
                new_RepeatedFieldStream codec root messageName
                = Throw (LibraryError what)
          else
            new_RepeatedFieldStream codec root messageName
            = Throw (RepeatedFieldStreamError
                       (NOT_REPEATED messageName (field_name f)))
      | _ :: _ :: _ =>
          new_RepeatedFieldStream codec root messageName
          = Throw (RepeatedFieldStreamError
                     (MORE_FIELDS messageName (length (fieldsArray T))))
      end
  end.
Proof.
  unfold new_RepeatedFieldStream, validateMessage.
  destruct (lookupType root messageName) as [T |] eqn:HT; [| reflexivity].
  destruct (fieldsArray T) as [| f [| g fields]] eqn:Hfields;
    cbn; try reflexivity.
  destruct (repeated f); cbn; [| reflexivity].
  pose proof (getRepeatedFieldDetails_resolves root messageName T f HT)
    as Hres.
  rewrite Hfields in Hres. specialize (Hres eq_refl).
  destruct (type_resolves root (field_type f)).
  - destruct Hres as (field & ->). cbn. exists field. split; reflexivity.
  - destruct Hres as (what & ->). cbn. exists what. reflexivity.
Qed.

End Construction.

(** C5, as stated, fails: the message [Dangling] exists, has exactly one
    field, and that field is repeated -- none of the four cases -- yet the
    constructor does not return: the lookup of the field's type throws. *)
Lemma construction_fails_outside_the_four_cases :
  (exists T f,
      lookupType Reference.root "Dangling" = Some T
      /\ fieldsArray T = [f]
      /\ repeated f = true)
  /\ new_RepeatedFieldStream Reference.codec Reference.root "Dangling"
     = Throw (LibraryError "Missing").
Proof.
  split; [| reflexivity].
  eexists _, _. repeat split.
Qed.

(** ** Where the code departs from the claims *)

(** C3, on the code.  A non-packed FIXED32 field whose value decoder
    returns the span it is handed, fed the standard encoding of two
    elements ([0d 01 00 00 00] [0d 02 00 00 00], field 1, wire type 5):
    the first payload is framed as the 4 bytes [01 00 00 00], the second
    as the empty span.  [currentPayloadSize] was set to 0 after the first
    element, and the TAG block goes straight to PAYLOAD, so nothing sets
    it to 4 again.  The four bytes of the second element are then read as
    tags, and the first of them is not the stored tag. *)
Theorem unpacked_fixed32_second_payload_is_empty :
  let field : RepeatedField unit :=
    {| name := "items"; wireType := WIRE_TYPES.I32; isPacked := false;
       decodeValue := fun span => inl (Buf span) |} in
  write_all 10 (fresh field)
    [[x0d; x01; x00; x00; x00; x0d; x02; x00; x00; x00]]
  = Failed (RepeatedFieldStreamError (TAG_ERROR 13 2))
      [Buf [x01; x00; x00; x00]; Buf []].
Proof. vm_compute. reflexivity. Qed.

(** C4, on the code.  A non-packed [int32] field fed [00 01 08 02]: the
    first TAG token decodes to 0 and is stored; [!this.tag] holds of 0 as
    it does of [null], so the next TAG token, 8, is stored over it
    instead of being compared, and the element of that entry is pushed
    without any error. *)
Theorem zero_tag_is_assigned_again :
  let s0 := fresh Reference.unpacked_int32_field in
  let first := write_all 4 s0 [[x00; x01]] in
  let second := write_all 4 s0 [[x00; x01]; [x08; x02]] in
  new_RepeatedFieldStream Reference.codec Reference.root "UnpackedInt32"
  = Ok s0
  /\ stored_tag first = Some 0
  /\ emitted_by first = [Ext (Reference.JNumber 1)]
  /\ stored_tag second = Some 8
  /\ emitted_by second
     = [Ext (Reference.JNumber 1); Ext (Reference.JNumber 2)].
Proof.
  split; [reflexivity |].
  repeat split; vm_compute; reflexivity.
Qed.

(** C1, on the code.  The schema
    [message UnpackedFixed32 { repeated fixed32 items = 1 [packed = false]; }]
    and the values [1, 2]: their standard encoding is
    [0d 01 00 00 00 0d 02 00 00 00].  The stream emits 1 and then fails
    with the value codec's error on the empty span, instead of emitting
    1 and 2.  A packed [int32] field, for one, gets its values through. *)
Theorem unpacked_fixed32_roundtrip_fails :
  let s0 := fresh Reference.unpacked_fixed32_field in
  new_RepeatedFieldStream Reference.codec Reference.root "UnpackedFixed32"
  = Ok s0
  /\ run_stream Reference.codec 10 s0
       [[x0d; x01; x00; x00; x00; x0d; x02; x00; x00; x00]]
     = Failed (RepeatedFieldStreamError
                 (PAYLOAD_ERROR Reference.out_of_range))
         [Ext (Reference.JNumber 1)]
  /\ emitted_by
       (run_stream Reference.codec 10 (fresh Reference.int32_field)
          [[x0a; x02; x01; x02]])
     = [Ext (Reference.JNumber 1); Ext (Reference.JNumber 2)].
Proof.
  split; [reflexivity |].
  repeat split; vm_compute; reflexivity.
Qed.

(** ** Round trips *)

Section RoundTrip.

Context {J : Type}.
Implicit Types (s : State J) (field : RepeatedField J).

Lemma is_varint_nonempty span : is_varint span -> span <> [].
Proof. intros H ->. discriminate H. Qed.

Lemma detectVarint_loop_shift rest :
  forall ro found k,
    detectVarint_loop rest 0 = (found, k) ->
    detectVarint_loop rest ro = (found, (ro + k)%nat).
Proof.
  induction rest as [| b rest IH]; intros ro found k H; simpl in *.
  - injection H as <- <-. f_equal. lia.
  - destruct (JS.sar (byteZ b) 7 =? 0).
    + injection H as <- <-. f_equal. lia.
    + destruct (detectVarint_loop rest 0) as [f0 k0] eqn:H0.
      specialize (IH 1%nat f0 k0 eq_refl) as IH1.
      rewrite IH1 in H. injection H as <- <-.
      rewrite (IH (S ro) f0 k0 eq_refl). f_equal. lia.
Qed.

(** A state that has scanned nothing of a buffer starting with a whole
    varint finds its end. *)
Lemma detectVarint_exact s span rest :
  readOffset s = 0%nat ->
  buffer s = span ++ rest ->
  is_varint span ->
  detectVarint s = (true, set_readOffset (length span) s).
Proof.
  intros Hro Hbuf Hv. unfold detectVarint. rewrite Hro, Hbuf. simpl.
  rewrite (detectVarint_loop_found span rest 0%nat (length span) Hv).
  reflexivity.
Qed.

Lemma firstn_exact (span rest : list byte) :
  firstn (length span) (span ++ rest) = span.
Proof.
  rewrite firstn_app, Nat.sub_diag, firstn_all. simpl. apply app_nil_r.
Qed.

Lemma skipn_exact (span rest : list byte) :
  skipn (length span) (span ++ rest) = rest.
Proof.
  rewrite skipn_app, Nat.sub_diag, skipn_all. reflexivity.
Qed.

(** *** One block on exactly one token *)

Lemma decode_TAG_exact s tagb rest :
  nextToken s = TAG ->
  readOffset s = 0%nat ->
  buffer s = tagb ++ rest ->
  is_varint tagb ->
  tag s = None \/ tag s = Some (decodeVarint tagb) ->
  decode_TAG s
  = Next {| repeatedField := repeatedField s;
            currentPayloadSize := currentPayloadSize s;
            buffer := rest;
            tag := Some (decodeVarint tagb);
            readOffset := 0%nat;
            nextToken :=
              if (wireType (repeatedField s) =? WIRE_TYPES.LEN)
                 || isPacked (repeatedField s)
              then LENGTH else PAYLOAD;
            pushed := pushed s |}.
Proof.
  intros Ht Hro Hbuf Hv Htag.
  unfold decode_TAG. rewrite Ht. cbn [Token_eqb].
  rewrite (detectVarint_exact s tagb rest Hro Hbuf Hv).
  unfold complete_TAG.
  cbn [buffer readOffset set_readOffset tag].
  rewrite Hbuf, firstn_exact.
  destruct Htag as [Htag | Htag]; rewrite Htag; cbn [tag_is_falsy].
  - cbn. rewrite Hbuf, skipn_exact. reflexivity.
  - destruct (decodeVarint tagb =? 0) eqn:Hz.
    + cbn. rewrite Hbuf, skipn_exact. reflexivity.
    + cbn [tag_differs]. rewrite Z.eqb_refl. cbn.
      rewrite Hbuf, skipn_exact.
      unfold set_nextToken, set_readOffset, set_buffer. cbn.
      rewrite Htag. reflexivity.
Qed.

Lemma decode_LENGTH_exact s lenb rest :
  nextToken s = LENGTH ->
  readOffset s = 0%nat ->
  buffer s = lenb ++ rest ->
  is_varint lenb ->
  decode_LENGTH s
  = Next {| repeatedField := repeatedField s;
            currentPayloadSize :=
              if isPacked (repeatedField s) then currentPayloadSize s
              else decodeVarint lenb;
            buffer := rest;
            tag := tag s;
            readOffset := 0%nat;
            nextToken := PAYLOAD;
            pushed := pushed s |}.
Proof.
  intros Ht Hro Hbuf Hv.
  unfold decode_LENGTH. rewrite Ht. cbn [Token_eqb].
  rewrite (detectVarint_exact s lenb rest Hro Hbuf Hv).
  unfold complete_LENGTH.
  cbn [buffer readOffset set_readOffset repeatedField].
  rewrite Hbuf, firstn_exact.
  destruct (isPacked (repeatedField s)); cbn;
    rewrite Hbuf, skipn_exact; reflexivity.
Qed.

(** The scan of the PAYLOAD block on a buffer starting with a whole
    value. *)
Lemma detect_payload_exact s span rest :
  nextToken s = PAYLOAD ->
  readOffset s = 0%nat ->
  buffer s = span ++ rest ->
  (if wireType (repeatedField s) =? WIRE_TYPES.VARINT
   then is_varint span
   else Z.of_nat (length span) = currentPayloadSize s) ->
  (if wireType (repeatedField s) =? WIRE_TYPES.VARINT
   then detectVarint s else detectPayload s)
  = (true, set_readOffset (length span) s).
Proof.
  intros Ht Hro Hbuf Hshape.
  destruct (wireType (repeatedField s) =? WIRE_TYPES.VARINT).
  - apply (detectVarint_exact s span rest); assumption.
  - rewrite detectPayload_eq by lia. cbn zeta.
    rewrite Hro, Hbuf, length_app, <- Hshape.
    destruct (Z.ltb_spec (Z.of_nat 0) (Z.of_nat (length span))).
    + replace (Nat.min (length span + length rest)
                 (Z.to_nat (Z.of_nat (length span))))
        with (length span) by lia.
      rewrite Z.eqb_refl. reflexivity.
    + replace (length span) with 0%nat by lia. reflexivity.
Qed.

Lemma decode_PAYLOAD_exact s span rest entry :
  nextToken s = PAYLOAD ->
  readOffset s = 0%nat ->
  buffer s = span ++ rest ->
  (if wireType (repeatedField s) =? WIRE_TYPES.VARINT
   then is_varint span
   else Z.of_nat (length span) = currentPayloadSize s) ->
  decodeValue (repeatedField s) span = inl entry ->
  decode_PAYLOAD s
  = Next {| repeatedField := repeatedField s;
            currentPayloadSize :=
              if isPacked (repeatedField s) then currentPayloadSize s
              else 0;
            buffer := rest;
            tag := tag s;
            readOffset := 0%nat;
            nextToken :=
              if isPacked (repeatedField s) then PAYLOAD else TAG;
            pushed := pushed s ++ [entry] |}.
Proof.
  intros Ht Hro Hbuf Hshape Hentry.
  unfold decode_PAYLOAD. rewrite Ht. cbn [Token_eqb].
  rewrite (detect_payload_exact s span rest Ht Hro Hbuf Hshape).
  unfold complete_PAYLOAD, decodePayload.
  cbn [buffer readOffset set_readOffset repeatedField].
  rewrite Hbuf, firstn_exact, Hentry.
  cbn. rewrite Hbuf, skipn_exact.
  destruct (isPacked (repeatedField s)); reflexivity.
Qed.

(** *** One call of [decode] on exactly one entry *)

Lemma unpacked_entry_nonempty field tagb element :
  is_varint tagb -> unpacked_entry field tagb element <> [].
Proof.
  intros Hv. destruct element as [lenb span]. unfold unpacked_entry.
  pose proof (is_varint_nonempty tagb Hv).
  destruct tagb; [contradiction | discriminate].
Qed.

Lemma decode_unpacked_entry field tagb element value t emitted :
  isPacked field = false ->
  wireType field = WIRE_TYPES.VARINT \/ wireType field = WIRE_TYPES.LEN ->
  is_varint tagb ->
  t = None \/ t = Some (decodeVarint tagb) ->
  encodes_entry field element value ->
  decode (extend (unpacked_entry field tagb element)
            (between_entries field t emitted))
  = Next (between_entries field (Some (decodeVarint tagb))
            (emitted ++ [value])).
Proof.
  intros Hp Hw Hv Ht ((Hframed & Hvalue) & Hlen).
  destruct element as [lenb span]. simpl in Hframed, Hvalue, Hlen.
  unfold decode, unpacked_entry, well_framed in *.
  destruct Hw as [Hw | Hw]; rewrite Hw in *.
  - (* VARINT: tag, value *)
    cbn [Z.eqb WIRE_TYPES.VARINT WIRE_TYPES.LEN] in *.
    rewrite (decode_TAG_exact _ tagb ([] ++ span))
      by (try reflexivity; assumption).
    cbn [andThen repeatedField extend between_entries set_buffer].
    rewrite Hw, Hp. cbn [Z.eqb WIRE_TYPES.VARINT WIRE_TYPES.LEN orb].
    unfold decode_LENGTH at 1. cbn [nextToken Token_eqb andThen].
    rewrite (decode_PAYLOAD_exact _ span [] value);
      cbn [repeatedField nextToken readOffset buffer];
      rewrite ?Hw, ?Hp, ?app_nil_r; try reflexivity; assumption.
  - (* LENGTH_DELIMITED: tag, length, value *)
    cbn [Z.eqb WIRE_TYPES.VARINT WIRE_TYPES.LEN] in *.
    destruct (Hlen eq_refl) as (Hlenv & Hlend).
    rewrite (decode_TAG_exact _ tagb (lenb ++ span))
      by (try reflexivity; assumption).
    cbn [andThen repeatedField extend between_entries set_buffer].
    rewrite Hw, Hp. cbn [Z.eqb WIRE_TYPES.VARINT WIRE_TYPES.LEN orb].
    rewrite (decode_LENGTH_exact _ lenb span)
      by (try reflexivity; assumption).
    cbn [andThen repeatedField]. rewrite Hp.
    rewrite (decode_PAYLOAD_exact _ span [] value);
      cbn [repeatedField nextToken readOffset buffer currentPayloadSize];
      rewrite ?Hw, ?Hp, ?app_nil_r; try reflexivity; try assumption.
    cbn [Z.eqb WIRE_TYPES.VARINT WIRE_TYPES.LEN]. symmetry. exact Hlend.
Qed.

Lemma transform_unpacked_entry field tagb element value t emitted fuel :
  isPacked field = false ->
  wireType field = WIRE_TYPES.VARINT \/ wireType field = WIRE_TYPES.LEN ->
  is_varint tagb ->
  t = None \/ t = Some (decodeVarint tagb) ->
  encodes_entry field element value ->
  (1 <= fuel)%nat ->
  _transform fuel (between_entries field t emitted)
    (unpacked_entry field tagb element)
  = Done (between_entries field (Some (decodeVarint tagb))
            (emitted ++ [value])).
Proof.
  intros Hp Hw Hv Ht Henc Hfuel.
  unfold _transform.
  fold (extend (unpacked_entry field tagb element)
          (between_entries field t emitted)).
  destruct fuel as [| fuel]; [lia |].
  rewrite decode_loop_step.
  - rewrite (decode_unpacked_entry field tagb element value t emitted)
      by assumption.
    apply decode_loop_resting. simpl. lia.
  - simpl. pose proof (unpacked_entry_nonempty field tagb element Hv).
    destruct (unpacked_entry field tagb element); [contradiction |].
    simpl. lia.
Qed.

Lemma write_all_unpacked field tagb fuel :
  isPacked field = false ->
  wireType field = WIRE_TYPES.VARINT \/ wireType field = WIRE_TYPES.LEN ->
  is_varint tagb ->
  (1 <= fuel)%nat ->
  forall elements values t emitted,
    t = None \/ t = Some (decodeVarint tagb) ->
    Forall2 (encodes_entry field) elements values ->
    exists t',
      write_all fuel (between_entries field t emitted)
        (map (unpacked_entry field tagb) elements)
      = Done (between_entries field t' (emitted ++ values)).
Proof.
  intros Hp Hw Hv Hfuel elements values t emitted Ht Hall.
  revert t emitted Ht.
  induction Hall as [| element value elements values Henc Hall IH];
    intros t emitted Ht; simpl.
  - exists t. rewrite app_nil_r. reflexivity.
  - rewrite (transform_unpacked_entry field tagb element value t emitted)
      by assumption.
    destruct (IH (Some (decodeVarint tagb)) (emitted ++ [value]))
      as (t' & Hrest); [right; reflexivity |].
    exists t'. rewrite Hrest, <- app_assoc. reflexivity.
Qed.

(** *** A packed run *)

Lemma packed_shape field span :
  wireType field = WIRE_TYPES.VARINT
  \/ wireType field = WIRE_TYPES.I32
  \/ wireType field = WIRE_TYPES.I64 ->
  well_framed field span ->
  if wireType field =? WIRE_TYPES.VARINT
  then is_varint span
  else Z.of_nat (length span) = getPayloadSizeInBytes (wireType field).
Proof.
  unfold well_framed, getPayloadSizeInBytes.
  intros [Hw | [Hw | Hw]] Hframed; rewrite Hw in *; cbn in *;
    [assumption | lia | lia].
Qed.

Lemma decode_packed_head field tagb runlen span value :
  isPacked field = true ->
  wireType field = WIRE_TYPES.VARINT
  \/ wireType field = WIRE_TYPES.I32
  \/ wireType field = WIRE_TYPES.I64 ->
  is_varint tagb -> is_varint runlen ->
  encodes field span value ->
  decode (extend (tagb ++ runlen ++ span) (fresh field))
  = Next (between_values field (decodeVarint tagb) [value]).
Proof.
  intros Hp Hnum Hv Hr (Hframed & Hvalue).
  pose proof (packed_shape field span Hnum Hframed) as Hshape.
  unfold decode.
  rewrite (decode_TAG_exact _ tagb (runlen ++ span))
    by (try reflexivity; try assumption; left; reflexivity).
  cbn [andThen repeatedField extend fresh set_buffer].
  rewrite Hp, orb_true_r.
  rewrite (decode_LENGTH_exact _ runlen span)
    by (try reflexivity; assumption).
  cbn [andThen repeatedField]. rewrite Hp.
  rewrite (decode_PAYLOAD_exact _ span [] value);
    cbn [repeatedField nextToken readOffset buffer currentPayloadSize
         pushed tag];
    rewrite ?Hp, ?app_nil_r; try reflexivity; assumption.
Qed.

Lemma decode_packed_value field t span value emitted :
  isPacked field = true ->
  wireType field = WIRE_TYPES.VARINT
  \/ wireType field = WIRE_TYPES.I32
  \/ wireType field = WIRE_TYPES.I64 ->
  encodes field span value ->
  decode (extend span (between_values field t emitted))
  = Next (between_values field t (emitted ++ [value])).
Proof.
  intros Hp Hnum (Hframed & Hvalue).
  pose proof (packed_shape field span Hnum Hframed) as Hshape.
  rewrite decode_at_PAYLOAD by reflexivity.
  rewrite (decode_PAYLOAD_exact _ span [] value);
    cbn [repeatedField nextToken readOffset buffer currentPayloadSize
         pushed tag extend between_values set_buffer];
    rewrite ?Hp, ?app_nil_r; try reflexivity; assumption.
Qed.

Lemma encoded_value_nonempty field span value :
  wireType field = WIRE_TYPES.VARINT
  \/ wireType field = WIRE_TYPES.I32
  \/ wireType field = WIRE_TYPES.I64 ->
  encodes field span value -> (0 < length span)%nat.
Proof.
  intros Hnum (Hframed & _).
  pose proof (packed_shape field span Hnum Hframed) as Hshape.
  unfold getPayloadSizeInBytes in Hshape.
  destruct Hnum as [Hw | [Hw | Hw]]; rewrite Hw in Hshape; cbn in Hshape;
    try lia.
  pose proof (is_varint_nonempty span Hshape).
  destruct span; [contradiction | simpl; lia].
Qed.

Lemma write_all_packed field t fuel :
  isPacked field = true ->
  wireType field = WIRE_TYPES.VARINT
  \/ wireType field = WIRE_TYPES.I32
  \/ wireType field = WIRE_TYPES.I64 ->
  (1 <= fuel)%nat ->
  forall spans values emitted,
    Forall2 (encodes field) spans values ->
    write_all fuel (between_values field t emitted) spans
    = Done (between_values field t (emitted ++ values)).
Proof.
  intros Hp Hnum Hfuel spans values emitted Hall. revert emitted.
  induction Hall as [| span value spans values Henc Hall IH];
    intros emitted; simpl.
  - rewrite app_nil_r. reflexivity.
  - unfold _transform.
    fold (extend span (between_values field t emitted)).
    destruct fuel as [| fuel]; [lia |].
    rewrite decode_loop_step
      by (pose proof (encoded_value_nonempty field span value Hnum Henc);
          simpl; lia).
    rewrite (decode_packed_value field t span value emitted)
      by assumption.
    rewrite decode_loop_resting by (simpl; lia).
    rewrite IH, <- app_assoc. reflexivity.
Qed.

(** *** Whole streams *)

Lemma fresh_consistent field :
  (isPacked field = true ->
   wireType field = WIRE_TYPES.VARINT
   \/ wireType field = WIRE_TYPES.I32
   \/ wireType field = WIRE_TYPES.I64) ->
  consistent (fresh field) /\ resting (fresh field).
Proof.
  intros Hnum. split; [split; simpl | reflexivity].
  - lia.
  - intros Hp Hw. unfold getPayloadSizeInBytes.
    destruct (Hnum Hp) as [H | [H | H]]; [contradiction | |];
      rewrite H; reflexivity.
  - discriminate.
Qed.

Lemma run_stream_done (codec : Codec J) fuel s chunks s' :
  write_all fuel s chunks = Done s' ->
  run_stream codec fuel s chunks = Done (cleanup codec s')
  /\ pushed (cleanup codec s') = pushed s'.
Proof.
  intros H. unfold run_stream, end_of_input, _flush, _final. rewrite H.
  split; [| reflexivity].
  apply decode_loop_resting. simpl. lia.
Qed.

(** X1. The packed encoding of the values, cut into chunks in any way and
    written to a fresh stream for a packed field: the stream ends without
    error and has emitted exactly the values, in order. *)
Theorem packed_roundtrip (codec : Codec J) field tagb runlen spans values
  (chunks : list (list byte)) (fuel : nat) :
  isPacked field = true ->
  wireType field = WIRE_TYPES.VARINT
  \/ wireType field = WIRE_TYPES.I32
  \/ wireType field = WIRE_TYPES.I64 ->
  is_varint tagb -> is_varint runlen ->
  Forall2 (encodes field) spans values ->
  concat chunks = encode_packed tagb runlen spans ->
  (length (encode_packed tagb runlen spans) <= fuel)%nat ->
  exists s',
    run_stream codec fuel (fresh field) chunks = Done s'
    /\ pushed s' = values.
Proof.
  intros Hp Hnum Hv Hr Hall Hbytes Hfuel.
  destruct (fresh_consistent field (fun _ => Hnum)) as (Hc & Hrest).
  assert (Hwrite : exists s1,
             write_all fuel (fresh field) chunks = Done s1
             /\ pushed s1 = values).
  { rewrite (write_all_concat chunks (fresh field) fuel Hc Hrest)
      by (rewrite Hbytes; exact Hfuel).
    rewrite Hbytes.
    destruct Hall as [| span value spans values Henc Hall].
    - exists (fresh field). split; [| reflexivity].
      change (decode_loop fuel (fresh field) = Done (fresh field)).
      apply decode_loop_resting. simpl. lia.
    - exists (between_values field (decodeVarint tagb) (value :: values)).
      split; [| reflexivity].
      cbn [encode_packed concat] in *.
      replace (tagb ++ runlen ++ span ++ concat spans)
        with (concat ((tagb ++ runlen ++ span) :: spans))
        by (simpl; rewrite <- !app_assoc; reflexivity).
      assert (Hpos : (1 <= fuel)%nat).
      { pose proof (is_varint_nonempty tagb Hv).
        destruct tagb; [contradiction |]. simpl in Hfuel. lia. }
      rewrite <- (write_all_concat _ (fresh field) fuel Hc Hrest)
        by (simpl; rewrite <- !app_assoc; exact Hfuel).
      cbn [write_all]. unfold _transform.
      fold (extend (tagb ++ runlen ++ span) (fresh field)).
      destruct fuel as [| fuel]; [lia |].
      rewrite decode_loop_step
        by (pose proof (is_varint_nonempty tagb Hv);
            destruct tagb; [contradiction | simpl; lia]).
      rewrite (decode_packed_head field tagb runlen span value)
        by assumption.
      rewrite decode_loop_resting by (simpl; lia).
      rewrite (write_all_packed field (decodeVarint tagb) (S fuel)
                 Hp Hnum Hpos spans values [value] Hall).
      reflexivity. }
  destruct Hwrite as (s1 & Hw1 & Hp1).
  destruct (run_stream_done codec fuel (fresh field) chunks s1 Hw1)
    as (Hrun & Hpushed).
  exists (cleanup codec s1). split; [exact Hrun | congruence].
Qed.

(** X2. The unpacked encoding of the values, cut into chunks in any way and
    written to a fresh stream for a non-packed VARINT or
    LENGTH_DELIMITED field: the stream ends without error and has
    emitted exactly the values, in order.  (Non-packed fixed-width
    fields are the ones the round trip fails for.) *)
Theorem unpacked_roundtrip (codec : Codec J) field tagb elements values
  (chunks : list (list byte)) (fuel : nat) :
  isPacked field = false ->
  wireType field = WIRE_TYPES.VARINT \/ wireType field = WIRE_TYPES.LEN ->
  is_varint tagb ->
  Forall2 (encodes_entry field) elements values ->
  concat chunks = encode_unpacked field tagb elements ->
  (length (encode_unpacked field tagb elements) <= fuel)%nat ->
  exists s',
    run_stream codec fuel (fresh field) chunks = Done s'
    /\ pushed s' = values.
Proof.
  intros Hp Hw Hv Hall Hbytes Hfuel.
  assert (Hfresh : fresh field = between_entries field None []).
  { unfold fresh, between_entries, getPayloadSizeInBytes.
    destruct Hw as [Hw | Hw]; rewrite Hw; reflexivity. }
  destruct (fresh_consistent field) as (Hc & Hrest);
    [rewrite Hp; discriminate |].
  assert (Hwrite : exists s1,
             write_all fuel (fresh field) chunks = Done s1
             /\ pushed s1 = values).
  { rewrite (write_all_concat chunks (fresh field) fuel Hc Hrest)
      by (rewrite Hbytes; exact Hfuel).
    rewrite Hbytes. unfold encode_unpacked in *.
    destruct (Nat.eq_dec fuel 0) as [-> | Hpos].
    - (* no fuel: no byte, hence no element *)
      destruct Hall as [| element value elements values Henc Hall].
      + exists (fresh field). split; reflexivity.
      + exfalso. simpl in Hfuel. rewrite length_app in Hfuel.
        pose proof (unpacked_entry_nonempty field tagb element Hv).
        destruct (unpacked_entry field tagb element);
          [contradiction | simpl in Hfuel; lia].
    - rewrite <- (write_all_concat _ (fresh field) fuel Hc Hrest)
        by exact Hfuel.
      rewrite Hfresh.
      destruct (write_all_unpacked field tagb fuel Hp Hw Hv
                  ltac:(lia) elements values None []
                  (or_introl eq_refl) Hall) as (t' & Hdone).
      exists (between_entries field t' ([] ++ values)).
      split; [exact Hdone | reflexivity]. }
  destruct Hwrite as (s1 & Hw1 & Hp1).
  destruct (run_stream_done codec fuel (fresh field) chunks s1 Hw1)
    as (Hrun & Hpushed).
  exists (cleanup codec s1). split; [exact Hrun | congruence].
Qed.

End RoundTrip.

(** ** The theorems at concrete streams *)

Example int32_field_details :
  getRepeatedFieldDetails Reference.codec Reference.root "PackedInt32"
  = Ok Reference.int32_field.
Proof. reflexivity. Qed.

Example string_field_details :
  getRepeatedFieldDetails Reference.codec Reference.root "Strings"
  = Ok Reference.string_field.
Proof. reflexivity. Qed.

(** A TAG of which only [80 ff] has arrived. *)
Lemma incomplete_varint_awaits_more_witness :
  decode (extend [x80; xff] (fresh Reference.int32_field))
  = Next (set_readOffset 2 (extend [x80; xff] (fresh Reference.int32_field))).
Proof.
  apply (incomplete_varint_awaits_more
           (extend [x80; xff] (fresh Reference.int32_field))).
  - simpl. lia.
  - left. reflexivity.
  - repeat constructor.
Defined.

(** The packed run [0a 02 01 80]: its second element is a varint cut
    short. *)
Lemma end_of_input_discards_partial_token_witness :
  let s' :=
    {| repeatedField := Reference.int32_field;
       currentPayloadSize := 0;
       buffer := [x80];
       tag := Some 10;
       readOffset := 1%nat;
       nextToken := PAYLOAD;
       pushed := [Ext (Reference.JNumber 1)] |} in
  (forall fuel', _flush fuel' s' = Done s')
  /\ (forall fuel',
         end_of_input Reference.codec fuel' s'
         = Done (cleanup Reference.codec s'))
  /\ pushed (cleanup Reference.codec s') = pushed s'
  /\ buffer (cleanup Reference.codec s') = [].
Proof.
  apply (end_of_input_discards_partial_token Reference.codec 4
           (fresh Reference.int32_field) [x0a; x02; x01; x80]).
  reflexivity.
Defined.

Example second_packed_run_is_payload :
  emitted_by
    (write_all 3 (set_nextToken PAYLOAD (fresh Reference.int32_field))
       [[x0a; x01; x05]])
  = [Ext (Reference.JNumber 10); Ext (Reference.JNumber 1);
     Ext (Reference.JNumber 5)].
Proof. vm_compute. reflexivity. Qed.

(** A [string] field at LENGTH with [00 0a] in the buffer: an empty
    string, then the tag of the next entry. *)
Lemma zero_length_completes_payload_witness :
  let s := extend [x00; x0a]
             (set_nextToken LENGTH (fresh Reference.string_field)) in
  decode s
  = Next {| repeatedField := Reference.string_field;
            currentPayloadSize := 0;
            buffer := [x0a];
            tag := None;
            readOffset := 0%nat;
            nextToken := TAG;
            pushed := [Str EmptyString] |}
  /\ scalarDecoder Reference.codec DATA_TYPES.BYTES [] = inl (Buf [])
  /\ (toString_utf8 Reference.codec [] = EmptyString ->
      scalarDecoder Reference.codec DATA_TYPES.STRING []
      = inl (Str EmptyString)).
Proof.
  apply (zero_length_completes_payload Reference.codec
           (extend [x00; x0a]
              (set_nextToken LENGTH (fresh Reference.string_field)))
           (set_readOffset 1
              (extend [x00; x0a]
                 (set_nextToken LENGTH (fresh Reference.string_field))))
           (Str EmptyString));
    reflexivity.
Defined.

(** The packed [int32] values [1, -2, 3] in three uneven chunks. *)
Lemma packed_roundtrip_witness :
  exists s',
    run_stream Reference.codec 14 (fresh Reference.int32_field)
      [[x0a]; [x0c; x01; xfe; xff; xff];
       [xff; xff; xff; xff; xff; xff; x01; x03]]
    = Done s'
    /\ pushed s'
       = [Ext (Reference.JNumber 1); Ext (Reference.JNumber (-2));
          Ext (Reference.JNumber 3)].
Proof.
  apply (packed_roundtrip Reference.codec Reference.int32_field
           [x0a] [x0c]
           [[x01]; [xfe; xff; xff; xff; xff; xff; xff; xff; xff; x01];
            [x03]]).
  - reflexivity.
  - left. reflexivity.
  - reflexivity.
  - reflexivity.
  - repeat constructor.
  - reflexivity.
  - simpl. lia.
Defined.

(** Three strings, a, the empty one and b, one byte per chunk for the
    first entry. *)
Lemma unpacked_roundtrip_witness :
  exists s',
    run_stream Reference.codec 8 (fresh Reference.string_field)
      [[x0a]; [x01]; [x61]; [x0a; x00; x0a; x01; x62]]
    = Done s'
    /\ pushed s' = [Str "a"%string; Str EmptyString; Str "b"%string].
Proof.
  apply (unpacked_roundtrip Reference.codec Reference.string_field
           [x0a] [([x01], [x61]); ([x00], []); ([x01], [x62])]).
  - reflexivity.
  - right. reflexivity.
  - reflexivity.
  - repeat constructor; try discriminate.
  - reflexivity.
  - simpl. lia.
Defined.

(** ** Termination of the loop of [_transform] *)

Section Progress.

Context {J : Type} (codec : Codec J).
Implicit Types (s x y z : State J).

(** A property every call of [decode] in the loop keeps holds when the
    loop ends. *)
Lemma decode_loop_invariant (P : State J -> Prop) :
  (forall s, P s -> (readOffset s < length (buffer s))%nat ->
             match decode s with
             | Next z => P z
             | Thrown _ _ => True
             end) ->
  forall fuel s,
    P s ->
    match decode_loop fuel s with
    | Done s' => P s'
    | _ => True
    end.
Proof.
  intros Hstep fuel. induction fuel as [| fuel IH]; intros s Hs; simpl.
  - destruct (Nat.ltb_spec (readOffset s) (length (buffer s)));
      [exact I | exact Hs].
  - destruct (Nat.ltb_spec (readOffset s) (length (buffer s))) as [Hlt |];
      [| exact Hs].
    specialize (Hstep s Hs Hlt).
    destruct (decode s) as [z | e z]; [| exact I].
    apply IH. exact Hstep.
Qed.

Lemma app_one_neq {A : Type} (l : list A) (a : A) : l ++ [a] <> l.
Proof.
  intros H. apply (f_equal (@length A)) in H.
  rewrite length_app in H. simpl in H. lia.
Qed.

(** The PAYLOAD block leaves a state with unscanned bytes as it found
    it only when the payload size is negative. *)
Lemma decode_PAYLOAD_spin s :
  consistent s ->
  nextToken s = PAYLOAD ->
  (readOffset s < length (buffer s))%nat ->
  decode_PAYLOAD s = Next s ->
  wireType (repeatedField s) <> WIRE_TYPES.VARINT
  /\ currentPayloadSize s < 0.
Proof.
  intros Hs Ht Hlt. pose proof (offset_in_buffer Hs) as Hoff.
  unfold decode_PAYLOAD. rewrite Ht. cbn [Token_eqb].
  destruct (Z.eqb_spec (wireType (repeatedField s)) WIRE_TYPES.VARINT)
    as [Hw | Hw].
  - destruct (detectVarint_spec s Hoff)
      as (found & k & -> & Hk & Hadv & Hnf).
    specialize (Hadv Hlt).
    destruct found.
    + unfold complete_PAYLOAD, decodePayload. simpl.
      destruct (decodeValue (repeatedField s) _); [| discriminate].
      destruct (isPacked (repeatedField s)); simpl; intros H;
        apply (f_equal (fun r => match r with
                                 | Next z => pushed z
                                 | Thrown _ z => pushed z
                                 end)) in H;
        simpl in H; apply app_one_neq in H; contradiction.
    + intros H. injection H as H.
      apply (f_equal (@readOffset J)) in H. simpl in H. lia.
  - destruct (detectPayload_spec s Hoff)
      as (found & k & -> & Hk & Hyes & Hno & Hshort & Hge).
    destruct (payload_short Hs Ht Hw) as [Hsh | Hneg];
      [| intros _; split; assumption].
    destruct (Hshort Hsh) as (Hadv & _ & _). specialize (Hadv Hlt).
    destruct found.
    + unfold complete_PAYLOAD, decodePayload. simpl.
      destruct (decodeValue (repeatedField s) _); [| discriminate].
      destruct (isPacked (repeatedField s)); simpl; intros H;
        apply (f_equal (fun r => match r with
                                 | Next z => pushed z
                                 | Thrown _ z => pushed z
                                 end)) in H;
        simpl in H; apply app_one_neq in H; contradiction.
    + intros H. injection H as H.
      apply (f_equal (@readOffset J)) in H. simpl in H. lia.
Qed.

(** One call of [decode] changes nothing of a state with unscanned
    bytes only when it is at a PAYLOAD of negative size. *)
Lemma decode_spin_negative s :
  consistent s ->
  (readOffset s < length (buffer s))%nat ->
  decode s = Next s ->
  nextToken s = PAYLOAD
  /\ wireType (repeatedField s) <> WIRE_TYPES.VARINT
  /\ currentPayloadSize s < 0.
Proof.
  intros Hs Hlt. unfold decode.
  pose proof (decode_TAG_between s (consistent_between_blocks s Hs)) as HT.
  destruct (decode_TAG s) as [x |]; simpl; [| discriminate].
  destruct HT as (Hx & HxU & HxT & HxN).
  pose proof (decode_LENGTH_between x Hx) as HL.
  destruct (decode_LENGTH x) as [y |]; simpl; [| discriminate].
  destruct HL as (Hy & HyU & HyT & HyN).
  pose proof (decode_PAYLOAD_consistent y Hy) as HP.
  destruct (decode_PAYLOAD y) as [z |] eqn:Hz; simpl; [| discriminate].
  destruct HP as (_ & HzU & _ & _).
  intros H. injection H as ->.
  destruct (nextToken s) eqn:Ht.
  - specialize (HxT eq_refl Hlt). lia.
  - assert (x = s) by (apply HxN; congruence). subst x.
    specialize (HyT Ht Hlt). lia.
  - assert (x = s) by (apply HxN; congruence). subst x.
    assert (y = s) by (apply HyN; congruence). subst y.
    split; [reflexivity |].
    apply decode_PAYLOAD_spin; assumption.
Qed.

Lemma decode_keeps_size_fixed s :
  size_is_fixed s ->
  match decode s with
  | Next z => size_is_fixed z
  | Thrown _ _ => True
  end.
Proof.
  intros (Hsize & Hlen). unfold decode.
  assert (HT : match decode_TAG s with
               | Next x => size_is_fixed x
               | Thrown _ _ => True
               end).
  { unfold decode_TAG. destruct (Token_eqb (nextToken s) TAG);
      [| split; assumption].
    unfold detectVarint. destruct (detectVarint_loop _ _) as [found k].
    destruct found; [| split; assumption].
    unfold complete_TAG. cbn.
    destruct (tag_is_falsy (tag s)); [| destruct (tag_differs _ _)];
      cbn; try exact I;
      (split; cbn; [exact Hsize |]; intros Hp;
       destruct (Hlen Hp) as (Hw & _); split; [exact Hw |];
       rewrite Hp; apply Z.eqb_neq in Hw; rewrite Hw; discriminate). }
  destruct (decode_TAG s) as [x | e x]; cbn; [| exact I].
  clear Hsize Hlen. destruct HT as (Hsize & Hlen).
  assert (HL : match decode_LENGTH x with
               | Next y => size_is_fixed y
               | Thrown _ _ => True
               end).
  { unfold decode_LENGTH.
    destruct (Token_eqb (nextToken x) LENGTH) eqn:Ht;
      [| split; assumption].
    apply Token_eqb_eq in Ht.
    unfold detectVarint. destruct (detectVarint_loop _ _) as [found k].
    destruct found; [| split; assumption].
    unfold complete_LENGTH. cbn.
    destruct (isPacked (repeatedField x)) eqn:Hp; cbn.
    - split; cbn; [exact Hsize | congruence].
    - destruct (Hlen eq_refl) as (_ & Hn). contradiction. }
  destruct (decode_LENGTH x) as [y | e y]; cbn; [| exact I].
  clear Hsize Hlen. destruct HL as (Hsize & Hlen).
  unfold decode_PAYLOAD.
  destruct (Token_eqb (nextToken y) PAYLOAD); [| split; assumption].
  assert (Hdetect :
    exists found k,
      (if wireType (repeatedField y) =? WIRE_TYPES.VARINT
       then detectVarint y else detectPayload y)
      = (found, set_readOffset k y)).
  { destruct (wireType (repeatedField y) =? WIRE_TYPES.VARINT).
    - unfold detectVarint. destruct (detectVarint_loop _ _) as [f k].
      exists f, k. reflexivity.
    - unfold detectPayload. eexists _, _. reflexivity. }
  destruct Hdetect as (found & k & ->).
  destruct found; [| split; assumption].
  unfold complete_PAYLOAD, decodePayload. cbn.
  destruct (decodeValue _ _) as [entry | cause]; [| exact I].
  destruct (isPacked (repeatedField y)) eqn:Hp; cbn.
  - split; cbn; [exact Hsize | congruence].
  - split; cbn; [lia |]. intros _.
    destruct (Hlen eq_refl) as (Hw & _). split; [exact Hw | discriminate].
Qed.

(** With a payload size that is never negative every call of [decode]
    in the loop scans at least one byte, so the loop ends within as many
    calls as there are unscanned bytes. *)
Lemma decode_loop_ends fuel :
  forall s,
    consistent s -> size_is_fixed s ->
    (unscanned s <= fuel)%nat ->
    match decode_loop fuel s with
    | Done s' => consistent s' /\ resting s' /\ size_is_fixed s'
    | Failed _ _ => True
    | OutOfFuel _ => False
    end.
Proof.
  induction fuel as [| fuel IH]; intros s Hs Hfix Hfuel; simpl.
  - destruct (Nat.ltb_spec (readOffset s) (length (buffer s))) as [Hlt | Hge].
    + unfold unscanned in Hfuel. lia.
    + split; [exact Hs | split; [| exact Hfix]].
      pose proof (offset_in_buffer Hs). unfold resting. lia.
  - destruct (Nat.ltb_spec (readOffset s) (length (buffer s))) as [Hlt | Hge].
    + pose proof (decode_progress s Hs Hlt) as Hp.
      pose proof (decode_keeps_size_fixed s Hfix) as Hk.
      pose proof (decode_spin_negative s Hs Hlt) as Hspin.
      destruct (decode s) as [z | e z]; [| exact I].
      destruct Hp as (Hz & [-> | Hdec]).
      * destruct (Hspin eq_refl) as (_ & _ & Hneg).
        destruct Hfix as (Hnn & _). lia.
      * apply IH; [assumption | assumption | lia].
    + split; [exact Hs | split; [| exact Hfix]].
      pose proof (offset_in_buffer Hs). unfold resting. lia.
Qed.

Lemma size_is_fixed_extend s c : size_is_fixed s -> size_is_fixed (extend c s).
Proof. intros H. exact H. Qed.

Lemma write_all_ends :
  forall chunks fuel s,
    consistent s -> resting s -> size_is_fixed s ->
    (length (concat chunks) <= fuel)%nat ->
    match write_all fuel s chunks with
    | Done s' => consistent s' /\ resting s' /\ size_is_fixed s'
    | Failed _ _ => True
    | OutOfFuel _ => False
    end.
Proof.
  induction chunks as [| chunk chunks IH]; intros fuel s Hs Hr Hfix Hfuel;
    simpl.
  - split; [exact Hs | split; [exact Hr | exact Hfix]].
  - simpl in Hfuel. rewrite length_app in Hfuel.
    unfold _transform. fold (extend chunk s).
    pose proof (decode_loop_ends fuel (extend chunk s)
                  (extend_consistent s chunk Hs)
                  (size_is_fixed_extend s chunk Hfix)) as Hloop.
    rewrite unscanned_extend in Hloop by (apply (offset_in_buffer Hs)).
    unfold unscanned, resting in *.
    specialize (Hloop ltac:(lia)).
    destruct (decode_loop fuel (extend chunk s)) as [s1 | |];
      [| exact I | exact Hloop].
    destruct Hloop as (H1 & H2 & H3).
    apply IH; try assumption. lia.
Qed.

(** X5. A stream whose field is not length-delimited (a numeric scalar
    or an enum, packed or not) never hangs: whatever bytes are written,
    in whatever chunks, every [_transform] returns and the stream ends,
    either normally or with an error. *)
Theorem numeric_fields_never_hang root messageName s0
  (chunks : list (list byte)) (fuel : nat) :
  new_RepeatedFieldStream codec root messageName = Ok s0 ->
  wireType (repeatedField s0) <> WIRE_TYPES.LEN ->
  (length (concat chunks) <= fuel)%nat ->
  (exists s', run_stream codec fuel s0 chunks = Done s')
  \/ (exists e emitted, run_stream codec fuel s0 chunks = Failed e emitted).
Proof.
  intros Hnew Hw Hfuel.
  destruct (new_RepeatedFieldStream_consistent codec root messageName s0 Hnew)
    as (Hs & Hr).
  assert (Hfix : size_is_fixed s0).
  { unfold new_RepeatedFieldStream in Hnew.
    destruct (validateMessage root messageName); [| discriminate].
    cbn in Hnew.
    destruct (getRepeatedFieldDetails codec root messageName) as [field |];
      [| discriminate].
    cbn in Hnew. injection Hnew as <-. split; cbn.
    - unfold getPayloadSizeInBytes.
      destruct (_ =? WIRE_TYPES.I32); [lia |].
      destruct (_ =? WIRE_TYPES.I64); lia.
    - intros _. split; [exact Hw | discriminate]. }
  pose proof (write_all_ends chunks fuel s0 Hs Hr Hfix Hfuel) as Hall.
  unfold run_stream.
  destruct (write_all fuel s0 chunks) as [s1 | e emitted |] eqn:Hwrite.
  - left. exists (cleanup codec s1).
    unfold end_of_input, _flush, _final.
    apply decode_loop_resting. simpl. lia.
  - right. exists e, emitted. reflexivity.
  - contradiction.
Qed.

(** X14. A length-delimited field whose LENGTH token decodes to a
    negative number (a five-byte varint with bit 31 set) and is followed
    by at least one byte: the loop of [_transform] never ends, whatever
    the fuel, and nothing is emitted. *)
Theorem negative_length_never_returns (field : RepeatedField J)
  (tagb lenb : list byte) (b : byte) (rest : list byte) :
  wireType field = WIRE_TYPES.LEN ->
  isPacked field = false ->
  is_varint tagb -> is_varint lenb ->
  decodeVarint lenb < 0 ->
  forall fuel,
    write_all fuel (fresh field) [tagb ++ lenb ++ b :: rest] = OutOfFuel [].
Proof.
  intros Hw Hp Hv Hl Hneg fuel.
  assert (Hne : (0 < length (tagb ++ lenb ++ b :: rest))%nat).
  { rewrite !length_app. simpl. lia. }
  enough (Hloop : _transform fuel (fresh field) (tagb ++ lenb ++ b :: rest)
                  = OutOfFuel [])
    by (cbn [write_all]; rewrite Hloop; reflexivity).
  unfold _transform.
  fold (extend (tagb ++ lenb ++ b :: rest) (fresh field)).
  destruct fuel as [| fuel].
  - simpl decode_loop. cbn [readOffset set_buffer fresh buffer app].
    rewrite (proj2 (Nat.ltb_lt _ _) Hne). reflexivity.
  - rewrite decode_loop_step by (cbn; exact Hne).
    assert (Hdecode :
      decode (extend (tagb ++ lenb ++ b :: rest) (fresh field))
      = Next {| repeatedField := field;
                currentPayloadSize := decodeVarint lenb;
                buffer := b :: rest;
                tag := Some (decodeVarint tagb);
                readOffset := 0%nat;
                nextToken := PAYLOAD;
                pushed := [] |}).
    { unfold decode.
      rewrite (decode_TAG_exact _ tagb (lenb ++ b :: rest))
        by (try reflexivity; try assumption; left; reflexivity).
      cbn [andThen repeatedField fresh set_buffer extend].
      rewrite Hw. cbn [Z.eqb orb].
      change (WIRE_TYPES.LEN =? WIRE_TYPES.LEN) with true. cbn [orb].
      rewrite (decode_LENGTH_exact _ lenb (b :: rest))
        by (try reflexivity; assumption).
      cbn [andThen repeatedField]. rewrite Hp.
      unfold decode_PAYLOAD. cbn [nextToken Token_eqb repeatedField].
      rewrite Hw. change (WIRE_TYPES.LEN =? WIRE_TYPES.VARINT) with false.
      rewrite detectPayload_eq by (cbn; lia).
      cbn [readOffset currentPayloadSize buffer pushed tag].
      destruct (Z.ltb_spec (Z.of_nat 0) (decodeVarint lenb)); [lia |].
      cbn zeta.
      destruct (Z.eqb_spec (Z.of_nat 0) (decodeVarint lenb)); [lia |].
      reflexivity. }
    rewrite Hdecode.
    apply (decode_loop_spin
             {| repeatedField := field;
                currentPayloadSize := decodeVarint lenb;
                buffer := b :: rest;
                tag := Some (decodeVarint tagb);
                readOffset := 0%nat;
                nextToken := PAYLOAD;
                pushed := [] |}).
    + simpl. lia.
    + rewrite decode_at_PAYLOAD by reflexivity.
      unfold decode_PAYLOAD. cbn [nextToken Token_eqb repeatedField].
      rewrite Hw. change (WIRE_TYPES.LEN =? WIRE_TYPES.VARINT) with false.
      rewrite detectPayload_eq by (cbn; lia).
      cbn [readOffset currentPayloadSize buffer pushed tag].
      destruct (Z.ltb_spec (Z.of_nat 0) (decodeVarint lenb)); [lia |].
      cbn zeta.
      destruct (Z.eqb_spec (Z.of_nat 0) (decodeVarint lenb)); [lia |].
      reflexivity.
Qed.

End Progress.

(** ** Errors, the stored tag and the count of elements *)

Section Outcomes.

Context {J : Type} (codec : Codec J).
Implicit Types (s x y z : State J).

(** What the scan of a block returns, whichever scan it is. *)
Lemma payload_scan_shape s :
  exists found k,
    (if wireType (repeatedField s) =? WIRE_TYPES.VARINT
     then detectVarint s else detectPayload s)
    = (found, set_readOffset k s).
Proof.
  destruct (wireType (repeatedField s) =? WIRE_TYPES.VARINT).
  - unfold detectVarint. destruct (detectVarint_loop _ _) as [f k].
    exists f, k. reflexivity.
  - unfold detectPayload. eexists _, _. reflexivity.
Qed.

(** One call of [decode] keeps the field, and throws nothing but a
    decoding error. *)
Lemma decode_outcome s :
  match decode s with
  | Next z => repeatedField z = repeatedField s
  | Thrown e _ => decoding_error (repeatedField s) e
  end.
Proof.
  unfold decode.
  assert (HT : match decode_TAG s with
               | Next x => repeatedField x = repeatedField s
               | Thrown e _ => decoding_error (repeatedField s) e
               end).
  { unfold decode_TAG. destruct (Token_eqb (nextToken s) TAG);
      [| reflexivity].
    unfold detectVarint. destruct (detectVarint_loop _ _) as [found k].
    destruct found; [| reflexivity].
    unfold complete_TAG. cbn -[decodeVarint].
    destruct (tag s) as [t |] eqn:Htag; cbn -[decodeVarint];
      [| reflexivity].
    destruct (Z.eqb_spec t 0) as [| Hnz]; cbn -[decodeVarint];
      [reflexivity |].
    destruct (Z.eqb_spec (decodeVarint (firstn k (buffer s))) t)
      as [| Hne]; cbn -[decodeVarint]; [reflexivity |].
    left. exists t, (decodeVarint (firstn k (buffer s))).
    repeat split; assumption. }
  destruct (decode_TAG s) as [x | e x]; cbn; [| exact HT].
  assert (HL : match decode_LENGTH x with
               | Next y => repeatedField y = repeatedField s
               | Thrown e _ => decoding_error (repeatedField s) e
               end).
  { unfold decode_LENGTH. destruct (Token_eqb (nextToken x) LENGTH);
      [| exact HT].
    unfold detectVarint. destruct (detectVarint_loop _ _) as [found k].
    destruct found; [| exact HT].
    unfold complete_LENGTH. cbn.
    destruct (isPacked (repeatedField x)); exact HT. }
  destruct (decode_LENGTH x) as [y | e y]; cbn; [| exact HL].
  unfold decode_PAYLOAD.
  destruct (Token_eqb (nextToken y) PAYLOAD); [| exact HL].
  destruct (payload_scan_shape y) as (found & k & ->).
  destruct found; [| exact HL].
  unfold complete_PAYLOAD, decodePayload. cbn.
  destruct (decodeValue (repeatedField y) (firstn k (buffer y)))
    as [entry | cause] eqn:Hvalue.
  - destruct (isPacked (repeatedField y)); exact HL.
  - right. exists cause, (firstn k (buffer y)).
    split; [reflexivity |]. rewrite <- HL. exact Hvalue.
Qed.

Lemma decode_loop_outcome fuel :
  forall s,
    match decode_loop fuel s with
    | Done s' => repeatedField s' = repeatedField s
    | Failed e _ => decoding_error (repeatedField s) e
    | OutOfFuel _ => True
    end.
Proof.
  induction fuel as [| fuel IH]; intros s; simpl.
  - destruct (_ <? _)%nat; [exact I | reflexivity].
  - destruct (_ <? _)%nat; [| reflexivity].
    pose proof (decode_outcome s) as Hd.
    destruct (decode s) as [z | e z]; [| exact Hd].
    specialize (IH z). rewrite Hd in IH. exact IH.
Qed.

Lemma write_all_outcome :
  forall chunks fuel s,
    match write_all fuel s chunks with
    | Done s' => repeatedField s' = repeatedField s
    | Failed e _ => decoding_error (repeatedField s) e
    | OutOfFuel _ => True
    end.
Proof.
  induction chunks as [| chunk chunks IH]; intros fuel s; simpl.
  - reflexivity.
  - unfold _transform.
    pose proof (decode_loop_outcome fuel (set_buffer (buffer s ++ chunk) s))
      as Hloop.
    destruct (decode_loop fuel _) as [s1 | e emitted | emitted];
      [| exact Hloop | exact I].
    specialize (IH fuel s1). cbn in Hloop. rewrite Hloop in IH. exact IH.
Qed.

(** X6. Whatever state a stream is in and whatever is written to it, it
    fails with nothing but one of its two decoding errors: the TAG error,
    whose expected tag is then not 0 and differs from the one met, or the
    PAYLOAD error, wrapping what the value decoder of the field threw on
    some span.  The end of the input adds no failure. *)
Theorem stream_fails_with_a_decoding_error s
  (chunks : list (list byte)) (fuel : nat) :
  match run_stream codec fuel s chunks with
  | Failed e _ => decoding_error (repeatedField s) e
  | _ => True
  end.
Proof.
  unfold run_stream.
  pose proof (write_all_outcome chunks fuel s) as Hall.
  destruct (write_all fuel s chunks) as [s1 | e emitted | emitted];
    [| exact Hall | exact I].
  unfold end_of_input, _flush, _final.
  rewrite decode_loop_resting by (simpl; lia). exact I.
Qed.

(** *** The stored tag *)

Lemma decode_loop_keeps_tag t fuel :
  t <> 0 ->
  forall s,
    tag s = Some t ->
    match decode_loop fuel s with
    | Done s' => tag s' = Some t
    | _ => True
    end.
Proof.
  intros Hnz. induction fuel as [| fuel IH]; intros s Htag; simpl.
  - destruct (_ <? _)%nat; [exact I | exact Htag].
  - destruct (_ <? _)%nat; [| exact Htag].
    pose proof (nonzero_tag_is_kept s t Htag Hnz) as Hk.
    destruct (decode s) as [z | e z]; [| exact I].
    apply IH. exact Hk.
Qed.

(** X3. Once a tag other than 0 is stored, no input changes it: after
    any chunks written without error the stored tag is the same. *)
Theorem stored_tag_is_kept s (t : Z) (chunks : list (list byte))
  (fuel : nat) :
  tag s = Some t -> t <> 0 ->
  match write_all fuel s chunks with
  | Done s' => tag s' = Some t
  | _ => True
  end.
Proof.
  intros Htag Hnz. revert s Htag.
  induction chunks as [| chunk chunks IH]; intros s Htag; simpl.
  - exact Htag.
  - unfold _transform.
    pose proof (decode_loop_keeps_tag t fuel Hnz
                  (set_buffer (buffer s ++ chunk) s) Htag) as Hloop.
    destruct (decode_loop fuel _) as [s1 | |]; try exact I.
    apply IH. exact Hloop.
Qed.

(** *** A payload of known size that is not whole *)

(** X9. At a PAYLOAD token of a fixed-width or length-delimited field,
    with fewer bytes in the buffer than the payload size: one call of
    [decode] emits nothing, throws nothing and changes nothing but
    [readOffset], which it moves to the end of the buffer. *)
Theorem incomplete_payload_awaits_more s :
  nextToken s = PAYLOAD ->
  wireType (repeatedField s) <> WIRE_TYPES.VARINT ->
  (readOffset s <= length (buffer s))%nat ->
  Z.of_nat (length (buffer s)) < currentPayloadSize s ->
  decode s = Next (set_readOffset (length (buffer s)) s).
Proof.
  intros Ht Hw Hoff Hshort.
  rewrite decode_at_PAYLOAD by exact Ht.
  unfold decode_PAYLOAD. rewrite Ht. cbn [Token_eqb].
  apply Z.eqb_neq in Hw. rewrite Hw.
  rewrite detectPayload_eq by exact Hoff. cbn zeta.
  destruct (Z.ltb_spec (Z.of_nat (readOffset s)) (currentPayloadSize s));
    [| lia].
  replace (Nat.min (length (buffer s)) (Z.to_nat (currentPayloadSize s)))
    with (length (buffer s)) by lia.
  destruct (Z.eqb_spec (Z.of_nat (length (buffer s))) (currentPayloadSize s));
    [lia | reflexivity].
Qed.

(** *** No more elements than bytes *)

Lemma detectVarint_found_positive s k :
  (readOffset s <= length (buffer s))%nat ->
  detectVarint s = (true, set_readOffset k s) ->
  (1 <= k <= length (buffer s))%nat.
Proof.
  intros Hoff. unfold detectVarint.
  destruct (detectVarint_loop (skipn (readOffset s) (buffer s))
              (readOffset s)) as [found k'] eqn:Hloop.
  intros H. injection H as -> ->.
  destruct (detectVarint_loop_bounds _ _ _ _ Hloop) as (Hb & Hne & _).
  rewrite length_skipn in Hb.
  destruct (skipn (readOffset s) (buffer s)) eqn:Hrest;
    [discriminate Hloop |].
  specialize (Hne ltac:(discriminate)). lia.
Qed.

Lemma empty_payload_pending_le s : (empty_payload_pending s <= 1)%nat.
Proof.
  unfold empty_payload_pending.
  destruct (nextToken s); try lia.
  destruct (_ =? _); [lia |]. destruct (_ =? _); lia.
Qed.

Lemma decode_TAG_count s :
  between_blocks s ->
  match decode_TAG s with
  | Next x => (emitted_and_held x <= emitted_and_held s)%nat
  | Thrown _ x => pushed x = pushed s
  end.
Proof.
  intros [Hoff _ _]. unfold decode_TAG.
  destruct (Token_eqb (nextToken s) TAG) eqn:Ht; [| lia].
  apply Token_eqb_eq in Ht.
  destruct (detectVarint_spec s Hoff) as (found & k & Hd & _).
  rewrite Hd. destruct found;
    [| unfold emitted_and_held, empty_payload_pending; cbn; lia].
  destruct (detectVarint_found_positive s k Hoff Hd) as (Hk1 & Hk2).
  assert (E : empty_payload_pending s = 0%nat)
    by (unfold empty_payload_pending; rewrite Ht; reflexivity).
  unfold complete_TAG. cbn.
  destruct (tag_is_falsy (tag s)); [| destruct (tag_differs _ _)];
    cbn; try reflexivity;
    (try match goal with
         | |- (_ + _ + empty_payload_pending ?x <= _)%nat =>
             pose proof (empty_payload_pending_le x)
         end;
     unfold emitted_and_held; rewrite E, length_skipn;
     repeat match goal with
            | |- context [if ?c then _ else _] => destruct c
            end;
     lia).
Qed.

Lemma decode_LENGTH_count s :
  between_blocks s ->
  match decode_LENGTH s with
  | Next x => (emitted_and_held x <= emitted_and_held s)%nat
  | Thrown _ x => pushed x = pushed s
  end.
Proof.
  intros [Hoff _ _]. unfold decode_LENGTH.
  destruct (Token_eqb (nextToken s) LENGTH) eqn:Ht; [| lia].
  apply Token_eqb_eq in Ht.
  destruct (detectVarint_spec s Hoff) as (found & k & Hd & _).
  rewrite Hd. destruct found;
    [| unfold emitted_and_held, empty_payload_pending; cbn; lia].
  destruct (detectVarint_found_positive s k Hoff Hd) as (Hk1 & Hk2).
  assert (E : empty_payload_pending s = 0%nat)
    by (unfold empty_payload_pending; rewrite Ht; reflexivity).
  unfold complete_LENGTH. cbn.
  destruct (isPacked (repeatedField s)); cbn;
    (try match goal with
         | |- (_ + _ + empty_payload_pending ?x <= _)%nat =>
             pose proof (empty_payload_pending_le x)
         end;
     unfold emitted_and_held; rewrite E, length_skipn;
     repeat match goal with
            | |- context [if ?c then _ else _] => destruct c
            end;
     lia).
Qed.

Lemma decode_PAYLOAD_count s :
  between_blocks s ->
  match decode_PAYLOAD s with
  | Next x => (emitted_and_held x <= emitted_and_held s)%nat
  | Thrown _ x => pushed x = pushed s
  end.
Proof.
  intros [Hoff Hpk _]. unfold decode_PAYLOAD.
  destruct (Token_eqb (nextToken s) PAYLOAD) eqn:Ht; [| lia].
  apply Token_eqb_eq in Ht.
  destruct (Z.eqb_spec (wireType (repeatedField s)) WIRE_TYPES.VARINT)
    as [Hw | Hw].
  - destruct (detectVarint_spec s Hoff) as (found & k & Hd & _).
    rewrite Hd. destruct found;
      [| unfold emitted_and_held, empty_payload_pending; cbn; lia].
    destruct (detectVarint_found_positive s k Hoff Hd) as (Hk1 & Hk2).
    unfold complete_PAYLOAD, decodePayload. cbn.
    destruct (decodeValue (repeatedField s) _); [| reflexivity].
    destruct (isPacked (repeatedField s)); cbn;
      unfold emitted_and_held, empty_payload_pending; cbn;
      rewrite ?Ht, ?Hw, length_app, length_skipn; cbn; lia.
  - destruct (detectPayload_spec s Hoff)
      as (found & k & -> & Hk & Hyes & _).
    destruct found;
      [| unfold emitted_and_held, empty_payload_pending; cbn; lia].
    specialize (Hyes eq_refl).
    unfold complete_PAYLOAD, decodePayload. cbn.
    destruct (decodeValue (repeatedField s) _); [| reflexivity].
    apply Z.eqb_neq in Hw.
    destruct (isPacked (repeatedField s)) eqn:Hp; cbn;
      unfold emitted_and_held, empty_payload_pending; cbn;
      rewrite ?Ht, ?Hw, length_app, length_skipn; cbn.
    + apply Z.eqb_neq in Hw. specialize (Hpk eq_refl Hw).
      destruct (Z.eqb_spec (currentPayloadSize s) 0); lia.
    + destruct (Z.eqb_spec (currentPayloadSize s) 0); lia.
Qed.

Lemma consistent_nothing_pending s :
  consistent s -> empty_payload_pending s = 0%nat.
Proof.
  intros Hs. unfold empty_payload_pending.
  destruct (nextToken s) eqn:Ht; try reflexivity.
  destruct (Z.eqb_spec (wireType (repeatedField s)) WIRE_TYPES.VARINT)
    as [| Hw]; [reflexivity |].
  destruct (payload_short Hs Ht Hw);
    destruct (Z.eqb_spec (currentPayloadSize s) 0); lia.
Qed.

(** One call of [decode] emits no more elements than it drops bytes
    from the buffer. *)
Lemma decode_count s :
  consistent s ->
  match decode s with
  | Next z =>
      (emitted_and_held z <= length (pushed s) + length (buffer s))%nat
  | Thrown _ z =>
      (length (pushed z) <= length (pushed s) + length (buffer s))%nat
  end.
Proof.
  intros Hs. pose proof (consistent_nothing_pending s Hs) as H0.
  assert (Hstart : emitted_and_held s
                   = (length (pushed s) + length (buffer s))%nat)
    by (unfold emitted_and_held; lia).
  rewrite <- Hstart. clear H0 Hstart.
  apply consistent_between_blocks in Hs. unfold decode.
  pose proof (decode_TAG_between s Hs) as HT.
  pose proof (decode_TAG_count s Hs) as HTc.
  destruct (decode_TAG s) as [x | e x]; cbn;
    [| rewrite HTc; unfold emitted_and_held; lia].
  destruct HT as (Hx & _).
  pose proof (decode_LENGTH_between x Hx) as HL.
  pose proof (decode_LENGTH_count x Hx) as HLc.
  destruct (decode_LENGTH x) as [y | e y]; cbn;
    [| rewrite HLc; unfold emitted_and_held in *; lia].
  destruct HL as (Hy & _).
  pose proof (decode_PAYLOAD_count y Hy) as HPc.
  destruct (decode_PAYLOAD y) as [z | e z]; cbn;
    [| rewrite HPc; unfold emitted_and_held in *; lia].
  lia.
Qed.

Lemma decode_loop_count fuel :
  forall s,
    consistent s ->
    match decode_loop fuel s with
    | Done s' =>
        consistent s'
        /\ (length (pushed s') + length (buffer s')
            <= length (pushed s) + length (buffer s))%nat
    | Failed _ emitted | OutOfFuel emitted =>
        (length emitted <= length (pushed s) + length (buffer s))%nat
    end.
Proof.
  induction fuel as [| fuel IH]; intros s Hs; simpl.
  - destruct (_ <? _)%nat; [lia | split; [exact Hs | lia]].
  - destruct (Nat.ltb_spec (readOffset s) (length (buffer s))) as [Hlt |];
      [| split; [exact Hs | lia]].
    pose proof (decode_progress s Hs Hlt) as Hp.
    pose proof (decode_count s Hs) as Hc.
    destruct (decode s) as [z | e z]; [| exact Hc].
    destruct Hp as (Hz & _).
    pose proof (consistent_nothing_pending z Hz) as H0.
    unfold emitted_and_held in Hc.
    specialize (IH z Hz).
    destruct (decode_loop fuel z) as [s' | e emitted | emitted];
      [destruct IH as (IH1 & IH2); split; [exact IH1 |] | |]; lia.
Qed.

Lemma write_all_count :
  forall chunks fuel s,
    consistent s ->
    match write_all fuel s chunks with
    | Done s' =>
        (length (pushed s') + length (buffer s')
         <= length (pushed s) + length (buffer s)
            + length (concat chunks))%nat
    | Failed _ emitted | OutOfFuel emitted =>
        (length emitted
         <= length (pushed s) + length (buffer s)
            + length (concat chunks))%nat
    end.
Proof.
  induction chunks as [| chunk chunks IH]; intros fuel s Hs; simpl.
  - lia.
  - unfold _transform. fold (extend chunk s).
    pose proof (decode_loop_count fuel (extend chunk s)
                  (extend_consistent s chunk Hs)) as Hloop.
    rewrite !length_app. cbn in Hloop. rewrite length_app in Hloop.
    destruct (decode_loop fuel (extend chunk s))
      as [s1 | e emitted | emitted]; try lia.
    destruct Hloop as (H1 & Hle).
    specialize (IH fuel s1 H1).
    destruct (write_all fuel s1 chunks); lia.
Qed.

(** X7. A stream never emits more elements than it was written bytes:
    whatever the chunks, and whether it ends, fails or hangs, the
    elements emitted are at most as many as the bytes written. *)
Theorem no_more_elements_than_bytes root messageName s0
  (chunks : list (list byte)) (fuel : nat) :
  new_RepeatedFieldStream codec root messageName = Ok s0 ->
  (length (emitted_by (run_stream codec fuel s0 chunks))
   <= length (concat chunks))%nat.
Proof.
  intros Hnew.
  destruct (new_RepeatedFieldStream_consistent codec root messageName s0 Hnew)
    as (Hs & _).
  assert (Hempty : pushed s0 = [] /\ buffer s0 = []).
  { unfold new_RepeatedFieldStream in Hnew.
    destruct (validateMessage root messageName); [| discriminate].
    cbn in Hnew.
    destruct (getRepeatedFieldDetails codec root messageName);
      [| discriminate].
    cbn in Hnew. injection Hnew as <-. split; reflexivity. }
  destruct Hempty as (Hp0 & Hb0).
  pose proof (write_all_count chunks fuel s0 Hs) as Hall.
  rewrite Hp0, Hb0 in Hall. cbn in Hall.
  unfold run_stream.
  destruct (write_all fuel s0 chunks) as [s1 | e emitted | emitted];
    cbn; try lia.
  unfold end_of_input, _flush, _final.
  rewrite decode_loop_resting by (simpl; lia). cbn. lia.
Qed.

End Outcomes.

(** ** What the buffer holds between two chunks *)

Section Buffering.

Context {J : Type} (codec : Codec J).
Implicit Types (s x y z : State J).

Lemma detectVarint_loop_false_all rest :
  forall ro k,
    detectVarint_loop rest ro = (false, k) ->
    Forall (fun b => continuation b = true) rest.
Proof.
  induction rest as [| b rest IH]; intros ro k H; simpl in H.
  - constructor.
  - rewrite continuationBit_spec in H.
    destruct (continuation b) eqn:Hb; simpl in H; [| discriminate].
    constructor; [exact Hb | exact (IH _ _ H)].
Qed.

Lemma scanned_is_partial_start x :
  readOffset x = 0%nat -> scanned_is_partial x.
Proof.
  intros H. split; intros; [rewrite H; constructor | exact H].
Qed.

(** A varint scan that does not find the end has only met bytes with
    the continuation flag. *)
Lemma detectVarint_partial s k :
  (readOffset s <= length (buffer s))%nat ->
  varint_scanned s ->
  scanned_is_partial s ->
  detectVarint s = (false, set_readOffset k s) ->
  scanned_is_partial (set_readOffset k s).
Proof.
  intros Hoff Hv (Hscanned & _). unfold detectVarint.
  destruct (detectVarint_loop (skipn (readOffset s) (buffer s))
              (readOffset s)) as [found k'] eqn:Hloop.
  intros H. injection H as -> ->.
  destruct (detectVarint_loop_bounds _ _ _ _ Hloop) as (_ & _ & Hend).
  specialize (Hend eq_refl). rewrite length_skipn in Hend.
  split; [| intros Hn; contradiction].
  intros _. cbn.
  replace k with (length (buffer s)) by lia.
  rewrite firstn_all.
  rewrite <- (firstn_skipn (readOffset s) (buffer s)).
  apply Forall_app. split; [exact (Hscanned Hv) |].
  exact (detectVarint_loop_false_all _ _ _ Hloop).
Qed.

Lemma decode_TAG_partial s :
  (readOffset s <= length (buffer s))%nat ->
  scanned_is_partial s ->
  match decode_TAG s with
  | Next x => scanned_is_partial x
  | Thrown _ _ => True
  end.
Proof.
  intros Hoff Hs. unfold decode_TAG.
  destruct (Token_eqb (nextToken s) TAG) eqn:Ht; [| exact Hs].
  apply Token_eqb_eq in Ht.
  destruct (detectVarint_spec s Hoff) as (found & k & Hd & _).
  rewrite Hd. destruct found.
  - unfold complete_TAG. cbn.
    destruct (tag_is_falsy (tag s)); [| destruct (tag_differs _ _)];
      cbn; try exact I; apply scanned_is_partial_start; reflexivity.
  - apply detectVarint_partial; try assumption. left. exact Ht.
Qed.

Lemma decode_LENGTH_partial s :
  (readOffset s <= length (buffer s))%nat ->
  scanned_is_partial s ->
  match decode_LENGTH s with
  | Next x => scanned_is_partial x
  | Thrown _ _ => True
  end.
Proof.
  intros Hoff Hs. unfold decode_LENGTH.
  destruct (Token_eqb (nextToken s) LENGTH) eqn:Ht; [| exact Hs].
  apply Token_eqb_eq in Ht.
  destruct (detectVarint_spec s Hoff) as (found & k & Hd & _).
  rewrite Hd. destruct found.
  - unfold complete_LENGTH. cbn.
    destruct (isPacked (repeatedField s)); cbn;
      apply scanned_is_partial_start; reflexivity.
  - apply detectVarint_partial; try assumption. right. left. exact Ht.
Qed.

Lemma decode_PAYLOAD_partial s :
  (readOffset s <= length (buffer s))%nat ->
  scanned_is_partial s ->
  match decode_PAYLOAD s with
  | Next x => scanned_is_partial x
  | Thrown _ _ => True
  end.
Proof.
  intros Hoff Hs. unfold decode_PAYLOAD.
  destruct (Token_eqb (nextToken s) PAYLOAD) eqn:Ht; [| exact Hs].
  apply Token_eqb_eq in Ht.
  destruct (Z.eqb_spec (wireType (repeatedField s)) WIRE_TYPES.VARINT)
    as [Hw | Hw].
  - destruct (detectVarint_spec s Hoff) as (found & k & Hd & _).
    rewrite Hd. destruct found.
    + unfold complete_PAYLOAD, decodePayload. cbn.
      destruct (decodeValue (repeatedField s) _); [| exact I].
      destruct (isPacked (repeatedField s)); cbn;
        apply scanned_is_partial_start; reflexivity.
    + apply detectVarint_partial; try assumption.
      right. right. split; assumption.
  - destruct (detectPayload_spec s Hoff)
      as (found & k & -> & Hk & _ & _ & _ & Hge).
    destruct found.
    + unfold complete_PAYLOAD, decodePayload. cbn.
      destruct (decodeValue (repeatedField s) _); [| exact I].
      destruct (isPacked (repeatedField s)); cbn;
        apply scanned_is_partial_start; reflexivity.
    + assert (Hnv : ~ varint_scanned s).
      { intros [H | [H | (_ & H)]]; congruence. }
      split; cbn.
      * intros Hv. contradiction.
      * intros _ Hneg. destruct Hs as (_ & Hzero).
        specialize (Hzero Hnv Hneg). rewrite Hge by lia. exact Hzero.
Qed.

Lemma decode_partial s :
  consistent s ->
  scanned_is_partial s ->
  match decode s with
  | Next z => scanned_is_partial z
  | Thrown _ _ => True
  end.
Proof.
  intros Hs Hpart. apply consistent_between_blocks in Hs. unfold decode.
  pose proof (decode_TAG_between s Hs) as HT.
  pose proof (decode_TAG_partial s (bb_offset_in_buffer Hs) Hpart) as HTp.
  destruct (decode_TAG s) as [x | e x]; cbn; [| exact I].
  destruct HT as (Hx & _).
  pose proof (decode_LENGTH_between x Hx) as HL.
  pose proof (decode_LENGTH_partial x (bb_offset_in_buffer Hx) HTp) as HLp.
  destruct (decode_LENGTH x) as [y | e y]; cbn; [| exact I].
  destruct HL as (Hy & _).
  exact (decode_PAYLOAD_partial y (bb_offset_in_buffer Hy) HLp).
Qed.

Lemma scanned_is_partial_extend s c :
  (readOffset s <= length (buffer s))%nat ->
  scanned_is_partial s -> scanned_is_partial (extend c s).
Proof.
  intros Hoff (H1 & H2). split; cbn.
  - intros Hv. rewrite firstn_extend by exact Hoff. exact (H1 Hv).
  - exact H2.
Qed.

Lemma decode_loop_partial fuel s :
  consistent s -> scanned_is_partial s ->
  match decode_loop fuel s with
  | Done s' => consistent s' /\ scanned_is_partial s'
  | _ => True
  end.
Proof.
  intros Hs Hpart.
  apply (decode_loop_invariant
           (fun s => consistent s /\ scanned_is_partial s));
    [| split; assumption].
  clear s Hs Hpart. intros s (Hs & Hpart) Hlt.
  pose proof (decode_progress s Hs Hlt) as Hp.
  pose proof (decode_partial s Hs Hpart) as Hq.
  destruct (decode s) as [z | e z]; [| exact I].
  destruct Hp as (Hz & _). split; assumption.
Qed.

Lemma write_all_partial :
  forall chunks fuel s,
    consistent s -> scanned_is_partial s ->
    match write_all fuel s chunks with
    | Done s' => consistent s' /\ scanned_is_partial s'
    | _ => True
    end.
Proof.
  induction chunks as [| chunk chunks IH]; intros fuel s Hs Hpart; simpl.
  - split; assumption.
  - unfold _transform. fold (extend chunk s).
    pose proof (decode_loop_partial fuel (extend chunk s)
                  (extend_consistent s chunk Hs)
                  (scanned_is_partial_extend s chunk
                     (offset_in_buffer Hs) Hpart)) as Hloop.
    destruct (decode_loop fuel (extend chunk s)) as [s1 | |]; try exact I.
    destruct Hloop as (H1 & H2). apply IH; assumption.
Qed.

Lemma write_all_resting :
  forall chunks fuel s s',
    consistent s -> resting s ->
    write_all fuel s chunks = Done s' -> resting s'.
Proof.
  induction chunks as [| chunk chunks IH]; intros fuel s s' Hs Hr; simpl.
  - intros H. injection H as <-. exact Hr.
  - destruct (_transform fuel s chunk) as [s1 | |] eqn:Ht;
      try discriminate.
    destruct (_transform_done fuel s chunk s1 Hs Ht) as (H1 & H2).
    apply IH; assumption.
Qed.

(** X8. When the chunks written so far have all been processed, the
    stream holds nothing but the beginning of one token, scanned to its
    end: of a varint (a TAG, a LENGTH or a varint value) only bytes with
    the continuation flag, of a fixed-width or length-delimited payload
    fewer bytes than its size.  Everything else has been decoded and
    dropped from the buffer. *)
Theorem buffer_holds_one_partial_token root messageName s0
  (chunks : list (list byte)) (fuel : nat) s' :
  new_RepeatedFieldStream codec root messageName = Ok s0 ->
  write_all fuel s0 chunks = Done s' ->
  readOffset s' = length (buffer s')
  /\ (varint_scanned s' ->
      Forall (fun b => continuation b = true) (buffer s'))
  /\ (~ varint_scanned s' ->
      Z.of_nat (length (buffer s')) < currentPayloadSize s'
      \/ buffer s' = []).
Proof.
  intros Hnew Hwrite.
  destruct (new_RepeatedFieldStream_consistent codec root messageName s0 Hnew)
    as (Hs & Hr).
  assert (Hpart : scanned_is_partial s0).
  { apply scanned_is_partial_start.
    unfold new_RepeatedFieldStream in Hnew.
    destruct (validateMessage root messageName); [| discriminate].
    cbn in Hnew.
    destruct (getRepeatedFieldDetails codec root messageName);
      [| discriminate].
    cbn in Hnew. injection Hnew as <-. reflexivity. }
  pose proof (write_all_partial chunks fuel s0 Hs Hpart) as Hall.
  pose proof (write_all_resting chunks fuel s0 s' Hs Hr Hwrite) as Hrest.
  rewrite Hwrite in Hall. destruct Hall as (Hs' & (Hscanned & Hzero)).
  unfold resting in Hrest.
  split; [exact Hrest |]. split.
  - intros Hv. specialize (Hscanned Hv).
    rewrite Hrest, firstn_all in Hscanned. exact Hscanned.
  - intros Hnv.
    assert (Ht : nextToken s' = PAYLOAD).
    { destruct (nextToken s') eqn:Ht; [| | reflexivity];
        exfalso; apply Hnv; unfold varint_scanned; rewrite Ht; auto. }
    assert (Hw : wireType (repeatedField s') <> WIRE_TYPES.VARINT).
    { intros Hw. apply Hnv. right. right. split; assumption. }
    destruct (payload_short Hs' Ht Hw) as [Hshort | Hneg].
    + left. lia.
    + right. specialize (Hzero Hnv Hneg).
      destruct (buffer s'); [reflexivity | simpl in Hrest; lia].
Qed.

(** *** Packed fixed-width values *)

Lemma decode_packed_fixed s :
  isPacked (repeatedField s) = true ->
  wireType (repeatedField s) <> WIRE_TYPES.VARINT ->
  nextToken s = PAYLOAD ->
  consistent s ->
  decode s
  = if Z.of_nat (length (buffer s)) <? currentPayloadSize s
    then Next (set_readOffset (length (buffer s)) s)
    else
      let size := Z.to_nat (currentPayloadSize s) in
      match decodeValue (repeatedField s) (firstn size (buffer s)) with
      | inl entry =>
          Next {| repeatedField := repeatedField s;
                  currentPayloadSize := currentPayloadSize s;
                  buffer := skipn size (buffer s);
                  tag := tag s;
                  readOffset := 0%nat;
                  nextToken := PAYLOAD;
                  pushed := pushed s ++ [entry] |}
      | inr cause =>
          Thrown (RepeatedFieldStreamError (PAYLOAD_ERROR cause))
            (set_readOffset size s)
      end.
Proof.
  intros Hp Hw Ht Hs.
  pose proof (offset_in_buffer Hs) as Hoff.
  pose proof (packed_size Hs Hp Hw) as Hpos.
  assert (Hshort : Z.of_nat (readOffset s) < currentPayloadSize s)
    by (destruct (payload_short Hs Ht Hw); lia).
  rewrite decode_at_PAYLOAD by exact Ht.
  unfold decode_PAYLOAD. rewrite Ht. cbn [Token_eqb].
  apply Z.eqb_neq in Hw. rewrite Hw.
  rewrite detectPayload_eq by exact Hoff. cbn zeta.
  destruct (Z.ltb_spec (Z.of_nat (readOffset s)) (currentPayloadSize s));
    [| lia].
  destruct (Z.ltb_spec (Z.of_nat (length (buffer s)))
              (currentPayloadSize s)) as [Hlt | Hge].
  - replace (Nat.min (length (buffer s)) (Z.to_nat (currentPayloadSize s)))
      with (length (buffer s)) by lia.
    destruct (Z.eqb_spec (Z.of_nat (length (buffer s)))
                (currentPayloadSize s)); [lia | reflexivity].
  - replace (Nat.min (length (buffer s)) (Z.to_nat (currentPayloadSize s)))
      with (Z.to_nat (currentPayloadSize s)) by lia.
    rewrite Z2Nat.id by lia. rewrite Z.eqb_refl.
    unfold complete_PAYLOAD, decodePayload.
    cbn [buffer readOffset set_readOffset repeatedField].
    destruct (decodeValue (repeatedField s) _); [| reflexivity].
    cbn. rewrite Hp. reflexivity.
Qed.

Lemma cut_into_cons (field : RepeatedField J) size bytes spans values held
  entry :
  (0 <= size <= Z.of_nat (length bytes)) ->
  decodeValue field (firstn (Z.to_nat size) bytes) = inl entry ->
  cut_into field size (skipn (Z.to_nat size) bytes) spans values held ->
  cut_into field size bytes
    (firstn (Z.to_nat size) bytes :: spans) (entry :: values) held.
Proof.
  intros Hsize Hentry (Hlen & Hframed & Hcat & Hheld).
  repeat split.
  - constructor; [| exact Hlen]. rewrite length_firstn. lia.
  - constructor; assumption.
  - cbn [concat]. rewrite <- app_assoc, Hcat. apply firstn_skipn.
  - exact Hheld.
Qed.

Lemma decode_loop_packed_fixed fuel :
  forall s,
    isPacked (repeatedField s) = true ->
    wireType (repeatedField s) <> WIRE_TYPES.VARINT ->
    nextToken s = PAYLOAD ->
    consistent s ->
    match decode_loop fuel s with
    | Done s' =>
        (exists spans values,
            cut_into (repeatedField s) (currentPayloadSize s) (buffer s)
              spans values (buffer s')
            /\ pushed s' = pushed s ++ values)
        /\ repeatedField s' = repeatedField s
        /\ currentPayloadSize s' = currentPayloadSize s
        /\ nextToken s' = PAYLOAD
        /\ consistent s'
    | _ => True
    end.
Proof.
  induction fuel as [| fuel IH]; intros s Hp Hw Ht Hs; simpl.
  - destruct (Nat.ltb_spec (readOffset s) (length (buffer s))) as [| Hge];
      [exact I |].
    split;
      [| split; [reflexivity | split; [reflexivity | split; assumption]]].
    exists [], []. split; [| symmetry; apply app_nil_r].
    repeat split; try constructor.
    pose proof (offset_in_buffer Hs).
    destruct (payload_short Hs Ht Hw); [lia |].
    pose proof (packed_size Hs Hp Hw). lia.
  - destruct (Nat.ltb_spec (readOffset s) (length (buffer s))) as [Hlt | Hge].
    + pose proof (decode_progress s Hs Hlt) as Hprog.
      rewrite (decode_packed_fixed s Hp Hw Ht Hs) in *.
      destruct (Z.ltb_spec (Z.of_nat (length (buffer s)))
                  (currentPayloadSize s)) as [Hshort | Hwhole].
      * destruct Hprog as (Hz & _).
        exact (IH (set_readOffset (length (buffer s)) s) Hp Hw Ht Hz).
      * cbn zeta in *.
        destruct (decodeValue (repeatedField s)
                    (firstn (Z.to_nat (currentPayloadSize s)) (buffer s)))
          as [entry | cause] eqn:Hentry; [| exact I].
        destruct Hprog as (Hz & _).
        match type of Hz with
        | consistent ?z => specialize (IH z Hp Hw eq_refl Hz)
        end.
        destruct (decode_loop fuel _) as [s' | |]; try exact I.
        cbn in IH.
        destruct IH as ((spans & values & Hcut & Hpushed) & Hrest).
        split; [| exact Hrest].
        exists (firstn (Z.to_nat (currentPayloadSize s)) (buffer s) :: spans),
          (entry :: values).
        split.
        -- apply cut_into_cons; try assumption.
           pose proof (packed_size Hs Hp Hw). lia.
        -- rewrite Hpushed, <- app_assoc. reflexivity.
    + split;
        [| split; [reflexivity | split; [reflexivity | split; assumption]]].
      exists [], []. split; [| symmetry; apply app_nil_r].
      repeat split; try constructor.
      pose proof (offset_in_buffer Hs).
      destruct (payload_short Hs Ht Hw); [lia |].
      pose proof (packed_size Hs Hp Hw). lia.
Qed.

(** X10. A packed fixed-width field, written a tag, a run length and
    any bytes [rest], in any chunks: when the chunks have been processed
    without error, [rest] has been cut from its start into payload spans
    of exactly 4 bytes (wire type I32) or 8 bytes (I64), each decoded and
    emitted in order, and fewer than 4 (8) bytes are still held.  The run
    length plays no part in the framing. *)
Theorem packed_fixed_width_framing (field : RepeatedField J)
  (tagb runlen rest : list byte) (chunks : list (list byte))
  (fuel : nat) s' :
  isPacked field = true ->
  wireType field = WIRE_TYPES.I32 \/ wireType field = WIRE_TYPES.I64 ->
  is_varint tagb -> is_varint runlen ->
  concat chunks = tagb ++ runlen ++ rest ->
  (length (concat chunks) <= fuel)%nat ->
  write_all fuel (fresh field) chunks = Done s' ->
  exists spans values,
    cut_into field (getPayloadSizeInBytes (wireType field)) rest
      spans values (buffer s')
    /\ pushed s' = values.
Proof.
  intros Hp Hwire Hv Hr Hbytes Hfuel.
  assert (Hnum : wireType field = WIRE_TYPES.VARINT
                 \/ wireType field = WIRE_TYPES.I32
                 \/ wireType field = WIRE_TYPES.I64) by tauto.
  assert (Hw : wireType field <> WIRE_TYPES.VARINT)
    by (destruct Hwire as [H | H]; rewrite H; discriminate).
  assert (Hsize : 0 < getPayloadSizeInBytes (wireType field))
    by (destruct Hwire as [H | H]; rewrite H; reflexivity).
  destruct (fresh_consistent field (fun _ => Hnum)) as (Hc & Hrest).
  rewrite (write_all_concat chunks (fresh field) fuel Hc Hrest Hfuel).
  rewrite Hbytes in *. unfold _transform.
  fold (extend (tagb ++ runlen ++ rest) (fresh field)).
  pose (y := {| repeatedField := field;
                currentPayloadSize := getPayloadSizeInBytes (wireType field);
                buffer := rest;
                tag := Some (decodeVarint tagb);
                readOffset := 0%nat;
                nextToken := PAYLOAD;
                pushed := [] |}).
  assert (Hy : consistent y).
  { split; cbn; intros; try lia. }
  assert (Hdecode :
    decode (extend (tagb ++ runlen ++ rest) (fresh field)) = decode y).
  { unfold decode at 1.
    rewrite (decode_TAG_exact _ tagb (runlen ++ rest))
      by (try reflexivity; try assumption; left; reflexivity).
    cbn [andThen repeatedField extend fresh set_buffer].
    rewrite Hp, orb_true_r.
    rewrite (decode_LENGTH_exact _ runlen rest)
      by (try reflexivity; assumption).
    cbn [andThen repeatedField]. rewrite Hp.
    symmetry. apply decode_at_PAYLOAD. reflexivity. }
  assert (Hne : (0 < length (tagb ++ runlen ++ rest))%nat).
  { pose proof (is_varint_nonempty tagb Hv).
    destruct tagb; [contradiction | simpl; lia]. }
  destruct fuel as [| fuel]; [lia |].
  rewrite decode_loop_step by (cbn; exact Hne).
  rewrite Hdecode.
  assert (Hloop : exists fuel',
             match decode y with
             | Next z => decode_loop fuel z
             | Thrown e z => Failed e (pushed z)
             end = decode_loop fuel' y).
  { destruct rest as [| b rest'] eqn:Hrest'.
    - exists fuel.
      rewrite (decode_packed_fixed y Hp Hw eq_refl Hy). cbn.
      destruct (Z.ltb_spec 0 (getPayloadSizeInBytes (wireType field)));
        [| lia].
      change (set_readOffset 0 y) with y. reflexivity.
    - exists (S fuel). rewrite decode_loop_step by (cbn; lia).
      reflexivity. }
  destruct Hloop as (fuel' & ->).
  pose proof (decode_loop_packed_fixed fuel' y Hp Hw eq_refl Hy) as Hcut.
  intros Hdone. rewrite Hdone in Hcut.
  destruct Hcut as ((spans & values & Hcut & Hpushed) & _).
  exists spans, values. split; [exact Hcut | exact Hpushed].
Qed.

End Buffering.

(** ** A packed field in PAYLOAD: every byte is payload *)

Section PackedPayloads.

Context {J : Type}.
Implicit Types (s x y z : State J).

(** A varint scan that finds the end has met bytes with the
    continuation flag and then one without. *)
Lemma detectVarint_loop_found_shape rest :
  forall ro k,
    detectVarint_loop rest ro = (true, k) ->
    exists front last rest',
      rest = front ++ last :: rest'
      /\ Forall (fun b => continuation b = true) front
      /\ continuation last = false
      /\ k = (ro + length front + 1)%nat.
Proof.
  induction rest as [| b rest IH]; intros ro k H; simpl in H.
  - discriminate.
  - rewrite continuationBit_spec in H.
    destruct (continuation b) eqn:Hb; simpl in H.
    + destruct (IH _ _ H) as (front & last & rest' & -> & Hf & Hl & ->).
      exists (b :: front), last, rest'. repeat split.
      * constructor; assumption.
      * exact Hl.
      * simpl. lia.
    + injection H as <-. exists [], b, rest.
      repeat split; [constructor | exact Hb | simpl; lia].
Qed.

(** The bytes held by a state between two chunks are the beginning of
    one payload. *)
Lemma resting_partial_payload s :
  isPacked (repeatedField s) = true ->
  nextToken s = PAYLOAD ->
  consistent s -> scanned_is_partial s ->
  (length (buffer s) <= readOffset s)%nat ->
  readOffset s = length (buffer s)
  /\ partial_payload (wireType (repeatedField s)) (currentPayloadSize s)
       (buffer s).
Proof.
  intros Hp Ht Hs (Hscanned & _) Hge.
  pose proof (offset_in_buffer Hs) as Hoff.
  assert (Hro : readOffset s = length (buffer s)) by lia.
  split; [exact Hro |]. unfold partial_payload.
  destruct (Z.eqb_spec (wireType (repeatedField s)) WIRE_TYPES.VARINT)
    as [Hw | Hw].
  - rewrite <- (firstn_all (buffer s)), <- Hro. apply Hscanned.
    right. right. split; assumption.
  - pose proof (packed_size Hs Hp Hw).
    destruct (payload_short Hs Ht Hw); lia.
Qed.

(** One call of [decode] on a packed field in PAYLOAD: it scans to the
    end of the buffer without finding a whole payload, or it cuts one
    whole payload off the front of the buffer and pushes its value, or
    the value decoder throws on that payload. *)
Lemma decode_packed_step s :
  isPacked (repeatedField s) = true ->
  nextToken s = PAYLOAD ->
  consistent s -> scanned_is_partial s ->
  match decode s with
  | Next z =>
      nextToken z = PAYLOAD
      /\ repeatedField z = repeatedField s
      /\ currentPayloadSize z = currentPayloadSize s
      /\ tag z = tag s
      /\ ((buffer z = buffer s /\ pushed z = pushed s)
          \/ exists span entry,
              whole_payload (wireType (repeatedField s))
                (currentPayloadSize s) span
              /\ decodeValue (repeatedField s) span = inl entry
              /\ buffer s = span ++ buffer z
              /\ pushed z = pushed s ++ [entry])
  | Thrown e z =>
      exists span cause rest,
        whole_payload (wireType (repeatedField s)) (currentPayloadSize s)
          span
        /\ buffer s = span ++ rest
        /\ decodeValue (repeatedField s) span = inr cause
        /\ e = RepeatedFieldStreamError (PAYLOAD_ERROR cause)
        /\ pushed z = pushed s
  end.
Proof.
  intros Hp Ht Hs Hpart. pose proof (offset_in_buffer Hs) as Hoff.
  unfold whole_payload.
  destruct (Z.eqb_spec (wireType (repeatedField s)) WIRE_TYPES.VARINT)
    as [Hw | Hw].
  - (* a varint value *)
    rewrite decode_at_PAYLOAD by exact Ht.
    unfold decode_PAYLOAD. rewrite Ht. cbn [Token_eqb].
    rewrite Hw. change (WIRE_TYPES.VARINT =? WIRE_TYPES.VARINT) with true.
    cbv iota. unfold detectVarint.
    destruct (detectVarint_loop (skipn (readOffset s) (buffer s))
                (readOffset s)) as [found k] eqn:Hloop.
    destruct found.
    + destruct (detectVarint_loop_found_shape _ _ _ Hloop)
        as (front & last & rest' & Hrest & Hfront & Hlast & Hk).
      assert (Hvarint : one_varint (firstn k (buffer s))
                        /\ buffer s = firstn k (buffer s) ++ rest').
      { assert (Hpre : Forall (fun b => continuation b = true)
                         (firstn (readOffset s) (buffer s)))
          by (apply (proj1 Hpart); right; right; split; assumption).
        remember (firstn (readOffset s) (buffer s)) as pre eqn:Epre.
        assert (Hprelen : length pre = readOffset s)
          by (subst pre; rewrite length_firstn; lia).
        assert (Hbuf : buffer s = (pre ++ front ++ [last]) ++ rest').
        { transitivity (firstn (readOffset s) (buffer s)
                        ++ skipn (readOffset s) (buffer s));
            [symmetry; apply firstn_skipn |].
          rewrite <- Epre, Hrest, <- !app_assoc. reflexivity. }
        assert (Hfirst : firstn k (buffer s) = pre ++ front ++ [last]).
        { rewrite Hbuf.
          replace k with (length (pre ++ front ++ [last]))
            by (rewrite !length_app; simpl; lia).
          apply firstn_exact. }
        split.
        - exists (pre ++ front), last.
          split; [rewrite Hfirst, <- app_assoc; reflexivity |].
          split; [| exact Hlast].
          apply Forall_app. split; assumption.
        - rewrite Hfirst. exact Hbuf. }
      destruct Hvarint as (Hone & Hcut).
      unfold complete_PAYLOAD, decodePayload.
      cbn [buffer readOffset set_readOffset repeatedField].
      destruct (decodeValue (repeatedField s) (firstn k (buffer s)))
        as [entry | cause] eqn:Hentry.
      * cbn. rewrite Hp. cbn.
        repeat split. right.
        exists (firstn k (buffer s)), entry.
        repeat split; try assumption.
        symmetry. apply firstn_skipn.
      * exists (firstn k (buffer s)), cause, rest'.
        repeat split; assumption.
    + cbn. repeat split; try assumption. left. split; reflexivity.
  - (* a value of fixed size *)
    rewrite (decode_packed_fixed s Hp Hw Ht Hs).
    pose proof (packed_size Hs Hp Hw) as Hpos.
    destruct (Z.ltb_spec (Z.of_nat (length (buffer s)))
                (currentPayloadSize s)) as [Hshort | Hwhole].
    + cbn. repeat split; try assumption. left. split; reflexivity.
    + cbn zeta.
      assert (Hlen : Z.of_nat (length (firstn
                                  (Z.to_nat (currentPayloadSize s))
                                  (buffer s)))
                     = currentPayloadSize s)
        by (rewrite length_firstn; lia).
      destruct (decodeValue (repeatedField s)
                  (firstn (Z.to_nat (currentPayloadSize s)) (buffer s)))
        as [entry | cause] eqn:Hentry.
      * cbn. repeat split. right.
        exists (firstn (Z.to_nat (currentPayloadSize s)) (buffer s)), entry.
        repeat split; try assumption.
        symmetry. apply firstn_skipn.
      * exists (firstn (Z.to_nat (currentPayloadSize s)) (buffer s)), cause,
          (skipn (Z.to_nat (currentPayloadSize s)) (buffer s)).
        repeat split; try assumption.
        symmetry. apply firstn_skipn.
Qed.

(** What holds of a later state holds of an earlier one, the payloads
    cut off in between put in front. *)
Lemma all_payloads_link s z (c1 c2 : list byte) spans values o :
  repeatedField z = repeatedField s ->
  currentPayloadSize z = currentPayloadSize s ->
  tag z = tag s ->
  starts_with_payloads s (buffer s ++ c1) spans values (buffer z) ->
  pushed z = pushed s ++ values ->
  all_payloads c2 z o ->
  all_payloads (c1 ++ c2) s o.
Proof.
  intros Hf Hsize Htag (Hwhole & Hframed & Hcat) Hpushed.
  unfold all_payloads, starts_with_payloads, framed_as in *.
  rewrite Hf, Hsize.
  destruct o as [s' | e emitted | emitted]; [| | exact (fun H => H)].
  - intros (Ht' & Hf' & Hsize' & Htag' & Hro & Hheld
            & spans' & values' & (Hwhole' & Hframed' & Hcat') & Hpushed').
    repeat split; try congruence.
    exists (spans ++ spans'), (values ++ values'). repeat split.
    + apply Forall_app. split; assumption.
    + apply Forall2_app; assumption.
    + rewrite concat_app, <- app_assoc, Hcat', app_assoc, Hcat.
      symmetry. apply app_assoc.
    + rewrite Hpushed', Hpushed. symmetry. apply app_assoc.
  - intros (spans' & values' & span & cause & rest
            & (Hwhole' & Hframed' & Hcat') & Hspan & Hcause & He & Hem).
    exists (spans ++ spans'), (values ++ values'), span, cause, rest.
    repeat split; try assumption.
    + apply Forall_app. split; assumption.
    + apply Forall2_app; assumption.
    + rewrite concat_app, <- app_assoc, Hcat', app_assoc, Hcat.
      symmetry. apply app_assoc.
    + rewrite Hem, Hpushed. symmetry. apply app_assoc.
Qed.

Lemma decode_loop_all_payloads fuel :
  forall s,
    isPacked (repeatedField s) = true ->
    nextToken s = PAYLOAD ->
    consistent s -> scanned_is_partial s ->
    (unscanned s <= fuel)%nat ->
    all_payloads [] s (decode_loop fuel s).
Proof.
  assert (Hrest : forall s,
             isPacked (repeatedField s) = true ->
             nextToken s = PAYLOAD ->
             consistent s -> scanned_is_partial s ->
             (length (buffer s) <= readOffset s)%nat ->
             all_payloads [] s (Done s)).
  { intros s Hp Ht Hs Hpart Hge.
    destruct (resting_partial_payload s Hp Ht Hs Hpart Hge) as (Hro & Hheld).
    cbn. repeat split; try assumption.
    exists [], []. repeat split; try constructor.
    - cbn. symmetry. apply app_nil_r.
    - symmetry. apply app_nil_r. }
  induction fuel as [| fuel IH]; intros s Hp Ht Hs Hpart Hfuel; simpl.
  - destruct (Nat.ltb_spec (readOffset s) (length (buffer s))) as [Hlt | Hge].
    + unfold unscanned in Hfuel. lia.
    + apply Hrest; assumption.
  - destruct (Nat.ltb_spec (readOffset s) (length (buffer s))) as [Hlt | Hge];
      [| apply Hrest; assumption].
    pose proof (decode_progress s Hs Hlt) as Hprog.
    pose proof (decode_partial s Hs Hpart) as Hnext.
    pose proof (decode_spin_negative s Hs Hlt) as Hspin.
    pose proof (decode_packed_step s Hp Ht Hs Hpart) as Hstep.
    destruct (decode s) as [z | e z].
    + destruct Hprog as (Hz & Hdec).
      assert (Hless : (unscanned z < unscanned s)%nat).
      { destruct Hdec as [-> | Hdec]; [| exact Hdec].
        destruct (Hspin eq_refl) as (_ & Hw & Hneg).
        pose proof (packed_size Hs Hp Hw). lia. }
      destruct Hstep as (Ht' & Hf' & Hsize' & Htag' & Hcase).
      specialize (IH z ltac:(congruence) Ht' Hz Hnext ltac:(lia)).
      destruct Hcase as [(Hbuf & Hpushed)
                        | (span & entry & Hspan & Hentry & Hbuf & Hpushed)].
      * apply (all_payloads_link s z [] [] [] []); try assumption.
        -- repeat split; try constructor.
           cbn. rewrite app_nil_r. exact Hbuf.
        -- rewrite app_nil_r. exact Hpushed.
      * apply (all_payloads_link s z [] [] [span] [entry]); try assumption.
        repeat split.
        -- constructor; [exact Hspan | constructor].
        -- constructor; [exact Hentry | constructor].
        -- cbn. rewrite !app_nil_r. symmetry. exact Hbuf.
    + destruct Hstep as (span & cause & rest & Hspan & Hbuf & Hcause & He
                         & Hpushed).
      cbn. exists [], [], span, cause, rest.
      repeat split; try constructor; try assumption.
      * cbn. rewrite app_nil_r. symmetry. exact Hbuf.
      * rewrite app_nil_r. exact Hpushed.
Qed.

Lemma _transform_all_payloads fuel s (chunk : list byte) :
  isPacked (repeatedField s) = true ->
  nextToken s = PAYLOAD ->
  consistent s -> resting s -> scanned_is_partial s ->
  (length chunk <= fuel)%nat ->
  all_payloads chunk s (_transform fuel s chunk).
Proof.
  intros Hp Ht Hs Hr Hpart Hfuel.
  unfold _transform. fold (extend chunk s).
  pose proof (offset_in_buffer Hs) as Hoff.
  assert (Hu : (unscanned (extend chunk s) <= fuel)%nat).
  { rewrite unscanned_extend by exact Hoff.
    unfold unscanned, resting in *. lia. }
  pose proof (decode_loop_all_payloads fuel (extend chunk s) Hp Ht
                (extend_consistent s chunk Hs)
                (scanned_is_partial_extend s chunk Hoff Hpart) Hu) as Hloop.
  rewrite <- (app_nil_r chunk) at 1.
  apply (all_payloads_link s (extend chunk s) chunk [] [] []);
    try reflexivity; try exact Hloop.
  - repeat split; constructor.
  - symmetry. apply app_nil_r.
Qed.

Lemma write_all_all_payloads :
  forall (chunks : list (list byte)) fuel s,
    isPacked (repeatedField s) = true ->
    nextToken s = PAYLOAD ->
    consistent s -> resting s -> scanned_is_partial s ->
    (length (concat chunks) <= fuel)%nat ->
    all_payloads (concat chunks) s (write_all fuel s chunks).
Proof.
  induction chunks as [| chunk chunks IH];
    intros fuel s Hp Ht Hs Hr Hpart Hfuel.
  - cbn [write_all concat].
    destruct (resting_partial_payload s Hp Ht Hs Hpart) as (Hro & Hheld);
      [unfold resting in Hr; lia |].
    cbn. repeat split; try assumption.
    exists [], []. repeat split; try constructor.
    + cbn. symmetry. apply app_nil_r.
    + symmetry. apply app_nil_r.
  - cbn [write_all concat]. cbn [concat] in Hfuel.
    rewrite length_app in Hfuel.
    pose proof (_transform_all_payloads fuel s chunk Hp Ht Hs Hr Hpart
                  ltac:(lia)) as Hfirst.
    pose proof (_transform_done fuel s chunk) as Hdone.
    pose proof (decode_loop_partial fuel (extend chunk s)
                  (extend_consistent s chunk Hs)
                  (scanned_is_partial_extend s chunk
                     (offset_in_buffer Hs) Hpart)) as Hkeep.
    unfold _transform in *. fold (extend chunk s) in *.
    destruct (decode_loop fuel (extend chunk s))
      as [s1 | e emitted | emitted].
    + destruct (Hdone s1 Hs eq_refl) as (Hs1 & Hr1).
      destruct Hkeep as (_ & Hpart1).
      destruct Hfirst as (Ht1 & Hf1 & Hsize1 & Htag1 & _ & _
                          & spans & values & Hstart & Hpushed).
      apply (all_payloads_link s s1 chunk (concat chunks) spans values);
        try assumption.
      apply IH; try assumption; [congruence | lia].
    + destruct Hfirst as (spans & values & span & cause & rest
                          & (Hwhole & Hframed & Hcat) & Hrest).
      exists spans, values, span, cause, (rest ++ concat chunks).
      split; [| exact Hrest].
      repeat split; try assumption.
      rewrite !app_assoc. rewrite <- (app_assoc (concat spans)), Hcat.
      reflexivity.
    + exact Hfirst.
Qed.

(** C9. Once a packed field is in PAYLOAD it stays there and every
    byte is payload.  No call of [decode] leaves PAYLOAD or throws a tag
    error.  And whatever bytes are written to the stream between two
    chunks, in whatever chunks -- the tag and the length of a second
    packed run as any others -- the writes return or fail, they do not
    hang, and: the bytes held and the bytes written are cut from their
    start into whole payloads (one varint each for a VARINT field, 4 or
    8 bytes each for a fixed-width one), each decoded and emitted in
    order; what is left after the last whole payload is held as the
    beginning of the next; the stream is still in PAYLOAD with the same
    tag; and the only failure is the error of the value decoder on one
    of these payloads, the ones before it having been emitted.  In any
    state whatsoever, the bytes that leave the buffer were handed to the
    value decoder. *)
Theorem packed_field_stays_in_PAYLOAD s :
  isPacked (repeatedField s) = true ->
  nextToken s = PAYLOAD ->
  (forall s', decode s = Next s' -> nextToken s' = PAYLOAD)
  /\ (forall expected actual s',
        decode s
        <> Thrown (RepeatedFieldStreamError (TAG_ERROR expected actual)) s')
  /\ (forall fuel chunks,
        consistent s -> resting s -> scanned_is_partial s ->
        (length (concat chunks) <= fuel)%nat ->
        all_payloads (concat chunks) s (write_all fuel s chunks))
  /\ forall fuel chunks,
      match write_all fuel s chunks with
      | Done s' => payloads_only (concat chunks) s s'
      | Failed e _ =>
          exists cause, e = RepeatedFieldStreamError (PAYLOAD_ERROR cause)
      | OutOfFuel _ => True
      end.
Proof.
  intros Hp Ht.
  destruct (packed_payloads_only s Hp Ht) as (Hstay & Hnotag & Honly).
  split; [exact Hstay |]. split; [exact Hnotag |]. split; [| exact Honly].
  intros fuel chunks Hs Hr Hpart Hfuel.
  apply write_all_all_payloads; assumption.
Qed.

End PackedPayloads.

(** The state of a stream between two chunks: the constructor and the
    writes that return establish what the theorem above asks of it. *)
Lemma between_chunks {J : Type} (codec : Codec J) root messageName
  (s0 s : State J) (chunks : list (list byte)) (fuel : nat) :
  new_RepeatedFieldStream codec root messageName = Ok s0 ->
  write_all fuel s0 chunks = Done s ->
  consistent s /\ resting s /\ scanned_is_partial s.
Proof.
  intros Hnew Hwrite.
  destruct (new_RepeatedFieldStream_consistent codec root messageName s0 Hnew)
    as (Hs0 & Hr0).
  assert (Hpart0 : scanned_is_partial s0)
    by (apply scanned_is_partial_start; unfold resting in Hr0;
        unfold new_RepeatedFieldStream in Hnew;
        destruct (validateMessage root messageName); [| discriminate];
        cbn in Hnew;
        destruct (getRepeatedFieldDetails codec root messageName);
          [| discriminate];
        cbn in Hnew; injection Hnew as <-; reflexivity).
  pose proof (write_all_partial chunks fuel s0 Hs0 Hpart0) as Hall.
  rewrite Hwrite in Hall. destruct Hall as (Hs & Hpart).
  split; [exact Hs |]. split; [| exact Hpart].
  exact (write_all_resting chunks fuel s0 s Hs0 Hr0 Hwrite).
Qed.

(** A packed [int32] stream that was written the run [0a 02 01 02] is
    written a second run [0a 01 05] in two chunks: its tag and its
    length come out as the elements 10 and 1. *)
Lemma packed_field_stays_in_PAYLOAD_witness :
  let s := between_values Reference.int32_field 10
             [Ext (Reference.JNumber 1); Ext (Reference.JNumber 2)] in
  (forall s', decode s = Next s' -> nextToken s' = PAYLOAD)
  /\ (forall expected actual s',
        decode s
        <> Thrown (RepeatedFieldStreamError (TAG_ERROR expected actual)) s')
  /\ all_payloads [x0a; x01; x05] s (write_all 3 s [[x0a]; [x01; x05]])
  /\ write_all 3 s [[x0a]; [x01; x05]]
     = Done (between_values Reference.int32_field 10
               [Ext (Reference.JNumber 1); Ext (Reference.JNumber 2);
                Ext (Reference.JNumber 10); Ext (Reference.JNumber 1);
                Ext (Reference.JNumber 5)]).
Proof.
  destruct (packed_field_stays_in_PAYLOAD
              (between_values Reference.int32_field 10
                 [Ext (Reference.JNumber 1); Ext (Reference.JNumber 2)])
              eq_refl eq_refl) as (Hstay & Hnotag & Hall & _).
  split; [exact Hstay |]. split; [exact Hnotag |]. split; [| reflexivity].
  destruct (between_chunks Reference.codec Reference.root "PackedInt32"
              (fresh Reference.int32_field)
              (between_values Reference.int32_field 10
                 [Ext (Reference.JNumber 1); Ext (Reference.JNumber 2)])
              [[x0a; x02; x01; x02]] 4 eq_refl eq_refl)
    as (Hs & Hr & Hpart).
  apply (Hall 3%nat [[x0a]; [x01; x05]] Hs Hr Hpart).
  simpl. lia.
Defined.

(** ** Varints of five bytes *)








(** ** The details of the repeated field *)

Section Details.

Context {J : Type} (codec : Codec J).

(** A type name that is none of the built-in ones is written as a
    length-delimited value. *)
Lemma getWriteType_other (type : string) :
  includes DATA_TYPES.values type = false ->
  getWriteType type = WIRE_TYPES.LEN.
Proof.
  unfold includes, DATA_TYPES.values. cbn [existsb].
  rewrite !orb_false_iff.
  intros (H1 & H2 & H3 & H4 & H5 & H6 & H7 & H8 & H9 & H10 & H11 & H12
          & H13 & H14 & H15 & H16 & _).
  unfold getWriteType, includes. cbn [existsb].
  rewrite H1, H2, H3, H4, H5, H6, H7, H8, H9, H10, H11, H14, H15, H16.
  reflexivity.
Qed.



(** X13. The stream built for a message whose sole field is repeated
    and has an enum of the schema as its type reads the field as an
    [int32]: wire type VARINT, every value decoded by the [int32] reader
    of the library, packed unless the schema turns packing off. *)
Theorem enum_field_is_read_as_int32 (root : Root J) (messageName : string)
  (T : MessageType J) (f : Field) :
  lookupType root messageName = Some T ->
  fieldsArray T = [f] ->
  repeated f = true ->
  includes DATA_TYPES.values (field_type f) = false ->
  lookupTypeOrEnum root (field_type f) = Some IsEnum ->
  new_RepeatedFieldStream codec root messageName
  = Ok (fresh
          {| name := field_name f;
             wireType := WIRE_TYPES.VARINT;
             isPacked := packed f;
             decodeValue :=
               fun payload => ext (reader_int32 codec payload) |}).
Proof.
  intros HT Hf Hrep Hother Henum.
  unfold new_RepeatedFieldStream, validateMessage.
  rewrite HT, Hf. cbn [nth_error length Nat.ltb Nat.leb]. rewrite Hrep.
  cbn [negb bind].
  unfold getRepeatedFieldDetails, getResolvedType.
  rewrite HT, Hf. cbn [nth_error]. rewrite Hother, Henum.
  reflexivity.
Qed.

(** X15. The stream built for a message whose sole field is repeated
    and has a message of the schema as its type is length-delimited and
    never packed, whatever the [packed] option, and decodes every payload
    by that message type ([decode], then [toObject]). *)
Theorem message_field_is_length_delimited (root : Root J)
  (messageName : string) (T E E' : MessageType J) (f : Field) :
  lookupType root messageName = Some T ->
  fieldsArray T = [f] ->
  repeated f = true ->
  includes DATA_TYPES.values (field_type f) = false ->
  lookupTypeOrEnum root (field_type f) = Some (IsType E') ->
  lookupType root (field_type f) = Some E ->
  new_RepeatedFieldStream codec root messageName
  = Ok (fresh
          {| name := field_name f;
             wireType := WIRE_TYPES.LEN;
             isPacked := false;
             decodeValue :=
               fun payload => ext (decode_toObject E payload) |}).
Proof.
  intros HT Hf Hrep Hother Htype Hlookup.
  unfold new_RepeatedFieldStream, validateMessage.
  rewrite HT, Hf. cbn [nth_error length Nat.ltb Nat.leb]. rewrite Hrep.
  cbn [negb bind].
  unfold getRepeatedFieldDetails, getResolvedType, getDecoder.
  rewrite HT, Hf. cbn [nth_error]. rewrite Hother, Htype.
  cbn [negb bind]. rewrite Hother, Hlookup. cbn [negb bind].
  rewrite (getWriteType_other _ Hother). reflexivity.
Qed.

End Details.

(** ** The further theorems at concrete streams *)

(** A stream that has stored the tag 8 and is written the entry
    [08 01]. *)
Lemma stored_tag_is_kept_witness :
  match
    write_all 4 (set_tag (Some 8) (fresh Reference.unpacked_int32_field))
      [[x08; x01]]
  with
  | Done s' => tag s' = Some 8
  | _ => True
  end.
Proof.
  apply (stored_tag_is_kept
           (set_tag (Some 8) (fresh Reference.unpacked_int32_field)) 8
           [[x08; x01]] 4).
  - reflexivity.
  - discriminate.
Defined.

(** A stream that has stored the tag 8 and meets the tag 16. *)
Lemma nonzero_tag_mismatch_witness :
  let s := extend [x10; x02]
             (set_tag (Some 8) (fresh Reference.unpacked_int32_field)) in
  decode s
  = Thrown (RepeatedFieldStreamError (TAG_ERROR 8 16)) (set_readOffset 1 s).
Proof.
  apply (nonzero_tag_mismatch
           (extend [x10; x02]
              (set_tag (Some 8) (fresh Reference.unpacked_int32_field)))
           (set_readOffset 1
              (extend [x10; x02]
                 (set_tag (Some 8) (fresh Reference.unpacked_int32_field))))
           8).
  - reflexivity.
  - reflexivity.
  - discriminate.
  - reflexivity.
  - cbn. discriminate.
Defined.

(** A packed [int32] stream written a run that breaks off inside its
    second value. *)
Lemma numeric_fields_never_hang_witness :
  (exists s',
      run_stream Reference.codec 4 (fresh Reference.int32_field)
        [[x0a; x02]; [x01; x80]] = Done s')
  \/ (exists e emitted,
         run_stream Reference.codec 4 (fresh Reference.int32_field)
           [[x0a; x02]; [x01; x80]] = Failed e emitted).
Proof.
  apply (numeric_fields_never_hang Reference.codec Reference.root
           "PackedInt32" (fresh Reference.int32_field)
           [[x0a; x02]; [x01; x80]] 4).
  - reflexivity.
  - discriminate.
  - simpl. lia.
Defined.

(** A [string] stream written a tag, the length [ff ff ff ff 0f], which
    decodes to -1, and one more byte. *)
Lemma negative_length_never_returns_witness :
  write_all 1000 (fresh Reference.string_field)
    [[x0a] ++ [xff; xff; xff; xff; x0f] ++ x61 :: []]
  = OutOfFuel [].
Proof.
  apply (negative_length_never_returns Reference.string_field
           [x0a] [xff; xff; xff; xff; x0f] x61 []).
  - reflexivity.
  - reflexivity.
  - reflexivity.
  - reflexivity.
  - reflexivity.
Defined.

(** A packed [fixed32] stream at PAYLOAD that holds two bytes of a
    value. *)
Lemma incomplete_payload_awaits_more_witness :
  let s := extend [x01; x00]
             (set_nextToken PAYLOAD (fresh Reference.fixed32_field)) in
  decode s = Next (set_readOffset 2 s).
Proof.
  apply (incomplete_payload_awaits_more
           (extend [x01; x00]
              (set_nextToken PAYLOAD (fresh Reference.fixed32_field)))).
  - reflexivity.
  - discriminate.
  - simpl. lia.
  - reflexivity.
Defined.

(** Four bytes written to a packed [int32] stream: two elements. *)
Lemma no_more_elements_than_bytes_witness :
  (length
     (emitted_by
        (run_stream Reference.codec 4 (fresh Reference.int32_field)
           [[x0a; x02]; [x01; x02]]))
   <= length (concat [[x0a; x02]; [x01; x02]]))%nat.
Proof.
  apply (no_more_elements_than_bytes Reference.codec Reference.root
           "PackedInt32" (fresh Reference.int32_field)).
  reflexivity.
Defined.

(** The packed run [0a 02 01 80], whose second value breaks off: the
    stream holds [80]. *)
Lemma buffer_holds_one_partial_token_witness :
  let s' :=
    {| repeatedField := Reference.int32_field;
       currentPayloadSize := 0;
       buffer := [x80];
       tag := Some 10;
       readOffset := 1%nat;
       nextToken := PAYLOAD;
       pushed := [Ext (Reference.JNumber 1)] |} in
  readOffset s' = length (buffer s')
  /\ (varint_scanned s' ->
      Forall (fun b => continuation b = true) (buffer s'))
  /\ (~ varint_scanned s' ->
      Z.of_nat (length (buffer s')) < currentPayloadSize s'
      \/ buffer s' = []).
Proof.
  apply (buffer_holds_one_partial_token Reference.codec Reference.root
           "PackedInt32" (fresh Reference.int32_field)
           [[x0a; x02]; [x01; x80]] 4).
  - reflexivity.
  - reflexivity.
Defined.

(** A packed [fixed32] stream written the tag, a run length of 8 and
    nine bytes: two values, and one byte is held. *)
Lemma packed_fixed_width_framing_witness :
  exists spans values,
    cut_into Reference.fixed32_field 4
      [x01; x00; x00; x00; x02; x00; x00; x00; x03]
      spans values [x03]
    /\ [Ext (Reference.JNumber 1); Ext (Reference.JNumber 2)] = values.
Proof.
  apply (packed_fixed_width_framing Reference.fixed32_field
           [x0a] [x08] [x01; x00; x00; x00; x02; x00; x00; x00; x03]
           [[x0a; x08; x01; x00]; [x00; x00; x02; x00; x00; x00; x03]] 11
           {| repeatedField := Reference.fixed32_field;
              currentPayloadSize := 4;
              buffer := [x03];
              tag := Some 10;
              readOffset := 1%nat;
              nextToken := PAYLOAD;
              pushed := [Ext (Reference.JNumber 1);
                         Ext (Reference.JNumber 2)] |}).
  - reflexivity.
  - left. reflexivity.
  - reflexivity.
  - reflexivity.
  - reflexivity.
  - simpl. lia.
  - reflexivity.
Defined.


Lemma enum_field_is_read_as_int32_witness :
  new_RepeatedFieldStream Reference.codec Reference.nested_root "Colors"
  = Ok (fresh
          {| name := "items";
             wireType := WIRE_TYPES.VARINT;
             isPacked := true;
             decodeValue :=
               fun payload => ext (reader_int32 Reference.codec payload) |}).
Proof.
  apply (enum_field_is_read_as_int32 Reference.codec Reference.nested_root
           "Colors" (Reference.message [Reference.repeated_field "Color" true])
           (Reference.repeated_field "Color" true));
    reflexivity.
Defined.

Lemma message_field_is_length_delimited_witness :
  new_RepeatedFieldStream Reference.codec Reference.nested_root "Points"
  = Ok (fresh
          {| name := "items";
             wireType := WIRE_TYPES.LEN;
             isPacked := false;
             decodeValue :=
               fun payload =>
                 ext (decode_toObject Reference.Point payload) |}).
Proof.
  apply (message_field_is_length_delimited Reference.codec
           Reference.nested_root "Points"
           (Reference.message [Reference.repeated_field "Point" true])
           Reference.Point Reference.Point
           (Reference.repeated_field "Point" true));
    reflexivity.
Defined.

(** Two colours, 1 and 0, in a packed run, and two points, [{x: 1}] and
    [{x: 2}], each in two chunks. *)
Example colors_stream :
  emitted_by
    (run_stream Reference.codec 4
       (fresh
          {| name := "items"; wireType := WIRE_TYPES.VARINT; isPacked := true;
             decodeValue :=
               fun payload =>
                 ext (reader_int32 Reference.codec payload) |})
       [[x0a; x02; x01]; [x00]])
  = [Ext (Reference.JNumber 1); Ext (Reference.JNumber 0)].
Proof. vm_compute. reflexivity. Qed.

Example points_stream :
  emitted_by
    (run_stream Reference.codec 8
       (fresh
          {| name := "items"; wireType := WIRE_TYPES.LEN; isPacked := false;
             decodeValue :=
               fun payload =>
                 ext (decode_toObject Reference.Point payload) |})
       [[x0a; x02; x08]; [x01; x0a; x02; x08; x02]])
  = [Ext (Reference.JObject [("x"%string, 1)]);
     Ext (Reference.JObject [("x"%string, 2)])].
Proof. vm_compute. reflexivity. Qed.

(** ** The texts of the errors *)

Example number_renders :
  ERRORS.number 0 = "0"%string
  /\ ERRORS.number 7 = "7"%string
  /\ ERRORS.number 300 = "300"%string
  /\ ERRORS.number (-5) = "-5"%string
  /\ ERRORS.number 2147483647 = "2147483647"%string
  /\ ERRORS.number (-2147483648) = "-2147483648"%string.
Proof. repeat split; vm_compute; reflexivity. Qed.

Example tag_error_text :
  message_text (TAG_ERROR 8 16)
  = ("Expected array-like structure: Tag should repeat as 8, "
     ++ "but encountered a different tag: 16.")%string.
Proof. vm_compute. reflexivity. Qed.

(** More fuel than [S fuel] changes nothing for a number below
    [10 ^ S fuel]: all its digits are written. *)
Lemma digits_complete (fuel extra : nat) :
  forall n,
    0 <= n < 10 ^ Z.of_nat (S fuel) ->
    ERRORS.digits (S fuel + extra) n = ERRORS.digits (S fuel) n.
Proof.
  induction fuel as [| fuel IH]; intros n Hn.
  - cbn [Nat.add ERRORS.digits]. change (10 ^ Z.of_nat 1) with 10 in Hn.
    destruct (Z.ltb_spec n 10); [reflexivity | lia].
  - change (ERRORS.digits (S (S fuel) + extra) n)
      with (String.append
              (if n <? 10 then EmptyString
               else ERRORS.digits (S fuel + extra) (n / 10))
              (String (ERRORS.digit (n mod 10)) EmptyString)).
    change (ERRORS.digits (S (S fuel)) n)
      with (String.append
              (if n <? 10 then EmptyString
               else ERRORS.digits (S fuel) (n / 10))
              (String (ERRORS.digit (n mod 10)) EmptyString)).
    destruct (Z.ltb_spec n 10); [reflexivity |].
    rewrite IH; [reflexivity |].
    rewrite (Nat2Z.inj_succ (S fuel)), Z.pow_succ_r in Hn by lia.
    split; [apply Z.div_pos; lia |].
    apply Z.div_lt_upper_bound; lia.
Qed.

(** [decimal] gives itself fuel enough. *)
Lemma decimal_complete (n : Z) (extra : nat) :
  0 <= n ->
  ERRORS.digits (S (Z.to_nat (Z.log2 n)) + extra) n = ERRORS.decimal n.
Proof.
  intros Hn. apply digits_complete. split; [exact Hn |].
  rewrite Nat2Z.inj_succ, Z2Nat.id by apply Z.log2_nonneg.
  destruct (Z.eq_dec n 0) as [-> | Hnz].
  - reflexivity.
  - destruct (Z.log2_spec n ltac:(lia)) as (_ & Hlt).
    pose proof (Z.log2_nonneg n).
    assert (2 ^ Z.succ (Z.log2 n) <= 10 ^ Z.succ (Z.log2 n))
      by (apply Z.pow_le_mono_l; lia).
    lia.
Qed.










